(** * Forecasting demo (chapter 15): the array layer and the data pipeline

    A shallow embedding of [chapter-15_demo_code.py].  The script is NumPy
    code: arrays are handles (buffer, offset, sizes and strides) onto flat
    buffers of a store, basic indexing returns views that alias the buffer,
    and slice assignment writes through a view with broadcasting.  The
    embedding keeps that structure: a store of buffers, view geometry, and a
    state-and-exception monad in which the functions of the script run. *)

From Stdlib Require Import ZArith QArith Reals Lra Lia List.
From stdpp Require Import base option list strings.

Local Open Scope nat_scope.

(** ** Exceptions *)

Inductive exn :=
  | IndexError      (* subscript out of range, too many subscripts *)
  | ValueError      (* shapes that do not broadcast, sizes that do not match *)
  | InvalidHandle.  (* a handle that does not fit its buffer: no NumPy array *)

Inductive result (X : Type) :=
  | Ok (x : X)
  | Raise (e : exn).
Arguments Ok {X} x.
Arguments Raise {X} e.

#[global] Instance result_ret : MRet result := λ X x, Ok x.
#[global] Instance result_bind : MBind result := λ X Y f r,
  match r with Ok x => f x | Raise e => Raise e end.
#[global] Instance result_fmap : FMap result := λ X Y f r,
  match r with Ok x => Ok (f x) | Raise e => Raise e end.

Definition of_option {X} (e : exn) (o : option X) : result X :=
  match o with Some x => Ok x | None => Raise e end.

(** ** Geometry of views

    A view is an offset into a buffer and, per axis, a size and a stride
    (counted in elements). *)

Record view := View { v_offset : nat; v_dims : list (nat * nat) }.

Definition v_shape (v : view) : list nat := fst <$> v_dims v.

Definition numel (sh : list nat) : nat := foldr Nat.mul 1 sh.

(** Sizes and strides of a freshly allocated (C-order) array. *)
Fixpoint c_dims (sh : list nat) : list (nat * nat) :=
  match sh with
  | [] => []
  | n :: sh' => (n, numel sh') :: c_dims sh'
  end.

Definition contiguous (sh : list nat) : view := View 0 (c_dims sh).

Fixpoint dot (idx : list nat) (dims : list (nat * nat)) : nat :=
  match idx, dims with
  | i :: idx', (_, s) :: dims' => i * s + dot idx' dims'
  | _, _ => 0
  end.

(** Buffer position of the element at multi-index [idx]. *)
Definition pos (v : view) (idx : list nat) : nat := v_offset v + dot idx (v_dims v).

Definition in_range (idx sh : list nat) : Prop := Forall2 lt idx sh.

(** All multi-indices of a shape, last axis fastest (as [np.ndindex]). *)
Fixpoint ndindex (sh : list nat) : list (list nat) :=
  match sh with
  | [] => [[]]
  | n :: sh' => i ← seq 0 n; cons i <$> ndindex sh'
  end.

(** Largest position reached by a view whose sizes are all positive. *)
Fixpoint span (dims : list (nat * nat)) : nat :=
  match dims with
  | [] => 0
  | (n, s) :: dims' => (n - 1) * s + span dims'
  end.

(** [fits v len]: every element of the view lies inside a buffer of [len]
    elements. *)
Definition fits (v : view) (len : nat) : bool :=
  bool_decide (numel (v_shape v) = 0 ∨ v_offset v + span (v_dims v) < len).

(** ** Python subscripts *)

Inductive subscr :=
  | All                       (* [:]    *)
  | At (i : Z)                (* [i]    *)
  | Range (a b : option Z).   (* [a:b]  *)

(** An integer subscript on an axis of size [n]; negative counts from the end. *)
Definition norm_index (n : nat) (i : Z) : result nat :=
  if decide (0 ≤ i < Z.of_nat n)%Z then Ok (Z.to_nat i)
  else if decide (- Z.of_nat n ≤ i < 0)%Z then Ok (Z.to_nat (Z.of_nat n + i))
  else Raise IndexError.

(** A slice bound on an axis of size [n]: negative counts from the end, and
    the bound is clamped to [0, n]. *)
Definition clamp_bound (n : nat) (i : Z) : nat :=
  if decide (i < 0)%Z then Z.to_nat (Z.max 0 (Z.of_nat n + i))
  else Z.to_nat (Z.min (Z.of_nat n) i).

(** Start and length of [a:b] on an axis of size [n]. *)
Definition slice_range (n : nat) (a b : option Z) : nat * nat :=
  let lo := from_option (clamp_bound n) 0 a in
  let hi := from_option (clamp_bound n) n b in
  (lo, hi - lo).

#[global] Arguments norm_index : simpl never.
#[global] Arguments slice_range : simpl never.

(** Subscripts resolved against the sizes of the axes. *)
Inductive rsub :=
  | RAll
  | RAt (k : nat)
  | RRange (lo len : nat).

Fixpoint resolve (subs : list subscr) (sh : list nat) : result (list rsub) :=
  match subs, sh with
  | [], _ => Ok []
  | _ :: _, [] => Raise IndexError
  | s :: subs', n :: sh' =>
      r ← match s with
          | All => Ok RAll
          | At i => RAt <$> norm_index n i
          | Range a b => Ok (RRange (slice_range n a b).1 (slice_range n a b).2)
          end;
      rs ← resolve subs' sh';
      Ok (r :: rs)
  end.

(** Offset added by resolved subscripts, and the sizes and strides left. *)
Fixpoint sub_offset (rs : list rsub) (dims : list (nat * nat)) : nat :=
  match rs, dims with
  | r :: rs', (_, s) :: dims' =>
      match r with
      | RAll => 0
      | RAt k => k * s
      | RRange lo _ => lo * s
      end + sub_offset rs' dims'
  | _, _ => 0
  end.

Fixpoint sub_dims (rs : list rsub) (dims : list (nat * nat)) : list (nat * nat) :=
  match rs, dims with
  | r :: rs', (n, s) :: dims' =>
      match r with
      | RAll => (n, s) :: sub_dims rs' dims'
      | RAt _ => sub_dims rs' dims'
      | RRange _ len => (len, s) :: sub_dims rs' dims'
      end
  | _, _ => dims
  end.

(** The multi-index of the base array that a multi-index of the view denotes. *)
Fixpoint embed (rs : list rsub) (idx : list nat) : list nat :=
  match rs with
  | [] => idx
  | RAt k :: rs' => k :: embed rs' idx
  | RAll :: rs' =>
      match idx with i :: idx' => i :: embed rs' idx' | [] => [] end
  | RRange lo _ :: rs' =>
      match idx with i :: idx' => (lo + i) :: embed rs' idx' | [] => [] end
  end.

Definition subscript_view (subs : list subscr) (v : view) : result view :=
  rs ← resolve subs (v_shape v);
  Ok (View (v_offset v + sub_offset rs (v_dims v)) (sub_dims rs (v_dims v))).

(** ** Broadcasting

    A source of sizes [src] is stretched to the sizes [dst] by giving the
    stretched axes stride 0; axes are aligned at the right. *)

Fixpoint stretch (src : list (nat * nat)) (dst : list nat) : result (list (nat * nat)) :=
  match src, dst with
  | [], [] => Ok []
  | (n, s) :: src', m :: dst' =>
      ds ← stretch src' dst';
      if decide (n = m) then Ok ((m, s) :: ds)
      else if decide (n = 1) then Ok ((m, 0) :: ds)
      else Raise ValueError
  | _, _ => Raise ValueError
  end.

(** Leading axes of size 1 that the source has in excess are dropped. *)
Fixpoint strip_ones (k : nat) (src : list (nat * nat)) : result (list (nat * nat)) :=
  match k, src with
  | 0, _ => Ok src
  | S k', (1, _) :: src' => strip_ones k' src'
  | S _, _ => Raise ValueError
  end.

Definition broadcast_dims (src : list (nat * nat)) (dst : list nat) : result (list (nat * nat)) :=
  src' ← strip_ones (length src - length dst) src;
  stretch (replicate (length dst - length src') (1, 0) ++ src') dst.

Definition broadcast_to (v : view) (sh : list nat) : result view :=
  View (v_offset v) <$> broadcast_dims (v_dims v) sh.

(** ** Scalars, arrays and the store *)

Inductive dtype := Float32 | Float64.

(** The arithmetic of array elements.  [lit q] is the element denoting the
    decimal literal [q]; [round32] is the conversion to 32-bit precision
    performed by [astype(np.float32)]. *)
Class Scalar (A : Type) := {
  lit : Q → A;
  add : A → A → A;
  sub : A → A → A;
  mul : A → A → A;
  div : A → A → A;
  sin_ : A → A;
  round32 : A → A;
}.

(** A NumPy array: a handle on a buffer of the store. *)
Record ndarray := NdArray { base : nat; geom : view; dt : dtype }.

Definition shape (a : ndarray) : list nat := v_shape (geom a).

(** A framework tensor (the values Keras receives and returns): sizes and the
    elements in C order. *)
Record tensor (A : Type) := Tensor { tshape : list nat; tdata : list A }.
Arguments Tensor {A} tshape tdata.
Arguments tshape {A} t.
Arguments tdata {A} t.

(** The state of a run: the buffers, what freshly allocated memory holds
    ([np.empty] does not initialise it), the stream of samples that
    [np.random.rand] draws from, and the inputs [model.predict] was called
    with, oldest first. *)
Record state (A : Type) := State {
  heap : list (list A);
  uninit : nat → A;
  rng : nat → A;
  predicted : list (tensor A);
}.
Arguments State {A} heap uninit rng predicted.
Arguments heap {A} s.
Arguments uninit {A} s.
Arguments rng {A} s.
Arguments predicted {A} s.

Definition set_heap {A} (h : list (list A)) (st : state A) : state A :=
  State h (uninit st) (rng st) (predicted st).
Definition set_rng {A} (r : nat → A) (st : state A) : state A :=
  State (heap st) (uninit st) r (predicted st).
Definition log_predict {A} (x : tensor A) (st : state A) : state A :=
  State (heap st) (uninit st) (rng st) (predicted st ++ [x]).

(** Computations: state passing, with exceptions that end the run. *)
Definition M (A X : Type) : Type := state A → result (X * state A).

#[global] Instance M_ret {A} : MRet (M A) := λ X x st, Ok (x, st).
#[global] Instance M_bind {A} : MBind (M A) := λ X Y f m st,
  match m st with
  | Ok (x, st') => f x st'
  | Raise e => Raise e
  end.

Definition raise {A X} (e : exn) : M A X := λ _, Raise e.

Definition lift {A X} (r : result X) : M A X := λ st,
  match r with Ok x => Ok (x, st) | Raise e => Raise e end.

(** [for x in xs: body x] *)
Fixpoint for_each {A X} (xs : list X) (body : X → M A ()) : M A () :=
  match xs with
  | [] => mret ()
  | x :: xs' => _ ← body x; for_each xs' body
  end.

(** [[body x for x in xs]] *)
Fixpoint list_comp {A X Y} (xs : list X) (body : X → M A Y) : M A (list Y) :=
  match xs with
  | [] => mret []
  | x :: xs' => y ← body x; ys ← list_comp xs' body; mret (y :: ys)
  end.

(** Python's [range(a, b)]. *)
Definition range (a b : nat) : list nat := seq a (b - a).

Section Arrays.
Context {A : Type} `{Scalar A}.

(** Conversion of an element between dtypes: only narrowing changes it. *)
Definition convert (from to : dtype) (x : A) : A :=
  match from, to with
  | Float64, Float32 => round32 x
  | _, _ => x
  end.

(** A new buffer holding [data], and the C-order array on it. *)
Definition alloc (sh : list nat) (d : dtype) (data : list A) : M A ndarray := λ st,
  Ok (NdArray (length (heap st)) (contiguous sh) d, set_heap (heap st ++ [data]) st).

(** [np.empty(sh)] *)
Definition np_empty (sh : list nat) : M A ndarray := λ st,
  alloc sh Float64 (uninit st <$> seq 0 (numel sh)) st.

(** [np.zeros(sh)] *)
Definition np_zeros (sh : list nat) : M A ndarray :=
  alloc sh Float64 (replicate (numel sh) (lit 0)).

(** [a[subs]]: basic indexing, a view on the same buffer. *)
Definition getitem (a : ndarray) (subs : list subscr) : M A ndarray :=
  lift (g ← subscript_view subs (geom a); Ok (NdArray (base a) g (dt a))).

(** The elements a view selects from a buffer, in C order. *)
Definition gather (buf : list A) (v : view) : option (list A) :=
  mapM (λ idx, buf !! pos v idx) (ndindex (v_shape v)).

Definition read_view (b : nat) (v : view) : M A (list A) := λ st,
  match heap st !! b ≫= λ buf, gather buf v with
  | Some xs => Ok (xs, st)
  | None => Raise InvalidHandle
  end.

Definition write_all (ws : list (nat * A)) (buf : list A) : list A :=
  foldl (λ b w, <[w.1 := w.2]> b) buf ws.

(** [dst[...] = src]: the source is broadcast to the sizes of the
    destination, read in full, converted to the destination's dtype and
    stored through the destination view. *)
Definition setitem (dst src : ndarray) : M A () := λ st,
  match broadcast_to (geom src) (shape dst) with
  | Raise e => Raise e
  | Ok bsrc =>
      match read_view (base src) bsrc st with
      | Raise e => Raise e
      | Ok (xs, _) =>
          match heap st !! base dst with
          | None => Raise InvalidHandle
          | Some dbuf =>
              if fits (geom dst) (length dbuf) then
                let ws := zip (pos (geom dst) <$> ndindex (shape dst))
                              (convert (dt src) (dt dst) <$> xs) in
                Ok ((), set_heap (<[base dst := write_all ws dbuf]> (heap st)) st)
              else Raise InvalidHandle
          end
      end
  end.

Definition is_c_contiguous (v : view) : bool :=
  bool_decide (v_dims v = c_dims (v_shape v)).

(** [a.reshape(sh)].  NumPy returns a view of the same buffer where the
    strides allow it and a copy otherwise; here the view is returned for
    C-contiguous arrays, and the elements are the same in both cases. *)
Definition reshape (a : ndarray) (sh : list nat) : M A ndarray :=
  if decide (numel sh = numel (shape a)) then
    if is_c_contiguous (geom a)
    then mret (NdArray (base a) (View (v_offset (geom a)) (c_dims sh)) (dt a))
    else xs ← read_view (base a) (geom a); alloc sh (dt a) xs
  else raise ValueError.

(** The value of an array handed to the framework, and back. *)
Definition to_tensor (a : ndarray) : M A (tensor A) :=
  xs ← read_view (base a) (geom a); mret (Tensor (shape a) xs).

Definition of_tensor (d : dtype) (t : tensor A) : M A ndarray :=
  if decide (length (tdata t) = numel (tshape t))
  then alloc (tshape t) d (tdata t)
  else raise InvalidHandle.

(** The element of an array at a multi-index, in a given store. *)
Definition item (st : state A) (a : ndarray) (idx : list nat) : option A :=
  heap st !! base a ≫= λ buf, buf !! pos (geom a) idx.

(** The handle denotes an array of the store. *)
Definition valid (st : state A) (a : ndarray) : Prop :=
  ∃ buf, heap st !! base a = Some buf ∧ fits (geom a) (length buf) = true.

End Arrays.

(** ** More NumPy operations *)

Section Numpy.
Context {A : Type} `{Scalar A}.

(** Sizes of [np.concatenate(arrs, axis)]: the arrays agree on every axis
    but [axis], whose sizes add up. *)
Definition concat_shape (axis : nat) (sh0 : list nat) (shs : list (list nat)) : result (list nat) :=
  if decide (axis < length sh0) then
    if decide (Forall (λ sh, <[axis := 0]> sh = <[axis := 0]> sh0) shs)
    then Ok (<[axis := sum_list ((λ sh, sh !!! axis) <$> shs)]> sh0)
    else Raise ValueError
  else Raise ValueError.

(** The subscript [:, ..., lo:hi] that selects [lo:hi] on [axis]. *)
Definition on_axis (axis : nat) (lo hi : nat) : list subscr :=
  replicate axis All ++ [Range (Some (Z.of_nat lo)) (Some (Z.of_nat hi))].

(** Copies the arrays one after the other into [out], from position [lo]
    of [axis] on. *)
Fixpoint concat_fill (axis : nat) (out : ndarray) (lo : nat) (arrs : list ndarray) : M A () :=
  match arrs with
  | [] => mret ()
  | a :: arrs' =>
      let hi := lo + shape a !!! axis in
      dst ← getitem out (on_axis axis lo hi);
      setitem dst a;;
      concat_fill axis out hi arrs'
  end.

(** [np.concatenate(arrs, axis)]: a new array, filled part by part. *)
Definition np_concatenate (arrs : list ndarray) (axis : nat) : M A ndarray :=
  match arrs with
  | [] => raise ValueError
  | a0 :: _ =>
      sh ← lift (concat_shape axis (shape a0) (shape <$> arrs));
      out ← (λ st, alloc sh (dt a0) (uninit st <$> seq 0 (numel sh)) st);
      concat_fill axis out 0 arrs;;
      mret out
  end.

(** An element-wise function of one array: a new array. *)
Definition ufunc1 (f : A → A) (a : ndarray) : M A ndarray :=
  xs ← read_view (base a) (geom a);
  alloc (shape a) (dt a) (f <$> xs).

(** Sizes of the result of an element-wise operation on two arrays. *)
Fixpoint zip_shapes (s1 s2 : list nat) : result (list nat) :=
  match s1, s2 with
  | [], [] => Ok []
  | n :: s1', m :: s2' =>
      sh ← zip_shapes s1' s2';
      if decide (n = m) then Ok (n :: sh)
      else if decide (n = 1) then Ok (m :: sh)
      else if decide (m = 1) then Ok (n :: sh)
      else Raise ValueError
  | _, _ => Raise ValueError
  end.

Definition broadcast_shapes (s1 s2 : list nat) : result (list nat) :=
  zip_shapes (replicate (length s2 - length s1) 1 ++ s1)
             (replicate (length s1 - length s2) 1 ++ s2).

(** An element-wise function of two arrays, with broadcasting: a new array. *)
Definition ufunc2 (f : A → A → A) (a b : ndarray) : M A ndarray :=
  sh ← lift (broadcast_shapes (shape a) (shape b));
  va ← lift (broadcast_to (geom a) sh);
  vb ← lift (broadcast_to (geom b) sh);
  xs ← read_view (base a) va;
  ys ← read_view (base b) vb;
  alloc sh Float64 (zip_with f xs ys).

(** [a += b]: the sum, computed in double precision, is stored in the
    buffer of [a]. *)
Definition iadd (a b : ndarray) : M A () := λ st,
  match broadcast_to (geom b) (shape a) with
  | Raise e => Raise e
  | Ok vb =>
      match read_view (base a) (geom a) st, read_view (base b) vb st with
      | Ok (xs, _), Ok (ys, _) =>
          match heap st !! base a with
          | Some buf =>
              let ws := zip (pos (geom a) <$> ndindex (shape a))
                            (convert Float64 (dt a) <$> zip_with add xs ys) in
              Ok ((), set_heap (<[base a := write_all ws buf]> (heap st)) st)
          | None => Raise InvalidHandle
          end
      | Raise e, _ | _, Raise e => Raise e
      end
  end.

(** [np.random.rand(sh)]: the next [numel sh] samples of the stream. *)
Definition random_rand (sh : list nat) : M A ndarray := λ st,
  alloc sh Float64 (rng st <$> seq 0 (numel sh))
        (set_rng (λ i, rng st (numel sh + i)) st).

(** Element [j] of [np.linspace(0, 1, n)]: [j * step + 0] with
    [step = 1 / (n - 1)]; the last element is set to 1, and for [n = 1]
    the only element is [0 * 1 + 0]. *)
Definition linspace01_at (n j : nat) : A :=
  if decide (n - 1 = 0) then add (mul (lit (inject_Z (Z.of_nat j))) (lit 1)) (lit 0)
  else if decide (j = n - 1) then lit 1
  else add (mul (lit (inject_Z (Z.of_nat j)))
                (div (lit 1) (lit (inject_Z (Z.of_nat (n - 1)))))) (lit 0).

(** [np.linspace(0, 1, n)] *)
Definition np_linspace01 (n : nat) : M A ndarray :=
  alloc [n] Float64 (linspace01_at n <$> seq 0 n).

(** [np.repeat(a, reps, axis)]: element [idx] of the result is the element
    of [a] at [idx] with the coordinate on [axis] divided by [reps]. *)
Definition np_repeat (a : ndarray) (reps axis : nat) : M A ndarray :=
  if decide (axis < length (shape a)) then
    let sh := <[axis := (shape a !!! axis) * reps]> (shape a) in
    λ st,
      match heap st !! base a ≫= λ buf,
            mapM (λ idx, buf !! pos (geom a) (<[axis := (idx !!! axis) / reps]> idx))
                 (ndindex sh) with
      | Some xs => alloc sh (dt a) xs st
      | None => Raise InvalidHandle
      end
  else raise IndexError.

(** [a.astype(d)]: a new array of dtype [d]. *)
Definition astype (a : ndarray) (d : dtype) : M A ndarray :=
  xs ← read_view (base a) (geom a);
  alloc (shape a) d (convert (dt a) d <$> xs).

(** *** Tensor operations of the framework *)

Definition tensor_getitem (t : tensor A) (subs : list subscr) : result (tensor A) :=
  v ← subscript_view subs (contiguous (tshape t));
  xs ← of_option InvalidHandle (gather (tdata t) v);
  Ok (Tensor (v_shape v) xs).

Definition tensor_map2 (f : A → A → A) (a b : tensor A) : result (tensor A) :=
  sh ← broadcast_shapes (tshape a) (tshape b);
  va ← broadcast_to (contiguous (tshape a)) sh;
  vb ← broadcast_to (contiguous (tshape b)) sh;
  xs ← of_option InvalidHandle (gather (tdata a) va);
  ys ← of_option InvalidHandle (gather (tdata b) vb);
  Ok (Tensor sh (zip_with f xs ys)).

Definition total (xs : list A) : A := foldl add (lit 0) xs.

Definition mean (xs : list A) : A :=
  div (total xs) (lit (inject_Z (Z.of_nat (length xs)))).

(** [k] consecutive blocks of [d] elements. *)
Fixpoint chunks (k d : nat) (xs : list A) : list (list A) :=
  match k with
  | 0 => []
  | S k' => take d xs :: chunks k' d (drop d xs)
  end.

(** [K.mean(t, axis=-1)] *)
Definition mean_last_axis (t : tensor A) : result (tensor A) :=
  match last (tshape t) with
  | None => Raise ValueError
  | Some d =>
      let sh := take (length (tshape t) - 1) (tshape t) in
      Ok (Tensor sh (mean <$> chunks (numel sh) d (tdata t)))
  end.

Definition squared_difference (x y : A) : A := mul (sub x y) (sub x y).

(** [keras.losses.mean_squared_error(y_true, y_pred)] (also
    [keras.metrics.mean_squared_error]): the mean over the last axis of
    the squared differences. *)
Definition mean_squared_error (y_true y_pred : tensor A) : result (tensor A) :=
  d ← tensor_map2 squared_difference y_pred y_true;
  mean_last_axis d.

(** [np.mean(t)] *)
Definition np_mean (t : tensor A) : A := mean (tdata t).

(** [np.mean(keras.losses.mean_squared_error(y_true, y_pred))] on arrays. *)
Definition mse_loss (y_true y_pred : ndarray) : M A A :=
  t ← to_tensor y_true;
  p ← to_tensor y_pred;
  l ← lift (mean_squared_error t p);
  mret (np_mean l).

End Numpy.

(** ** The framework (Keras), a black box

    Layers and training options are data; what fitting and predicting
    compute is left open: an instance of [Keras] is any framework. *)

Inductive cell := SimpleRNN | LSTM | GRU.

Inductive layer :=
  | Recurrent (c : cell) (units : nat) (return_sequences : bool)
  | Dense (units : nat)
  | InputLayer
  | Conv1D (filters kernel_size dilation_rate : nat) (causal relu : bool).

Inductive optimizer :=
  | adam                 (* optimizer="adam" *)
  | Adam (lr : Q).       (* keras.optimizers.Adam(lr=...) *)

Record training := Training {
  layers : list layer;
  opt : optimizer;
  last_step_metric : bool;   (* metrics=[last_time_step_mse] *)
  epochs : nat;
}.

Class Keras (A : Type) := {
  model : Type;
  history : Type;
  fit : training → tensor A → tensor A → option (tensor A * tensor A) → result (model * history);
  predict : model → tensor A → result (tensor A);
}.

(** ** The script *)

Record constants := Constants {
  N_STEPS : nat;
  INITIAL_BATCH_SIZE : nat;
  N_PREDICTIONS : nat;
  N_FEATURES : nat;
  TRAINING_BATCH_SIZE : nat;
  VALIDATION_BATCH_SIZE : nat;
  TESTING_BATCH_SIZE : nat;
  N_EPOCHS : nat;
}.

(** [N_STEPS - N_PREDICTIONS].  In the script the difference is 150; for
    other constants it is the difference of Python only where
    [N_PREDICTIONS c ≤ N_STEPS c] (a negative count would make [np.empty]
    raise and [:N_INPUT_STEPS] slice from the end), and the statements
    about other constants assume that much. *)
Definition N_INPUT_STEPS (c : constants) : nat := N_STEPS c - N_PREDICTIONS c.

(** The constants of the script. *)
Definition script : constants :=
  {| N_STEPS := 200; INITIAL_BATCH_SIZE := 1350; N_PREDICTIONS := 50; N_FEATURES := 2;
     TRAINING_BATCH_SIZE := 900; VALIDATION_BATCH_SIZE := 300; TESTING_BATCH_SIZE := 150;
     N_EPOCHS := 20 |}.

Definition indices (c : constants) : nat * nat :=
  (TRAINING_BATCH_SIZE c, TRAINING_BATCH_SIZE c + VALIDATION_BATCH_SIZE c).

Section Script.
Context {A : Type} `{Scalar A} `{Keras A}.
Variable c : constants.

Local Abbreviation n := (N_INPUT_STEPS c).
Local Abbreviation m := (N_PREDICTIONS c).

Definition generate_time_series (batch_size n_steps : nat) : M A ndarray :=
  r ← random_rand [4; batch_size; 1];
  freq1 ← getitem r [At 0];
  freq2 ← getitem r [At 1];
  offsets1 ← getitem r [At 2];
  offsets2 ← getitem r [At 3];
  time ← np_linspace01 n_steps;
  (* series = 0.5 * np.sin((time - offsets1) * (freq1 * 10 + 10)) *)
  d1 ← ufunc2 sub time offsets1;
  f1 ← ufunc1 (λ x, mul x (lit 10)) freq1;
  f1 ← ufunc1 (λ x, add x (lit 10)) f1;
  a1 ← ufunc2 mul d1 f1;
  s1 ← ufunc1 sin_ a1;
  series ← ufunc1 (λ x, mul (lit 0.5) x) s1;
  (* series += 0.2 * np.sin((time - offsets2) * (freq2 * 20 + 20)) *)
  d2 ← ufunc2 sub time offsets2;
  f2 ← ufunc1 (λ x, mul x (lit 20)) freq2;
  f2 ← ufunc1 (λ x, add x (lit 20)) f2;
  a2 ← ufunc2 mul d2 f2;
  s2 ← ufunc1 sin_ a2;
  w2 ← ufunc1 (λ x, mul (lit 0.2) x) s2;
  iadd series w2;;
  (* series += 0.1 * (np.random.rand(batch_size, n_steps) - 0.5) *)
  u ← random_rand [batch_size; n_steps];
  u ← ufunc1 (λ x, sub x (lit 0.5)) u;
  noise ← ufunc1 (λ x, mul (lit 0.1) x) u;
  iadd series noise;;
  series ← reshape series [batch_size; n_steps; 1];
  series ← np_repeat series (N_FEATURES c) 2;
  astype series Float32.

Definition last_time_step_mse (y_true y_pred : tensor A) : result (tensor A) :=
  t ← tensor_getitem y_true [All; At (-1)];
  p ← tensor_getitem y_pred [All; At (-1)];
  mean_squared_error t p.

Definition get_sequence_to_vector_rnn_model (output_shape : nat) : list layer :=
  [Recurrent SimpleRNN 20 true; Recurrent SimpleRNN 20 false; Dense output_shape].

(** Lines 83 to 86 of [get_sequence_to_sequence_data]: the four-dimensional
    array [Y], before it is reshaped. *)
Definition sequence_targets (series : ndarray) : M A ndarray :=
  Y ← np_empty [INITIAL_BATCH_SIZE c; n; m; N_FEATURES c];
  for_each (range 1 (m + 1)) (λ step_ahead,
    src ← getitem series
            [All; Range (Some (Z.of_nat step_ahead)) (Some (Z.of_nat (step_ahead + n))); All];
    dst ← getitem Y [All; All; At (Z.of_nat step_ahead - 1); All];
    setitem dst src);;
  mret Y.

Definition get_sequence_to_sequence_data (series : ndarray) : M A ndarray :=
  Y ← sequence_targets series;
  reshape Y [INITIAL_BATCH_SIZE c; n; m * N_FEATURES c].

Definition get_sequence_to_sequence_rnn_model (output_shape : nat) (layer_type : cell)
  : list layer :=
  [Recurrent layer_type 20 true; Recurrent layer_type 20 true; Dense output_shape].

(** [model.fit(x, y, epochs=N_EPOCHS, validation_data=..., verbose=0)]
    after [model.compile]. *)
Definition model_fit (t : training) (x y : ndarray) (validation : option (ndarray * ndarray))
  : M A (model * history) :=
  tx ← to_tensor x;
  ty ← to_tensor y;
  tv ← match validation with
       | Some (vx, vy) => a ← to_tensor vx; b ← to_tensor vy; mret (Some (a, b))
       | None => mret None
       end;
  lift (fit t tx ty tv).

(** [model.predict(x, batch_size)]: a new array. *)
Definition model_predict (md : model) (x : ndarray) : M A ndarray :=
  tx ← to_tensor x;
  (λ st, Ok ((), log_predict tx st));;
  out ← lift (predict md tx);
  of_tensor Float32 out.

Definition train_sequence_to_sequence_rnn_model (ls : list layer)
    (x_train y_train x_valid y_valid : ndarray) : M A (model * history) :=
  model_fit (Training ls (Adam 0.01) true (N_EPOCHS c)) x_train y_train
            (Some (x_valid, y_valid)).

(** Line 122: the naive prediction. *)
Definition naive_prediction (x_valid : ndarray) : M A ndarray :=
  parts ← list_comp (range 0 m) (λ _,
    l ← getitem x_valid [All; At (-1)];
    reshape l [VALIDATION_BATCH_SIZE c; 1; N_FEATURES c]);
  np_concatenate parts 1.

Definition naive_forecasting (x_valid y_valid : ndarray) : M A (A * ndarray) :=
  y_pred ← naive_prediction x_valid;
  loss ← mse_loss y_valid y_pred;
  mret (loss, y_pred).

Definition rnn_iterative_forecasting (x_train y_train x_valid y_valid : ndarray)
  : M A (A * ndarray) :=
  y_train ← getitem y_train [All; At 0];
  '(md, _) ← model_fit (Training (get_sequence_to_vector_rnn_model (N_FEATURES c))
                                 adam false (N_EPOCHS c)) x_train y_train None;
  full_sequence ← np_zeros [VALIDATION_BATCH_SIZE c; N_STEPS c; N_FEATURES c];
  src ← getitem x_valid [All; All; All];
  dst ← getitem full_sequence [All; Range None (Some (Z.of_nat n)); All];
  setitem dst src;;
  for_each (range 0 m) (λ step,
    let offset := n + step in
    x ← getitem full_sequence
          [All; Range (Some (Z.of_nat step)) (Some (Z.of_nat offset)); All];
    data_out ← model_predict md x;
    data_out ← reshape data_out [VALIDATION_BATCH_SIZE c; N_FEATURES c];
    dst ← getitem full_sequence [All; At (Z.of_nat offset); All];
    setitem dst data_out);;
  y_pred ← getitem full_sequence [All; Range (Some (- Z.of_nat m)%Z) None; All];
  loss ← mse_loss y_valid y_pred;
  mret (loss, y_pred).

(** The body shared by the four sequence-to-sequence strategies, which
    differ in the layers of the model only. *)
Definition sequence_forecasting (ls : list layer) (x_train x_valid series : ndarray)
    (indices : nat * nat) : M A (history * ndarray) :=
  Y ← get_sequence_to_sequence_data series;
  y_train ← getitem Y [Range None (Some (Z.of_nat indices.1))];
  y_valid ← getitem Y [Range (Some (Z.of_nat indices.1)) (Some (Z.of_nat indices.2))];
  '(md, training_history) ←
    train_sequence_to_sequence_rnn_model ls x_train y_train x_valid y_valid;
  y_pred ← model_predict md x_valid;
  y_pred ← reshape y_pred [VALIDATION_BATCH_SIZE c; n; m; N_FEATURES c];
  y_pred ← getitem y_pred [All; At (-1)];
  mret (training_history, y_pred).

Definition rnn_sequence_forecasting :=
  sequence_forecasting (get_sequence_to_sequence_rnn_model (m * N_FEATURES c) SimpleRNN).

Definition rnn_lstm_sequence_forecasting :=
  sequence_forecasting (get_sequence_to_sequence_rnn_model (m * N_FEATURES c) LSTM).

Definition rnn_gru_sequence_forecasting :=
  sequence_forecasting (get_sequence_to_sequence_rnn_model (m * N_FEATURES c) GRU).

Definition cnn_vector_forecasting :=
  sequence_forecasting
    ([InputLayer]
     ++ ((λ rate, Conv1D (m * 2) 2 rate true true) <$> [1; 2; 4; 8; 1; 2; 4; 8])
     ++ [Conv1D (m * N_FEATURES c) 1 1 false false]).

(** Lines 305 to 307: the three partitions of the series, each an input
    window and a target window. *)
Definition partition (series : ndarray) : M A (list (ndarray * ndarray)) :=
  let i0 := Some (Z.of_nat (indices c).1) in
  let i1 := Some (Z.of_nat (indices c).2) in
  let head := Range None (Some (Z.of_nat n)) in
  let tail := Range (Some (- Z.of_nat m)%Z) None in
  x_train ← getitem series [Range None i0; head];
  y_train ← getitem series [Range None i0; tail];
  x_valid ← getitem series [Range i0 i1; head];
  y_valid ← getitem series [Range i0 i1; tail];
  x_test ← getitem series [Range i1 None; head];
  y_test ← getitem series [Range i1 None; tail];
  mret [(x_train, y_train); (x_valid, y_valid); (x_test, y_test)].

End Script.

(** ** The strategy that predicts all the steps at once

    [linear_regression_forecasting] has the same body with a [Flatten] and a
    [Dense] layer in place of the recurrent model; the layers above have no
    [Flatten], and that function is not embedded. *)

Section VectorStrategy.
Context {A : Type} `{Scalar A} `{Keras A}.
Variable c : constants.

Definition rnn_vector_forecasting (x_train y_train x_valid y_valid : ndarray)
  : M A (history * ndarray) :=
  y_train ← reshape y_train [TRAINING_BATCH_SIZE c; N_PREDICTIONS c * N_FEATURES c];
  y_valid ← reshape y_valid [VALIDATION_BATCH_SIZE c; N_PREDICTIONS c * N_FEATURES c];
  '(md, training_history) ←
    model_fit (Training (get_sequence_to_vector_rnn_model (N_PREDICTIONS c * N_FEATURES c))
                        adam false (N_EPOCHS c))
              x_train y_train (Some (x_valid, y_valid));
  y_pred ← model_predict md x_valid;
  y_pred ← reshape y_pred [VALIDATION_BATCH_SIZE c; N_PREDICTIONS c; N_FEATURES c];
  mret (training_history, y_pred).

End VectorStrategy.

(** ** The plotter

    The figure of a [Plotter] is the list of the curves plotted on its axes,
    oldest first; [legend] is the list of the labels. *)

Record plotter (A : Type) := Plotter {
  fig : list (list A);
  xticks : list nat;
  legend : list string;
  n_predictions : nat;
  TARGET_FEATURE : Z;
}.
Arguments Plotter {A} fig xticks legend n_predictions TARGET_FEATURE.
Arguments fig {A} p.
Arguments xticks {A} p.
Arguments legend {A} p.
Arguments n_predictions {A} p.
Arguments TARGET_FEATURE {A} p.

(** [Plotter(n_predictions)] *)
Definition Plotter_init {A} (n_predictions : nat) : plotter A :=
  {| fig := []; xticks := range 1 n_predictions; legend := [];
     n_predictions := n_predictions; TARGET_FEATURE := 0 |}.

Section Plotting.
Context {A : Type} `{Scalar A}.

(** [self.plot(y_data, name, batch_size, batch_id)]; the script leaves
    [batch_id] at its default, 0. *)
Definition plot (self : plotter A) (y_data : ndarray) (name : string)
    (batch_size : nat) (batch_id : Z) : M A (plotter A) :=
  y_data ← getitem y_data [All; All; At (TARGET_FEATURE self)];
  r ← reshape y_data [batch_size; n_predictions self];
  plot_data ← getitem r [At batch_id];
  line ← read_view (base plot_data) (geom plot_data);
  mret {| fig := fig self ++ [line]; xticks := xticks self;
          legend := legend self ++ [name];
          n_predictions := n_predictions self; TARGET_FEATURE := TARGET_FEATURE self |}.

(** [self.show()]: [fig.legend(self.legend)] gives the labels to the curves
    in the order in which they were plotted. *)
Definition show (self : plotter A) : list (string * list A) :=
  zip (legend self) (fig self).

End Plotting.

(** ** Exact real arithmetic as the scalars

    The elements are real numbers and the arithmetic is exact; [rnd] is the
    rounding to 32-bit precision. *)

Definition R_scalar (rnd : R → R) : Scalar R :=
  {| lit := Q2R; add := Rplus; sub := Rminus; mul := Rmult; div := Rdiv;
     sin_ := sin; round32 := rnd |}.

(** A framework whose models answer every request with zeros of the sizes
    [out]. *)
Definition constant_keras (out : list nat) : Keras R :=
  {| model := (); history := ();
     fit := λ _ _ _ _, Ok ((), ());
     predict := λ _ _, Ok (Tensor out (replicate (numel out) 0%R)) |}.

(** ** Small instances, for examples *)

(** Four steps, of which the last two are predicted; two rows, one feature. *)
Definition small : constants :=
  {| N_STEPS := 4; INITIAL_BATCH_SIZE := 2; N_PREDICTIONS := 2; N_FEATURES := 1;
     TRAINING_BATCH_SIZE := 1; VALIDATION_BATCH_SIZE := 1; TESTING_BATCH_SIZE := 0;
     N_EPOCHS := 1 |}.

(** A store with one buffer: a series of two rows of four steps. *)
Definition small_state : state R :=
  State [[1; 2; 3; 4; 5; 6; 7; 8]%R] (λ _, 0%R) (λ _, 0%R) [].

Definition small_series : ndarray := NdArray 0 (contiguous [2; 4; 1]) Float32.

(** ** Predicates used in the statements *)

(** Resolved subscripts that stay inside the axes they select from. *)
Inductive rsubs_ok : list rsub → list nat → Prop :=
  | rsubs_nil sh : rsubs_ok [] sh
  | rsubs_all rs k sh : rsubs_ok rs sh → rsubs_ok (RAll :: rs) (k :: sh)
  | rsubs_at rs i k sh : i < k → rsubs_ok rs sh → rsubs_ok (RAt i :: rs) (k :: sh)
  | rsubs_range rs lo len k sh :
      lo + len ≤ k → rsubs_ok rs sh → rsubs_ok (RRange lo len :: rs) (k :: sh).

(** A view whose elements lie at pairwise different positions. *)
Definition no_overlap (v : view) : Prop :=
  ∀ idx idx', in_range idx (v_shape v) → in_range idx' (v_shape v) →
    pos v idx = pos v idx' → idx = idx'.

(** The array [Y] of [get_sequence_to_sequence_data], on the buffer [l]. *)
Definition targets_array (c : constants) (l : nat) : ndarray :=
  NdArray l (contiguous [INITIAL_BATCH_SIZE c; N_INPUT_STEPS c; N_PREDICTIONS c; N_FEATURES c])
          Float64.

(** An array of sizes (vb, 1, f) of the store [σ] that holds the last of the
    [s] steps of [x], of which [xbuf] is the buffer. *)
Definition last_step_copy {A} (σ : list (list A)) (xbuf : list A) (x : ndarray)
    (vb s f : nat) (p : ndarray) : Prop :=
  ∃ pbuf, σ !! base p = Some pbuf
    ∧ fits (geom p) (length pbuf) = true
    ∧ shape p = [vb; 1; f]
    ∧ dt p = dt x
    ∧ ∀ i j, i < vb → j < f →
        pbuf !! pos (geom p) [i; 0; j] = xbuf !! pos (geom x) [i; s - 1; j].

(** The elements of an array of the store, in C order. *)
Definition values {A} (st : state A) (a : ndarray) : option (list A) :=
  heap st !! base a ≫= λ buf, gather buf (geom a).


(** The array [a] of the store has the sizes [sh] and holds [g idx] at every
    multi-index [idx]. *)
Definition holds {A} (st : state A) (a : ndarray) (sh : list nat) (g : list nat → A) : Prop :=
  ∃ buf, heap st !! base a = Some buf
    ∧ fits (geom a) (length buf) = true
    ∧ shape a = sh
    ∧ ∀ idx, in_range idx sh → buf !! pos (geom a) idx = Some (g idx).

(** The array [a] is a C-order array that fills its buffer. *)
Definition fresh {A} (st : state A) (a : ndarray) (sh : list nat) : Prop :=
  geom a = contiguous sh ∧ ∃ buf, heap st !! base a = Some buf ∧ length buf = numel sh.

(** Every buffer of [st] is a buffer of [st'], unchanged. *)
Definition extends {A} (st st' : state A) : Prop :=
  ∀ l buf, heap st !! l = Some buf → heap st' !! l = Some buf.

(** The multi-index of an operand of sizes [sh] that a multi-index of the
    broadcast result reads: leading axes are dropped and axes of size 1 are
    read at 0. *)
Definition bindex (sh idx : list nat) : list nat :=
  zip_with (λ k i, if decide (k = 1) then 0 else i) sh (drop (length idx - length sh) idx).

(** The series, element by element, for a batch of [b] rows of [s] steps,
    from the samples [u] that [np.random.rand] draws: the first [4 * b]
    samples are the two frequencies and the two offsets of the rows, the
    next [b * s] ones the noise. *)

Section Waveform.
Context {A : Type} `{Scalar A}.
Variables (u : nat → A) (b s : nat).

(** [np.linspace(0, 1, s)] at step [j]. *)
Definition time_at (j : nat) : A := linspace01_at s j.

(** [freq1 * 10 + 10] and [freq2 * 20 + 20] of row [i]. *)
Definition frequency1 (i : nat) : A := add (mul (u i) (lit 10)) (lit 10).
Definition frequency2 (i : nat) : A := add (mul (u (b + i)) (lit 20)) (lit 20).

Definition wave1 (i j : nat) : A :=
  mul (lit 0.5) (sin_ (mul (sub (time_at j) (u (2 * b + i))) (frequency1 i))).
Definition wave2 (i j : nat) : A :=
  mul (lit 0.2) (sin_ (mul (sub (time_at j) (u (3 * b + i))) (frequency2 i))).
Definition noise_at (i j : nat) : A :=
  mul (lit 0.1) (sub (u (4 * b + (i * s + j))) (lit 0.5)).

(** The value of the series at row [i] and step [j]. *)
Definition waveform (i j : nat) : A := add (add (wave1 i j) (wave2 i j)) (noise_at i j).
End Waveform.

(** The state of [rnn_iterative_forecasting] after [k] iterations of its
    loop, started in a store [σ] with the log [log]: the buffer [fbuf] of
    [full_sequence] follows [σ] and is followed by the outputs of the model;
    its first [n] steps are those of [x_valid]; the model was called [k]
    times, the call [s] on the steps [s, n+s) of the sequence, and its
    output is step [n+s] of the sequence. *)
Definition accumulated {A} `{Keras A} (c : constants) (md : model) (σ : list (list A))
    (log : list (tensor A)) (xbuf : list A) (x_valid : ndarray) (k : nat)
    (st' : state A) : Prop :=
  let sizes := [VALIDATION_BATCH_SIZE c; N_STEPS c; N_FEATURES c] in
  let window := [VALIDATION_BATCH_SIZE c; N_INPUT_STEPS c; N_FEATURES c] in
  ∃ fbuf outs inputs,
    heap st' = (σ ++ [fbuf]) ++ outs
    ∧ length fbuf = numel sizes
    ∧ predicted st' = log ++ inputs
    ∧ length inputs = k
    ∧ (∀ i t f, i < VALIDATION_BATCH_SIZE c → t < N_INPUT_STEPS c → f < N_FEATURES c →
         fbuf !! pos (contiguous sizes) [i; t; f] = xbuf !! pos (geom x_valid) [i; t; f])
    ∧ ∀ s, s < k →
        ∃ x_s out_s,
          inputs !! s = Some x_s
          ∧ tshape x_s = window
          ∧ (∀ i t f, i < VALIDATION_BATCH_SIZE c → t < N_INPUT_STEPS c → f < N_FEATURES c →
               tdata x_s !! dot [i; t; f] (c_dims window)
               = fbuf !! pos (contiguous sizes) [i; s + t; f])
          ∧ predict md x_s = Ok out_s
          ∧ ∀ i f, i < VALIDATION_BATCH_SIZE c → f < N_FEATURES c →
              fbuf !! pos (contiguous sizes) [i; N_INPUT_STEPS c + s; f]
              = tdata out_s !! dot [i; f] (c_dims [VALIDATION_BATCH_SIZE c; N_FEATURES c]).

(** * A logic of runs

    [returns m st Q]: from the state [st] the computation [m] ends without
    an exception, with a value and a state that satisfy [Q].
    [raises m st e]: it ends with the exception [e]. *)

Definition returns {A X} (m : M A X) (st : state A) (Q : X → state A → Prop) : Prop :=
  ∃ x st', m st = Ok (x, st') ∧ Q x st'.

Definition raises {A X} (m : M A X) (st : state A) (e : exn) : Prop :=
  m st = Raise e.

(** [ensures m st Q]: if [m] returns from the state [st], the value and the
    state it returns satisfy [Q]. *)
Definition ensures {A X} (m : M A X) (st : state A) (Q : X → state A → Prop) : Prop :=
  ∀ x st', m st = Ok (x, st') → Q x st'.

(** The buffer of the array [a] is not one of the buffers [σ]. *)
Definition outside {A} (σ : list (list A)) (a : ndarray) : Prop := length σ ≤ base a.

(** From [st] to [st'] exactly [k] samples were drawn from the stream of
    [np.random.rand], and the model was not called. *)
Definition draws {A} (k : nat) (st st' : state A) : Prop :=
  (∀ i, rng st' i = rng st (k + i)) ∧ predicted st' = predicted st.

(** * Properties of the array layer *)

(** ** Multi-indices *)

Lemma in_range_length idx sh : in_range idx sh → length idx = length sh.
Proof. apply Forall2_length. Qed.

Lemma elem_of_ndindex sh idx : idx ∈ ndindex sh ↔ in_range idx sh.
Proof.
  revert idx. induction sh as [|k sh IH]; intros idx; simpl.
  - rewrite list_elem_of_singleton. split.
    + intros ->. constructor.
    + intros Hr. by inversion Hr.
  - rewrite list_elem_of_bind. split.
    + intros (i & Hin & Hi). apply list_elem_of_fmap in Hin as (idx' & -> & Hin).
      apply elem_of_seq in Hi. constructor; [lia | by apply IH].
    + intros Hr. apply Forall2_cons_inv_r in Hr as (i & idx' & Hlt & Hr' & ->).
      exists i. split; [| apply elem_of_seq; lia].
      apply list_elem_of_fmap. exists idx'. split; [done | by apply IH].
Qed.

Lemma ndindex_blocks sh a k :
  (seq a k ≫= λ i, cons i <$> ndindex sh)
  = concat ((λ i, cons i <$> ndindex sh) <$> seq a k).
Proof.
  revert a. induction k as [|k IH]; intros a; simpl; [done |].
  by rewrite <- IH.
Qed.

Lemma length_ndindex sh : length (ndindex sh) = numel sh.
Proof.
  induction sh as [|k sh IH]; simpl; [done |].
  generalize 0 as a. induction k as [|k IHk]; intros a; simpl; [done |].
  rewrite length_app, length_fmap, IH, IHk. done.
Qed.

Lemma dot_c_dims_lt idx sh : in_range idx sh → dot idx (c_dims sh) < numel sh.
Proof.
  intros Hr. induction Hr as [|i k idx sh Hlt Hr IH]; simpl; [lia |].
  change (foldr Nat.mul 1 sh) with (numel sh). nia.
Qed.

Lemma ndindex_lookup_block sh a k i p idx :
  i < k → ndindex sh !! p = Some idx →
  (seq a k ≫= λ j, cons j <$> ndindex sh) !! (i * numel sh + p) = Some ((a + i) :: idx).
Proof.
  intros Hi Hp.
  assert (p < numel sh) as Hlt.
  { rewrite <- length_ndindex. by eapply lookup_lt_Some. }
  revert a i Hi. induction k as [|k IH]; intros a i Hi; [lia |].
  simpl. destruct i as [|i].
  - rewrite lookup_app_l by (rewrite length_fmap, length_ndindex; lia).
    rewrite list_lookup_fmap. simpl. rewrite Hp. simpl. do 2 f_equal. lia.
  - rewrite lookup_app_r by (rewrite length_fmap, length_ndindex; simpl; lia).
    rewrite length_fmap, length_ndindex.
    replace (S i * numel sh + p - numel sh) with (i * numel sh + p) by (simpl; lia).
    rewrite IH by lia. do 2 f_equal. lia.
Qed.

(** The multi-index at C-order position [dot idx (c_dims sh)] is [idx]. *)
Lemma ndindex_lookup sh idx :
  in_range idx sh → ndindex sh !! dot idx (c_dims sh) = Some idx.
Proof.
  intros Hr. induction Hr as [|i k idx sh Hlt Hr IH]; simpl; [done |].
  change (foldr Nat.mul 1 sh) with (numel sh).
  by rewrite (ndindex_lookup_block sh 0 k i _ idx).
Qed.

Lemma dot_c_dims_inj sh idx idx' :
  in_range idx sh → in_range idx' sh →
  dot idx (c_dims sh) = dot idx' (c_dims sh) → idx = idx'.
Proof.
  intros H1 H2 Heq. apply ndindex_lookup in H1, H2. congruence.
Qed.

(** Conversely, the multi-index found at a position determines the position. *)
Lemma ndindex_lookup_inv sh p idx :
  ndindex sh !! p = Some idx → in_range idx sh ∧ p = dot idx (c_dims sh).
Proof.
  intros Hp.
  assert (in_range idx sh) as Hr.
  { apply elem_of_ndindex. by eapply list_elem_of_lookup_2. }
  split; [done |]. revert idx Hr p Hp.
  induction sh as [|k sh IH]; intros idx Hr p Hp; simpl in *.
  - destruct p; [by inversion Hr | done].
  - apply Forall2_cons_inv_r in Hr as (i & idx' & Hlt & Hr' & ->). simpl.
    change (foldr Nat.mul 1 sh) with (numel sh).
    assert (p < k * numel sh) as Hpk.
    { apply lookup_lt_Some in Hp. revert Hp.
      change (seq 0 k ≫= λ i, cons i <$> ndindex sh) with (ndindex (k :: sh)).
      rewrite length_ndindex. simpl. done. }
    assert (0 < numel sh) as Hpos by (destruct (numel sh); lia).
    pose proof (Nat.div_mod_eq p (numel sh)) as Hdm.
    pose proof (Nat.mod_upper_bound p (numel sh) ltac:(lia)) as Hmod.
    assert (p / numel sh < k) as Hdiv by (apply Nat.Div0.div_lt_upper_bound; lia).
    destruct (lookup_lt_is_Some_2 (ndindex sh) (p `mod` numel sh)) as [idx'' Hq].
    { rewrite length_ndindex. done. }
    pose proof (ndindex_lookup_block sh 0 k _ _ _ Hdiv Hq) as Hb.
    replace (p / numel sh * numel sh + p `mod` numel sh) with p in Hb by lia.
    rewrite Hp in Hb.
    assert (idx'' = idx' ∧ 0 + p / numel sh = i) as [-> Hi] by (split; congruence).
    rewrite <- (IH idx' Hr' _ Hq). lia.
Qed.

Lemma NoDup_ndindex sh : NoDup (ndindex sh).
Proof.
  apply NoDup_alt. intros i j idx Hi Hj.
  apply ndindex_lookup_inv in Hi as [_ ->], Hj as [_ ->]. done.
Qed.

(** ** Views inside their buffer *)

Lemma in_range_numel_pos idx sh : in_range idx sh → 0 < numel sh.
Proof.
  intros Hr. induction Hr as [|i k idx sh Hlt Hr IH]; simpl; [lia |].
  change (foldr Nat.mul 1 sh) with (numel sh). nia.
Qed.

Lemma dot_le_span idx dims : in_range idx (fst <$> dims) → dot idx dims ≤ span dims.
Proof.
  revert idx. induction dims as [|[k s] dims IH]; intros idx Hr.
  - by destruct idx.
  - apply Forall2_cons_inv_r in Hr as (i & idx' & Hlt & Hr' & ->). simpl in *.
    specialize (IH _ Hr'). nia.
Qed.

Lemma in_range_pred sh : numel sh ≠ 0 → in_range (Nat.pred <$> sh) sh.
Proof.
  induction sh as [|k sh IH]; simpl; intros Hne; [constructor |].
  change (foldr Nat.mul 1 sh) with (numel sh) in Hne.
  constructor; [nia | apply IH; nia].
Qed.

Lemma dot_pred_span dims : dot (Nat.pred <$> (fst <$> dims)) dims = span dims.
Proof.
  induction dims as [|[k s] dims IH]; [done |].
  rewrite !fmap_cons. cbn [dot span fst]. rewrite IH. f_equal. f_equal. lia.
Qed.

Lemma fits_spec v len :
  fits v len = true ↔ ∀ idx, in_range idx (v_shape v) → pos v idx < len.
Proof.
  unfold fits, pos, v_shape. rewrite bool_decide_eq_true. split.
  - intros [Hz | Hlt] idx Hr.
    + apply in_range_numel_pos in Hr. lia.
    + apply dot_le_span in Hr. lia.
  - intros Hall. destruct (decide (numel (fst <$> v_dims v) = 0)) as [|Hne]; [by left | right].
    specialize (Hall _ (in_range_pred _ Hne)). by rewrite dot_pred_span in Hall.
Qed.

Lemma fits_pos v len idx :
  fits v len = true → in_range idx (v_shape v) → pos v idx < len.
Proof. intros Hf. by apply fits_spec. Qed.

Lemma shape_c_dims sh : fst <$> c_dims sh = sh.
Proof. induction sh as [|k sh IH]; [done |]. cbn [c_dims]. by rewrite fmap_cons, IH. Qed.

Lemma fits_contiguous sh len : numel sh ≤ len → fits (contiguous sh) len = true.
Proof.
  intros Hle. apply fits_spec. intros idx Hr.
  unfold pos, contiguous, v_shape in *. cbn [v_dims v_offset] in *.
  rewrite shape_c_dims in Hr. apply dot_c_dims_lt in Hr. lia.
Qed.

(** ** Subscripts *)


Lemma norm_index_lt k i j : norm_index k i = Ok j → j < k.
Proof. unfold norm_index. repeat case_decide; intros; simplify_eq; lia. Qed.

Lemma slice_range_le k a b lo len : slice_range k a b = (lo, len) → lo + len ≤ k.
Proof.
  unfold slice_range, clamp_bound. intros Heq. simplify_eq.
  destruct a as [a|], b as [b|]; simpl; repeat case_decide; lia.
Qed.

Lemma resolve_ok subs sh rs : resolve subs sh = Ok rs → rsubs_ok rs sh.
Proof.
  revert sh rs. induction subs as [|s subs IH]; intros sh rs Hres; simpl in Hres.
  - simplify_eq. constructor.
  - destruct sh as [|k sh]; [done |].
    destruct (resolve subs sh) as [rs'|] eqn:Hrs.
    2:{ destruct s as [|i|a b]; simpl in Hres;
        [done | by destruct (norm_index k i) | done]. }
    specialize (IH _ _ Hrs).
    destruct s as [|i|a b]; simpl in Hres.
    + simplify_eq. by constructor.
    + destruct (norm_index k i) as [j|] eqn:Hj; simpl in Hres; [|done].
      simplify_eq. constructor; [by eapply norm_index_lt | done].
    + simplify_eq. constructor; [| done].
      eapply slice_range_le. by destruct (slice_range k a b).
Qed.

(** An element of a view is the element of the base array at the embedded
    multi-index. *)
Lemma embed_spec rs dims idx :
  rsubs_ok rs (fst <$> dims) → in_range idx (fst <$> sub_dims rs dims) →
  in_range (embed rs idx) (fst <$> dims)
  ∧ dot (embed rs idx) dims = sub_offset rs dims + dot idx (sub_dims rs dims).
Proof.
  revert dims idx. induction rs as [|r rs IH]; intros dims idx Hok Hr.
  - simpl in *. split; [by destruct dims | by destruct dims as [|[]]].
  - destruct dims as [|[k s] dims]; [inversion Hok |].
    inversion Hok as [| ? ? ? Hok' | ? ? ? ? Hi Hok' | ? ? ? ? ? Hle Hok']; subst; simpl in *.
    + apply Forall2_cons_inv_r in Hr as (i & idx' & Hlt & Hr' & ->).
      destruct (IH _ _ Hok' Hr') as [H1 H2]. simpl. split; [by constructor | lia].
    + destruct (IH _ _ Hok' Hr) as [H1 H2]. simpl. split; [by constructor | lia].
    + apply Forall2_cons_inv_r in Hr as (i & idx' & Hlt & Hr' & ->).
      destruct (IH _ _ Hok' Hr') as [H1 H2]. simpl.
      split; [constructor; [lia | done] | lia].
Qed.

Lemma embed_inj rs dims idx idx' :
  rsubs_ok rs (fst <$> dims) →
  in_range idx (fst <$> sub_dims rs dims) → in_range idx' (fst <$> sub_dims rs dims) →
  embed rs idx = embed rs idx' → idx = idx'.
Proof.
  revert dims idx idx'. induction rs as [|r rs IH]; intros dims idx idx' Hok Hr Hr' Heq.
  - done.
  - destruct dims as [|[k s] dims]; [inversion Hok |].
    inversion Hok as [| ? ? ? Hok' | ? ? ? ? Hi Hok' | ? ? ? ? ? Hle Hok']; subst; simpl in *.
    + apply Forall2_cons_inv_r in Hr as (i & l & _ & Hr & ->).
      apply Forall2_cons_inv_r in Hr' as (i' & l' & _ & Hr' & ->).
      simplify_eq. f_equal. by eapply IH.
    + simplify_eq. by eapply IH.
    + apply Forall2_cons_inv_r in Hr as (i & l & _ & Hr & ->).
      apply Forall2_cons_inv_r in Hr' as (i' & l' & _ & Hr' & ->).
      simplify_eq. f_equal; [lia | by eapply IH].
Qed.


Lemma no_overlap_contiguous sh off : no_overlap (View off (c_dims sh)).
Proof.
  intros idx idx'. unfold pos, v_shape. simpl. rewrite shape_c_dims.
  intros H1 H2 Heq. apply (dot_c_dims_inj sh); [done | done | lia].
Qed.

Lemma subscript_view_spec subs v v' :
  subscript_view subs v = Ok v' →
  ∃ rs, resolve subs (v_shape v) = Ok rs
    ∧ v_dims v' = sub_dims rs (v_dims v)
    ∧ ∀ idx, in_range idx (v_shape v') →
        in_range (embed rs idx) (v_shape v) ∧ pos v' idx = pos v (embed rs idx).
Proof.
  unfold subscript_view. destruct (resolve subs (v_shape v)) as [rs|] eqn:Hrs; [|done].
  simpl. intros Heq. simplify_eq. exists rs. split; [done |]. split; [done |].
  intros idx Hr. unfold v_shape, pos in *. simpl in *.
  destruct (embed_spec rs (v_dims v) idx) as [H1 H2]; [by eapply resolve_ok | done |].
  split; [done | lia].
Qed.

Lemma subscript_view_fits subs v v' len :
  subscript_view subs v = Ok v' → fits v len = true → fits v' len = true.
Proof.
  intros Hsub Hf. apply subscript_view_spec in Hsub as (rs & _ & _ & Hidx).
  apply fits_spec. intros idx Hr. destruct (Hidx _ Hr) as [Hr' ->].
  by apply (fits_pos v).
Qed.

Lemma subscript_view_no_overlap subs v v' :
  subscript_view subs v = Ok v' → no_overlap v → no_overlap v'.
Proof.
  intros Hsub Hno idx idx' Hr Hr' Heq.
  pose proof Hsub as Hsub'.
  apply subscript_view_spec in Hsub as (rs & Hrs & Hdims & Hidx).
  destruct (Hidx _ Hr) as [H1 E1]. destruct (Hidx _ Hr') as [H2 E2].
  rewrite E1, E2 in Heq. apply Hno in Heq; [|done..].
  unfold v_shape in Hr, Hr'. rewrite Hdims in Hr, Hr'.
  eapply embed_inj; [| exact Hr | exact Hr' | exact Heq].
  by eapply resolve_ok.
Qed.

(** ** Broadcasting *)

Lemma stretch_same dims : stretch dims (fst <$> dims) = Ok dims.
Proof.
  induction dims as [|[k s] dims IH]; [done |].
  rewrite fmap_cons. cbn [stretch fst]. rewrite IH. simpl. by rewrite decide_True.
Qed.

Lemma broadcast_dims_same dims : broadcast_dims dims (fst <$> dims) = Ok dims.
Proof.
  unfold broadcast_dims. rewrite length_fmap, Nat.sub_diag. simpl.
  rewrite Nat.sub_diag. simpl. apply stretch_same.
Qed.

Lemma broadcast_to_same v : broadcast_to v (v_shape v) = Ok v.
Proof. unfold broadcast_to, v_shape. rewrite broadcast_dims_same. by destruct v. Qed.

Lemma stretch_spec src dst ds :
  stretch src dst = Ok ds →
  fst <$> ds = dst
  ∧ ∀ idx, in_range idx dst →
      ∃ idx', in_range idx' (fst <$> src) ∧ dot idx ds = dot idx' src.
Proof.
  revert dst ds. induction src as [|[k s] src IH]; intros dst ds Hst.
  - destruct dst; simpl in Hst; [|done]. simplify_eq. split; [done |].
    intros idx Hr. exists []. split; [constructor | by destruct idx].
  - destruct dst as [|j dst]; simpl in Hst; [done |].
    destruct (stretch src dst) as [ds'|] eqn:Hds; simpl in Hst; [|done].
    destruct (IH _ _ Hds) as [Hsh Hidx].
    assert (∀ s', (k = j ∧ s' = s ∨ k = 1 ∧ s' = 0) → ds = (j, s') :: ds' →
      fst <$> ds = j :: dst
      ∧ ∀ idx, in_range idx (j :: dst) →
          ∃ idx', in_range idx' (fst <$> (k, s) :: src) ∧ dot idx ds = dot idx' ((k, s) :: src))
      as Hcase.
    { intros s' Hs' ->. split; [by rewrite fmap_cons, Hsh |].
      intros idx Hr. apply Forall2_cons_inv_r in Hr as (i & idx0 & Hlt & Hr & ->).
      destruct (Hidx _ Hr) as (idx' & Hr' & Hdot).
      destruct Hs' as [[-> ->] | [-> ->]].
      - exists (i :: idx'). split; [by constructor |]. simpl. by rewrite Hdot.
      - exists (0 :: idx'). split; [rewrite fmap_cons; constructor; [simpl; lia | done] |].
        simpl. rewrite Hdot. lia. }
    repeat case_decide; simplify_eq; eapply Hcase; eauto.
Qed.

Lemma strip_ones_spec k src src' :
  strip_ones k src = Ok src' →
  ∀ idx, in_range idx (fst <$> src') →
    ∃ idx', in_range idx' (fst <$> src) ∧ dot idx src' = dot idx' src.
Proof.
  revert src. induction k as [|k IH]; intros src Hs idx Hr; simpl in Hs.
  - simplify_eq. by exists idx.
  - destruct src as [|[[|[|j]] s] src]; try done.
    destruct (IH _ Hs _ Hr) as (idx' & Hr' & Hdot).
    exists (0 :: idx'). split; [rewrite fmap_cons; constructor; [simpl; lia | done] |].
    simpl. by rewrite Hdot.
Qed.

Lemma dot_pad j src idx :
  in_range idx (fst <$> replicate j (1, 0) ++ src) →
  ∃ idx', in_range idx' (fst <$> src) ∧ dot idx (replicate j (1, 0) ++ src) = dot idx' src.
Proof.
  revert idx. induction j as [|j IH]; intros idx Hr; simpl in *.
  - by exists idx.
  - apply Forall2_cons_inv_r in Hr as (i & idx0 & Hlt & Hr & ->).
    destruct (IH _ Hr) as (idx' & Hr' & Hdot). exists idx'. split; [done |].
    simpl. rewrite Hdot. lia.
Qed.

Lemma broadcast_dims_spec src dst ds :
  broadcast_dims src dst = Ok ds →
  fst <$> ds = dst
  ∧ ∀ idx, in_range idx dst →
      ∃ idx', in_range idx' (fst <$> src) ∧ dot idx ds = dot idx' src.
Proof.
  unfold broadcast_dims.
  destruct (strip_ones (length src - length dst) src) as [src'|] eqn:Hs; simpl; [|done].
  intros Hst. apply stretch_spec in Hst as [Hsh Hidx]. split; [done |].
  intros idx Hr. destruct (Hidx _ Hr) as (idx1 & Hr1 & Hd1).
  destruct (dot_pad _ _ _ Hr1) as (idx2 & Hr2 & Hd2).
  destruct (strip_ones_spec _ _ _ Hs _ Hr2) as (idx3 & Hr3 & Hd3).
  exists idx3. split; [done | lia].
Qed.

Lemma broadcast_to_spec v sh v' :
  broadcast_to v sh = Ok v' →
  v_shape v' = sh
  ∧ ∀ idx, in_range idx sh → ∃ idx', in_range idx' (v_shape v) ∧ pos v' idx = pos v idx'.
Proof.
  unfold broadcast_to. destruct (broadcast_dims (v_dims v) sh) as [ds|] eqn:Hb; [|done].
  simpl. intros Heq. simplify_eq. apply broadcast_dims_spec in Hb as [Hsh Hidx].
  split; [done |]. intros idx Hr. destruct (Hidx _ Hr) as (idx' & Hr' & Hdot).
  exists idx'. split; [done |]. unfold pos. simpl. lia.
Qed.

Lemma broadcast_to_fits v sh v' len :
  broadcast_to v sh = Ok v' → fits v len = true → fits v' len = true.
Proof.
  intros Hb Hf. apply broadcast_to_spec in Hb as [Hsh Hidx].
  apply fits_spec. rewrite Hsh. intros idx Hr.
  destruct (Hidx _ Hr) as (idx' & Hr' & ->). by apply (fits_pos v).
Qed.

(** Broadcasting fails with [ValueError] only. *)
Lemma broadcast_to_raise v sh e : broadcast_to v sh = Raise e → e = ValueError.
Proof.
  unfold broadcast_to, broadcast_dims.
  destruct (strip_ones _ _) as [src'|e'] eqn:Hs; simpl.
  - generalize (replicate (length sh - length src') (1, 0) ++ src') as src. clear.
    intros src. revert sh. induction src as [|[k s] src IH]; intros sh Hr.
    + destruct sh; simpl in Hr; [done | by simplify_eq].
    + destruct sh as [|j sh]; simpl in Hr; [by simplify_eq |].
      destruct (stretch src sh) as [ds|e'] eqn:Hds; simpl in Hr.
      * repeat case_decide; simpl in Hr; by simplify_eq.
      * simplify_eq. apply (IH sh). by rewrite Hds.
  - intros ?; simplify_eq. clear -Hs.
    revert Hs. generalize (length (v_dims v) - length sh) as k. generalize (v_dims v) as src.
    intros src k. revert src. induction k as [|k IH]; intros src Hs; simpl in Hs; [done |].
    destruct src as [|[[|[|j]] s] src]; simplify_eq; eauto.
Qed.

(** ** Reading and writing buffers *)

Section Buffers.
Context {A : Type}.
Implicit Types (buf : list A) (ws : list (nat * A)).

Lemma gather_is_Some buf v : fits v (length buf) = true → is_Some (gather buf v).
Proof.
  intros Hf. apply mapM_is_Some, Forall_forall. intros idx Hin. simpl.
  apply lookup_lt_is_Some_2, (fits_pos v); [done |]. by apply elem_of_ndindex.
Qed.

Lemma gather_length buf v xs : gather buf v = Some xs → length xs = numel (v_shape v).
Proof.
  intros Hg. apply mapM_Some, Forall2_length in Hg. by rewrite <- Hg, length_ndindex.
Qed.

Lemma gather_lookup buf v xs idx :
  gather buf v = Some xs → in_range idx (v_shape v) →
  xs !! dot idx (c_dims (v_shape v)) = buf !! pos v idx
  ∧ is_Some (buf !! pos v idx).
Proof.
  intros Hg Hr. apply mapM_Some in Hg.
  destruct (Forall2_lookup_l _ _ _ _ _ Hg (ndindex_lookup _ _ Hr)) as (x & Hx & Hb).
  rewrite Hx, Hb. eauto.
Qed.

Lemma gather_fits buf v xs : gather buf v = Some xs → fits v (length buf) = true.
Proof.
  intros Hg. apply fits_spec. intros idx Hr.
  destruct (gather_lookup _ _ _ _ Hg Hr) as [_ Hs]. by apply lookup_lt_is_Some_1.
Qed.

Lemma gather_Forall (P : A → Prop) buf v xs :
  gather buf v = Some xs →
  (∀ idx x, in_range idx (v_shape v) → buf !! pos v idx = Some x → P x) →
  Forall P xs.
Proof.
  intros Hg HP. apply mapM_Some in Hg. apply Forall_lookup. intros k x Hk.
  destruct (Forall2_lookup_r _ _ _ _ _ Hg Hk) as (idx & Hidx & Hb).
  eapply HP; [|done]. by eapply elem_of_ndindex, list_elem_of_lookup_2.
Qed.

Lemma gather_contiguous sh buf :
  length buf = numel sh → gather buf (contiguous sh) = Some buf.
Proof.
  intros Hlen. apply mapM_Some, Forall2_same_length_lookup.
  unfold v_shape, contiguous. cbn [v_dims]. rewrite shape_c_dims, length_ndindex.
  split; [done |]. intros p idx x Hidx Hx.
  apply ndindex_lookup_inv in Hidx as [_ ->]. done.
Qed.

Lemma length_write_all ws buf : length (write_all ws buf) = length buf.
Proof.
  unfold write_all. revert buf. induction ws as [|w ws IH]; intros buf; simpl; [done |].
  by rewrite IH, length_insert.
Qed.

Lemma write_all_notin ws buf p : p ∉ ws.*1 → write_all ws buf !! p = buf !! p.
Proof.
  unfold write_all. revert buf. induction ws as [|[q x] ws IH]; intros buf Hp; simpl; [done |].
  rewrite fmap_cons in Hp. apply not_elem_of_cons in Hp as [Hne Hp].
  rewrite IH by done. simpl in *. by rewrite list_lookup_insert_ne.
Qed.

Lemma write_all_in ws buf p x :
  NoDup ws.*1 → (p, x) ∈ ws → p < length buf → write_all ws buf !! p = Some x.
Proof.
  unfold write_all. revert buf. induction ws as [|[q y] ws IH]; intros buf Hnd Hin Hlt; simpl.
  - by apply elem_of_nil in Hin.
  - rewrite fmap_cons in Hnd. apply NoDup_cons in Hnd as [Hq Hnd].
    apply elem_of_cons in Hin as [Heq | Hin].
    + assert (q = p ∧ y = x) as [-> ->] by (split; congruence).
      fold (write_all ws (<[p:=x]> buf)).
      rewrite write_all_notin by done. by apply list_lookup_insert_eq.
    + apply IH; [done | done | by rewrite length_insert].
Qed.

(** What a store through a view leaves in the buffer. *)
Lemma write_view buf v xs (f : A → A) :
  no_overlap v → fits v (length buf) = true → length xs = numel (v_shape v) →
  let buf' := write_all (zip (pos v <$> ndindex (v_shape v)) (f <$> xs)) buf in
  length buf' = length buf
  ∧ (∀ idx, in_range idx (v_shape v) →
      buf' !! pos v idx = f <$> xs !! dot idx (c_dims (v_shape v)))
  ∧ (∀ p, (∀ idx, in_range idx (v_shape v) → pos v idx ≠ p) → buf' !! p = buf !! p).
Proof.
  intros Hno Hf Hlen buf'. subst buf'.
  assert (length (pos v <$> ndindex (v_shape v)) ≤ length (f <$> xs)) as Hle.
  { rewrite !length_fmap, length_ndindex. lia. }
  split; [apply length_write_all |]. split.
  - intros idx Hr.
    destruct (lookup_lt_is_Some_2 xs (dot idx (c_dims (v_shape v)))) as [x Hx].
    { rewrite Hlen. by apply dot_c_dims_lt. }
    rewrite Hx. simpl. apply write_all_in.
    + rewrite fst_zip by done. apply NoDup_fmap_2_strong; [| apply NoDup_ndindex].
      intros i j Hi Hj. apply Hno; by apply elem_of_ndindex.
    + apply list_elem_of_lookup. exists (dot idx (c_dims (v_shape v))).
      apply lookup_zip_with_Some. exists (pos v idx), (f x). split; [done |].
      rewrite !list_lookup_fmap, Hx, ndindex_lookup by done. done.
    + by apply (fits_pos v).
  - intros p Hp. apply write_all_notin. rewrite fst_zip by done.
    intros Hin. apply list_elem_of_fmap in Hin as (idx & -> & Hin).
    apply (Hp idx); [by apply elem_of_ndindex | done].
Qed.

End Buffers.
(** ** The logic of runs *)

Section Logic.
Context {A : Type}.
Implicit Types (st : state A).

Lemma returns_ret {X} (x : X) st (Q : X → state A → Prop) :
  Q x st → returns (mret x) st Q.
Proof. intros HQ. by exists x, st. Qed.

Lemma returns_bind {X Y} (m : M A X) (f : X → M A Y) st (Q : Y → state A → Prop) :
  returns m st (λ x st', returns (f x) st' Q) → returns (m ≫= f) st Q.
Proof.
  intros (x & st' & Hm & y & st'' & Hf & HQ). exists y, st''. split; [|done].
  unfold mbind, M_bind. by rewrite Hm.
Qed.

Lemma returns_mono {X} (m : M A X) st (P Q : X → state A → Prop) :
  returns m st P → (∀ x st', P x st' → Q x st') → returns m st Q.
Proof. intros (x & st' & Hm & HP) HPQ. exists x, st'. eauto. Qed.

Lemma returns_lift {X} (r : result X) x st (Q : X → state A → Prop) :
  r = Ok x → Q x st → returns (lift r) st Q.
Proof. intros -> HQ. by exists x, st. Qed.

Lemma returns_run {X} (m : M A X) st x st' (Q : X → state A → Prop) :
  m st = Ok (x, st') → Q x st' → returns m st Q.
Proof. intros Hm HQ. by exists x, st'. Qed.

Lemma raises_now {X Y} (m : M A X) (f : X → M A Y) st e :
  raises m st e → raises (m ≫= f) st e.
Proof. unfold raises, mbind, M_bind. by intros ->. Qed.

Lemma raises_later {X Y} (m : M A X) (f : X → M A Y) st e :
  returns m st (λ x st', raises (f x) st' e) → raises (m ≫= f) st e.
Proof. intros (x & st' & Hm & Hf). unfold raises, mbind, M_bind. by rewrite Hm. Qed.

Lemma returns_and {X} (m : M A X) st (P Q : X → state A → Prop) :
  returns m st Q → (∀ x st', m st = Ok (x, st') → P x st') →
  returns m st (λ x st', Q x st' ∧ P x st').
Proof. intros (x & st' & Hm & HQ) HP. exists x, st'. eauto. Qed.

Lemma returns_eq {X} (m : M A X) st x st' :
  returns m st (λ y st'', y = x ∧ st'' = st') ↔ m st = Ok (x, st').
Proof.
  split.
  - by intros (y & st'' & Hm & -> & ->).
  - intros Hm. by exists x, st'.
Qed.

Lemma returns_not_raises {X} (m : M A X) st Q e : returns m st Q → ¬ raises m st e.
Proof. intros (x & st' & Hm & _) Hr. unfold raises in Hr. congruence. Qed.

(** A loop keeps an invariant of the items already visited. *)
Lemma returns_for_each {X} (I : list X → state A → Prop) (xs : list X)
    (body : X → M A ()) st :
  I [] st →
  (∀ done x rest st', xs = done ++ x :: rest → I done st' →
     returns (body x) st' (λ _ st'', I (done ++ [x]) st'')) →
  returns (for_each xs body) st (λ _ st', I xs st').
Proof.
  intros H0 Hstep.
  enough (∀ done rest st', xs = done ++ rest → I done st' →
            returns (for_each rest body) st' (λ _ st'', I xs st'')) as Hgen.
  { by apply (Hgen [] xs). }
  intros done rest. revert done. induction rest as [|x rest IH]; intros done st' Hxs HI.
  - rewrite app_nil_r in Hxs. subst. by apply returns_ret.
  - simpl. apply returns_bind. eapply returns_mono; [by eapply Hstep |].
    intros [] st'' HI'. simpl in HI'. apply (IH (done ++ [x])); [|done].
    by rewrite <- app_assoc.
Qed.

(** A loop that keeps an invariant until one iteration raises. *)
Lemma raises_for_each {X} (I : list X → state A → Prop) (xs : list X)
    (body : X → M A ()) st e done x rest :
  xs = done ++ x :: rest →
  I [] st →
  (∀ done' y rest' st', done = done' ++ y :: rest' → I done' st' →
     returns (body y) st' (λ _ st'', I (done' ++ [y]) st'') ∨ raises (body y) st' e) →
  (∀ st', I done st' → raises (body x) st' e) →
  raises (for_each xs body) st e.
Proof.
  intros -> H0 Hstep Hfail.
  enough (∀ done' rest' st', done = done' ++ rest' → I done' st' →
            raises (for_each (rest' ++ x :: rest) body) st' e) as Hgen.
  { by apply (Hgen [] done). }
  intros done' rest'. revert done'.
  induction rest' as [|y rest' IH]; intros done' st' Hd HI.
  - rewrite app_nil_r in Hd. subst. simpl. apply raises_now. by apply Hfail.
  - simpl. destruct (Hstep done' y rest' st' Hd HI) as [Hok | Hr].
    + apply raises_later. eapply returns_mono; [exact Hok |].
      intros [] st'' HI'. simpl in HI'. apply (IH (done' ++ [y])); [|done].
      by rewrite <- app_assoc.
    + by apply raises_now.
Qed.

(** A comprehension keeps an invariant of the results collected so far. *)
Lemma returns_list_comp {X Y} (I : list Y → state A → Prop)
    (xs : list X) (body : X → M A Y) st :
  I [] st →
  (∀ ys x st', x ∈ xs → I ys st' →
     returns (body x) st' (λ y st'', I (ys ++ [y]) st'')) →
  returns (list_comp xs body) st (λ ys st', I ys st' ∧ length ys = length xs).
Proof.
  intros H0 Hstep.
  enough (∀ rest acc st', rest ⊆ xs → I acc st' →
            returns (list_comp rest body) st'
              (λ ys st'', I (acc ++ ys) st'' ∧ length ys = length rest)) as Hgen.
  { by apply (Hgen xs []). }
  induction rest as [|x rest IH]; intros acc st' Hsub HI.
  - apply returns_ret. by rewrite app_nil_r.
  - simpl. apply returns_bind. eapply returns_mono.
    { apply Hstep; [|exact HI]. apply Hsub. by left. }
    intros y st'' HI'. simpl in HI'. apply returns_bind. eapply returns_mono.
    { apply (IH (acc ++ [y])); [|done]. intros z Hz. apply Hsub. by right. }
    intros ys st3 [HI3 Hlen]. simpl in *. apply returns_ret.
    rewrite <- app_assoc in HI3. simpl in HI3. split; [done | simpl; by rewrite Hlen].
Qed.

End Logic.

(** * What the array operations do *)

Lemma norm_index_nat k i : i < k → norm_index k (Z.of_nat i) = Ok i.
Proof.
  intros Hlt. unfold norm_index. rewrite decide_True by lia. by rewrite Nat2Z.id.
Qed.

Lemma norm_index_pred k j : 1 ≤ j ≤ k → norm_index k (Z.of_nat j - 1) = Ok (j - 1).
Proof.
  intros Hj. unfold norm_index. rewrite decide_True by lia. f_equal. lia.
Qed.

Lemma norm_index_last k : 0 < k → norm_index k (-1) = Ok (k - 1).
Proof.
  intros Hk. unfold norm_index. rewrite decide_False by lia.
  rewrite decide_True by lia. f_equal. lia.
Qed.

Lemma norm_index_first k : 0 < k → norm_index k 0 = Ok 0.
Proof. intros Hk. by apply (norm_index_nat k 0). Qed.

Lemma norm_index_empty i : norm_index 0 i = Raise IndexError.
Proof. unfold norm_index. by rewrite !decide_False by lia. Qed.

Lemma slice_range_nat k a b :
  slice_range k (Some (Z.of_nat a)) (Some (Z.of_nat b)) = (a `min` k, b `min` k - a `min` k).
Proof.
  unfold slice_range, clamp_bound. simpl. rewrite !decide_False by lia. f_equal; lia.
Qed.

Lemma slice_range_to k b : slice_range k None (Some (Z.of_nat b)) = (0, b `min` k).
Proof.
  unfold slice_range, clamp_bound. simpl. rewrite !decide_False by lia. f_equal; lia.
Qed.

Lemma slice_range_from k a :
  slice_range k (Some (Z.of_nat a)) None = (a `min` k, k - a `min` k).
Proof.
  unfold slice_range, clamp_bound. simpl. rewrite !decide_False by lia. f_equal; lia.
Qed.

Lemma slice_range_tail k j :
  0 < j → slice_range k (Some (- Z.of_nat j)%Z) None = (k - j, k - (k - j)).
Proof.
  intros Hj. unfold slice_range, clamp_bound. simpl. rewrite !decide_True by lia.
  f_equal; lia.
Qed.

Section Operations.
Context {A : Type} `{Scalar A}.
Implicit Types (st : state A) (a dst src : ndarray).

Lemma getitem_run a subs v st :
  subscript_view subs (geom a) = Ok v →
  getitem a subs st = Ok (NdArray (base a) v (dt a), st).
Proof. intros Hv. unfold getitem. by rewrite Hv. Qed.

Lemma getitem_raises a subs e st :
  subscript_view subs (geom a) = Raise e → raises (getitem a subs) st e.
Proof. intros Hv. unfold raises, getitem. by rewrite Hv. Qed.

Lemma read_view_run st b v buf :
  heap st !! b = Some buf → fits v (length buf) = true →
  ∃ xs, read_view b v st = Ok (xs, st) ∧ gather buf v = Some xs.
Proof.
  intros Hb Hf. destruct (gather_is_Some buf v Hf) as [xs Hxs].
  exists xs. split; [|done]. unfold read_view. rewrite Hb. simpl. by rewrite Hxs.
Qed.

Lemma setitem_run dst src bsrc sbuf dbuf st :
  broadcast_to (geom src) (shape dst) = Ok bsrc →
  heap st !! base src = Some sbuf → fits (geom src) (length sbuf) = true →
  heap st !! base dst = Some dbuf → fits (geom dst) (length dbuf) = true →
  no_overlap (geom dst) →
  ∃ dbuf',
    setitem dst src st = Ok ((), set_heap (<[base dst := dbuf']> (heap st)) st)
    ∧ length dbuf' = length dbuf
    ∧ (∀ idx, in_range idx (shape dst) →
         dbuf' !! pos (geom dst) idx = convert (dt src) (dt dst) <$> sbuf !! pos bsrc idx)
    ∧ (∀ p, (∀ idx, in_range idx (shape dst) → pos (geom dst) idx ≠ p) →
         dbuf' !! p = dbuf !! p).
Proof.
  intros Hb Hs Hfs Hd Hfd Hno.
  pose proof (broadcast_to_fits _ _ _ _ Hb Hfs) as Hfb.
  destruct (read_view_run st _ _ _ Hs Hfb) as (xs & Hread & Hg).
  destruct (broadcast_to_spec _ _ _ Hb) as [Hsh _].
  pose proof (gather_length _ _ _ Hg) as Hlen. rewrite Hsh in Hlen.
  destruct (write_view dbuf (geom dst) xs (convert (dt src) (dt dst)) Hno Hfd Hlen)
    as (Hl & Hin & Hout).
  eexists. split; [| split; [exact Hl | split; [| exact Hout]]].
  - unfold setitem. rewrite Hb, Hread, Hd, Hfd. done.
  - intros idx Hr. rewrite (Hin idx Hr). f_equal.
    destruct (gather_lookup _ _ _ idx Hg) as [Hx _]; [by rewrite Hsh |].
    by rewrite Hsh in Hx.
Qed.

Lemma setitem_raises dst src e st :
  broadcast_to (geom src) (shape dst) = Raise e → raises (setitem dst src) st ValueError.
Proof.
  intros Hb. unfold raises, setitem. rewrite Hb.
  by rewrite (broadcast_to_raise _ _ _ Hb).
Qed.

Lemma convert_to_double d : convert (A:=A) d Float64 = λ x, x.
Proof. by destruct d. Qed.

Lemma convert_same d : convert (A:=A) d d = λ x, x.
Proof. by destruct d. Qed.

Lemma item_alloc_old st a d idx :
  base a < length (heap st) →
  item (set_heap (heap st ++ [d]) st) a idx = item st a idx.
Proof. intros Hlt. unfold item. simpl. by rewrite lookup_app_l. Qed.

Lemma valid_lookup st a idx :
  valid st a → in_range idx (shape a) → is_Some (item st a idx).
Proof.
  intros (buf & Hb & Hf) Hr. unfold item. rewrite Hb. simpl.
  apply lookup_lt_is_Some_2. by apply (fits_pos (geom a)).
Qed.

End Operations.

(** * The windowing utility *)

Lemma dims_of_shape3 v k0 k1 k2 :
  v_shape v = [k0; k1; k2] →
  ∃ s0 s1 s2, v_dims v = [(k0, s0); (k1, s1); (k2, s2)].
Proof.
  unfold v_shape. destruct (v_dims v) as [|[? s0] [|[? s1] [|[? s2] [|]]]]; try done.
  simpl. intros ?; simplify_eq. by exists s0, s1, s2.
Qed.

Lemma lookup_snoc {X} (l : list X) x : (l ++ [x]) !! length l = Some x.
Proof. by apply list_lookup_middle. Qed.

Lemma insert_snoc {X} (l : list X) x y : <[length l := y]> (l ++ [x]) = l ++ [y].
Proof.
  replace (length l) with (length l + 0) by lia. by rewrite insert_app_r.
Qed.

Section Windowing.
Context {A : Type} `{Scalar A}.
Variable c : constants.

Local Abbreviation B := (INITIAL_BATCH_SIZE c).
Local Abbreviation n := (N_INPUT_STEPS c).
Local Abbreviation m := (N_PREDICTIONS c).
Local Abbreviation F := (N_FEATURES c).

(** The loop of [get_sequence_to_sequence_data] on a series long enough:
    the state after it, and what the buffer of [Y] holds. *)
Lemma sequence_targets_run (series : ndarray) (st : state A) S sbuf :
  heap st !! base series = Some sbuf →
  fits (geom series) (length sbuf) = true →
  shape series = [B; S; F] →
  n + m ≤ S →
  ∃ ybuf,
    sequence_targets c series st
      = Ok (targets_array c (length (heap st)), set_heap (heap st ++ [ybuf]) st)
    ∧ length ybuf = numel [B; n; m; F]
    ∧ ∀ row t k f, row < B → t < n → 1 ≤ k ≤ m → f < F →
        ybuf !! pos (contiguous [B; n; m; F]) [row; t; k - 1; f]
        = sbuf !! pos (geom series) [row; t + k; f].
Proof.
  intros Hs Hfs Hsh HS.
  destruct (dims_of_shape3 _ _ _ _ Hsh) as (s0 & s1 & s2 & Hdims).
  set (Y := targets_array c (length (heap st))).
  set (I := λ (done : list nat) (st' : state A),
    ∃ ybuf, st' = set_heap (heap st ++ [ybuf]) st
      ∧ length ybuf = numel [B; n; m; F]
      ∧ ∀ row t k f, k ∈ done → row < B → t < n → 1 ≤ k ≤ m → f < F →
          ybuf !! pos (contiguous [B; n; m; F]) [row; t; k - 1; f]
          = sbuf !! pos (geom series) [row; t + k; f]).
  assert (returns (for_each (range 1 (m + 1)) (λ step_ahead,
      src ← getitem series
        [All; Range (Some (Z.of_nat step_ahead)) (Some (Z.of_nat (step_ahead + n))); All];
      dst ← getitem Y [All; All; At (Z.of_nat step_ahead - 1); All];
      setitem dst src))
    (set_heap (heap st ++ [uninit st <$> seq 0 (numel [B; n; m; F])]) st)
    (λ _ st', I (range 1 (m + 1)) st')) as Hloop.
  { apply returns_for_each.
    - eexists. split; [done |]. split; [by rewrite length_fmap, length_seq |].
      intros ? ? ? ? Hin. by apply elem_of_nil in Hin.
    - intros done k rest st' Hxs (ybuf & -> & Hlen & Hinv).
      assert (1 ≤ k ≤ m) as Hk.
      { assert (k ∈ range 1 (m + 1)) as Hin.
        { rewrite Hxs. apply elem_of_app. right. by left. }
        apply elem_of_seq in Hin. lia. }
      (* the two views *)
      assert (∃ vs, subscript_view
          [All; Range (Some (Z.of_nat k)) (Some (Z.of_nat (k + n))); All] (geom series) = Ok vs
        ∧ v_shape vs = [B; n; F]
        ∧ ∀ row t f, pos vs [row; t; f] = pos (geom series) [row; t + k; f])
        as (vs & Hvs & Hshs & Hps).
      { unfold subscript_view, v_shape, pos. rewrite Hdims. cbn.
        rewrite slice_range_nat, !Nat.min_l by lia. cbn.
        eexists. split; [done |]. cbn. split; [do 2 f_equal; lia | intros; lia]. }
      assert (∃ vd, subscript_view [All; All; At (Z.of_nat k - 1); All] (geom Y) = Ok vd
        ∧ v_shape vd = [B; n; F]
        ∧ ∀ row t f, pos vd [row; t; f] = pos (contiguous [B; n; m; F]) [row; t; k - 1; f])
        as (vd & Hvd & Hshd & Hpd).
      { unfold subscript_view, v_shape, pos. cbn. rewrite norm_index_pred by done. cbn.
        eexists. split; [done |]. cbn. split; [done | intros; lia]. }
      apply returns_bind. eapply returns_run; [by apply getitem_run |].
      apply returns_bind. eapply returns_run; [by apply getitem_run |].
      edestruct (setitem_run (NdArray (base Y) vd (dt Y)) (NdArray (base series) vs (dt series))
                   vs sbuf ybuf (set_heap (heap st ++ [ybuf]) st))
        as (ybuf' & Hrun & Hlen' & Hin & Hout).
      { unfold shape. simpl. rewrite Hshd, <- Hshs. apply broadcast_to_same. }
      { simpl. rewrite lookup_app_l; [done | by eapply lookup_lt_Some]. }
      { simpl. by eapply subscript_view_fits. }
      { simpl. apply lookup_snoc. }
      { simpl. eapply subscript_view_fits; [done |]. apply fits_contiguous. lia. }
      { simpl. eapply subscript_view_no_overlap; [done |]. apply no_overlap_contiguous. }
      eapply returns_run; [exact Hrun |].
      exists ybuf'. split; [| split; [by rewrite Hlen' |]].
      { unfold set_heap. simpl. by rewrite insert_snoc. }
      unfold shape in Hin, Hout. simpl in Hin, Hout. rewrite Hshd in Hin, Hout.
      intros row t k' f Hk' Hrow Ht Hk'r Hf.
      destruct (decide (k' = k)) as [-> | Hne].
      + rewrite <- Hpd, <- Hps. rewrite Hin by (repeat constructor; done).
        simpl. rewrite convert_to_double. by destruct (sbuf !! pos vs [row; t; f]).
      + rewrite Hout.
        * apply Hinv; [|done..].
          apply elem_of_app in Hk' as [Hd | Hl]; [done |].
          by apply list_elem_of_singleton in Hl.
        * intros idx Hr Heq.
          apply Forall2_cons_inv_r in Hr as (r' & idx1 & Hr1 & Hr & ->).
          apply Forall2_cons_inv_r in Hr as (t' & idx2 & Hr2 & Hr & ->).
          apply Forall2_cons_inv_r in Hr as (f' & idx3 & Hr3 & Hr & ->).
          apply Forall2_nil_inv_r in Hr as ->.
          rewrite Hpd in Heq.
          apply (no_overlap_contiguous [B; n; m; F] 0) in Heq.
          -- simplify_eq. lia.
          -- unfold v_shape. simpl. repeat constructor; lia.
          -- unfold v_shape. simpl. repeat constructor; lia. }
  destruct Hloop as ([] & st' & Hrun & ybuf & -> & Hlen & Hinv).
  exists ybuf. split; [| split; [done |]].
  - apply returns_eq. unfold sequence_targets.
    apply returns_bind. eapply returns_run; [reflexivity |].
    apply returns_bind. eapply returns_run; [exact Hrun |].
    by apply returns_ret.
  - intros row t k f Hrow Ht Hk Hf. apply Hinv; [|done..].
    apply elem_of_seq. lia.
Qed.

Lemma reshape_contiguous_run l sh sh' d (st : state A) :
  numel sh' = numel sh →
  reshape (NdArray l (contiguous sh) d) sh' st = Ok (NdArray l (contiguous sh') d, st).
Proof.
  intros Hn. unfold reshape, shape, is_c_contiguous, v_shape. cbn [geom contiguous v_dims].
  rewrite shape_c_dims, decide_True by done. by rewrite bool_decide_eq_true_2.
Qed.

(** C1: on a series of the script's batch size and feature count that has
    at least n+m time steps (n + m being the total step count), the
    windowing utility returns, and the four-dimensional array it builds
    holds at (row, t, k-1) the value of the series at step t+k, for every
    row, every t in [0,n) and every k in [1,m]; the array it returns is
    that array flattened to (batch, n, m*features). *)
Theorem windowing_copies_the_following_steps (series : ndarray) (st : state A) S :
  n + m = N_STEPS c →
  valid st series →
  shape series = [B; S; F] →
  n + m ≤ S →
  ∃ Y Y' st',
    sequence_targets c series st = Ok (Y, st')
    ∧ get_sequence_to_sequence_data c series st = Ok (Y', st')
    ∧ shape Y = [B; n; m; F]
    ∧ shape Y' = [B; n; m * F]
    ∧ ∀ row t k f, row < B → t < n → 1 ≤ k ≤ m → f < F →
        is_Some (item st series [row; t + k; f])
        ∧ item st' Y [row; t; k - 1; f] = item st series [row; t + k; f]
        ∧ item st' Y' [row; t; (k - 1) * F + f] = item st series [row; t + k; f].
Proof.
  intros _ (sbuf & Hs & Hfs) Hsh HS.
  destruct (sequence_targets_run series st S sbuf Hs Hfs Hsh HS) as (ybuf & Hrun & Hlen & Hy).
  exists (targets_array c (length (heap st))),
         (NdArray (length (heap st)) (contiguous [B; n; m * F]) Float64),
         (set_heap (heap st ++ [ybuf]) st).
  split; [done |]. split.
  { apply returns_eq. unfold get_sequence_to_sequence_data.
    apply returns_bind. eapply returns_run; [exact Hrun |].
    eapply returns_run; [| done]. apply reshape_contiguous_run. simpl. lia. }
  split; [done |]. split; [done |].
  intros row t k f Hrow Ht Hk Hf.
  assert (item st series [row; t + k; f] = sbuf !! pos (geom series) [row; t + k; f]) as Hitem.
  { unfold item. by rewrite Hs. }
  split; [| split].
  - rewrite Hitem. apply lookup_lt_is_Some_2, (fits_pos (geom series)); [done |].
    fold (shape series). rewrite Hsh. repeat constructor; lia.
  - rewrite Hitem, <- (Hy row t k f) by done.
    unfold item. simpl. by rewrite lookup_snoc.
  - rewrite Hitem, <- (Hy row t k f) by done.
    unfold item. simpl. rewrite lookup_snoc. simpl. f_equal. unfold pos. simpl. lia.
Qed.

End Windowing.

Lemma windowing_copies_the_following_steps_witness :
  ∃ Y Y' st',
    sequence_targets (H := R_scalar (λ x, x)) small small_series small_state = Ok (Y, st')
    ∧ get_sequence_to_sequence_data (H := R_scalar (λ x, x)) small small_series small_state
      = Ok (Y', st')
    ∧ shape Y = [2; 2; 2; 1]
    ∧ shape Y' = [2; 2; 2 * 1]
    ∧ ∀ row t k f, row < 2 → t < 2 → 1 ≤ k ≤ 2 → f < 1 →
        is_Some (item small_state small_series [row; t + k; f])
        ∧ item st' Y [row; t; k - 1; f] = item small_state small_series [row; t + k; f]
        ∧ item st' Y' [row; t; (k - 1) * 1 + f] = item small_state small_series [row; t + k; f].
Proof.
  apply (windowing_copies_the_following_steps (H := R_scalar (λ x, x))
           small small_series small_state 4).
  - reflexivity.
  - eexists. split; reflexivity.
  - reflexivity.
  - simpl. lia.
Defined.

(** The windowing on the small series: the data of the returned array of
    sizes (2, 2, 2): row 0 is [[2, 3], [3, 4]] and row 1 is [[6, 7], [7, 8]]. *)
Example windowing_small :
  match get_sequence_to_sequence_data (H := R_scalar (λ x, x)) small small_series small_state with
  | Ok (Y, st') => shape Y = [2; 2; 2] ∧ heap st' !! base Y = Some [2; 3; 3; 4; 6; 7; 7; 8]%R
  | Raise _ => False
  end.
Proof. vm_compute. split; reflexivity. Qed.

(** ** Series that are too short *)

Lemma broadcast_middle_fails v b l f s0 s1 s2 b' k f' :
  v_dims v = [(b, s0); (l, s1); (f, s2)] → l ≠ k → l ≠ 1 →
  ∃ e, broadcast_to v [b'; k; f'] = Raise e.
Proof.
  intros Hd Hk H1. unfold broadcast_to, broadcast_dims. rewrite Hd. cbn.
  destruct (decide (f = f')), (decide (f = 1)); cbn; eauto;
    rewrite (decide_False (P := l = k)), (decide_False (P := l = 1)) by done; cbn; eauto.
Qed.

Lemma range_split a b k : a ≤ k < b → range a b = range a k ++ k :: range (S k) b.
Proof.
  intros Hk. unfold range. replace (b - a) with ((k - a) + S (b - S k)) by lia.
  rewrite seq_app. simpl. by replace (a + (k - a)) with k by lia.
Qed.

Section ShortSeries.
Context {A : Type} `{Scalar A}.
Variable c : constants.

Local Abbreviation B := (INITIAL_BATCH_SIZE c).
Local Abbreviation n := (N_INPUT_STEPS c).
Local Abbreviation m := (N_PREDICTIONS c).
Local Abbreviation F := (N_FEATURES c).

(** With at least three input steps and two predicted steps, no series
    shorter than n+m gets through the loop: some slice has a length that
    is neither n nor 1, and the assignment does not broadcast. *)
Lemma sequence_targets_short (series : ndarray) (st : state A) B' S F' :
  3 ≤ n → 2 ≤ m →
  valid st series →
  shape series = [B'; S; F'] →
  S < n + m →
  raises (sequence_targets c series) st ValueError.
Proof.
  intros Hn Hm (sbuf & Hs & Hfs) Hsh HS.
  destruct (dims_of_shape3 _ _ _ _ Hsh) as (s0 & s1 & s2 & Hdims).
  unfold sequence_targets.
  apply raises_later. eapply returns_run; [reflexivity |].
  apply raises_now.
  set (Y := targets_array c (length (heap st))).
  set (I := λ (done : list nat) (st' : state A),
    ∃ ybuf, st' = set_heap (heap st ++ [ybuf]) st ∧ length ybuf = numel [B; n; m; F]).
  (* the length of the slice taken at step k *)
  assert (∀ k, ∃ vs, subscript_view
      [All; Range (Some (Z.of_nat k)) (Some (Z.of_nat (k + n))); All] (geom series) = Ok vs
    ∧ v_dims vs = [(B', s0); ((k + n) `min` S - k `min` S, s1); (F', s2)]) as Hsrc.
  { intros k. unfold subscript_view, v_shape. rewrite Hdims. cbn.
    rewrite slice_range_nat. cbn. eauto. }
  assert (∀ k, 1 ≤ k ≤ m → ∃ vd,
    subscript_view [All; All; At (Z.of_nat k - 1); All] (geom Y) = Ok vd
    ∧ v_shape vd = [B; n; F]) as Hdst.
  { intros k Hk. unfold subscript_view, v_shape. cbn. rewrite norm_index_pred by done.
    cbn. eauto. }
  (* the iteration that fails *)
  assert (∃ k, 1 ≤ k ≤ m ∧ (k + n) `min` S - k `min` S ≠ n
               ∧ (k + n) `min` S - k `min` S ≠ 1) as (k & Hk & Hlen_n & Hlen_1).
  { destruct (decide (S ≤ n)).
    - destruct (decide (S = 2)); [exists 2 | exists 1]; lia.
    - destruct (decide (S = m + 1)); [exists (m - 1) | exists m]; lia. }
  eapply (raises_for_each I _ _ _ _ (range 1 k) k (range (Datatypes.S k) (m + 1))).
  - apply range_split. lia.
  - eexists. split; [done |]. by rewrite length_fmap, length_seq.
  - intros done' y rest' st' Hd (ybuf & -> & Hlen).
    assert (1 ≤ y ≤ m) as Hy.
    { assert (y ∈ range 1 k) as Hin.
      { rewrite Hd. apply elem_of_app. right. by left. }
      apply elem_of_seq in Hin. lia. }
    destruct (Hsrc y) as (vs & Hvs & Hdvs). destruct (Hdst y Hy) as (vd & Hvd & Hshd).
    destruct (broadcast_to vs (v_shape vd)) as [bsrc|e] eqn:Hb.
    + left.
      apply returns_bind. eapply returns_run; [by apply getitem_run |].
      apply returns_bind. eapply returns_run; [by apply getitem_run |].
      edestruct (setitem_run (NdArray (base Y) vd (dt Y))
                   (NdArray (base series) vs (dt series))
                   bsrc sbuf ybuf (set_heap (heap st ++ [ybuf]) st))
        as (ybuf' & Hrun & Hlen' & _ & _).
      { exact Hb. }
      { simpl. rewrite lookup_app_l; [done | by eapply lookup_lt_Some]. }
      { simpl. by eapply subscript_view_fits. }
      { simpl. apply lookup_snoc. }
      { simpl. eapply subscript_view_fits; [done |]. apply fits_contiguous. lia. }
      { simpl. eapply subscript_view_no_overlap; [done |]. apply no_overlap_contiguous. }
      eapply returns_run; [exact Hrun |].
      exists ybuf'. split; [| by rewrite Hlen'].
      unfold set_heap. simpl. by rewrite insert_snoc.
    + right.
      apply raises_later. eapply returns_run; [by apply getitem_run |].
      apply raises_later. eapply returns_run; [by apply getitem_run |].
      by eapply setitem_raises.
  - intros st' (ybuf & -> & Hlen).
    destruct (Hsrc k) as (vs & Hvs & Hdvs). destruct (Hdst k Hk) as (vd & Hvd & Hshd).
    destruct (broadcast_middle_fails vs _ _ _ _ _ _ B n F Hdvs Hlen_n Hlen_1) as [e He].
    apply raises_later. eapply returns_run; [by apply getitem_run |].
    apply raises_later. eapply returns_run; [by apply getitem_run |].
    eapply setitem_raises. unfold shape. simpl. rewrite Hshd. exact He.
Qed.

End ShortSeries.

(** C5: with the constants of the script (n = 150, m = 50), the windowing
    utility applied to a series with fewer than n+m time steps ends with a
    shape error (the [ValueError] of an assignment that does not broadcast);
    it returns no truncated array. *)
Theorem windowing_rejects_short_series {A : Type} `{Scalar A}
    (series : ndarray) (st : state A) B' S F' :
  valid st series →
  shape series = [B'; S; F'] →
  S < N_INPUT_STEPS script + N_PREDICTIONS script →
  raises (get_sequence_to_sequence_data script series) st ValueError.
Proof.
  intros Hv Hsh HS. unfold get_sequence_to_sequence_data. apply raises_now.
  apply (sequence_targets_short script series st B' S F'); try done.
  - unfold N_INPUT_STEPS. simpl. lia.
  - simpl. lia.
Qed.

Lemma windowing_rejects_short_series_witness :
  raises (get_sequence_to_sequence_data (H := R_scalar (λ x, x)) script small_series)
         small_state ValueError.
Proof.
  apply (windowing_rejects_short_series (H := R_scalar (λ x, x))
           small_series small_state 2 4 1).
  - eexists. split; reflexivity.
  - reflexivity.
  - unfold N_INPUT_STEPS. simpl. lia.
Defined.

(** With other constants a short series can get through: for two input
    steps and one predicted step, a series of two steps (one fewer than
    n+m) is accepted, its single slice being broadcast over both input
    steps. *)
Example windowing_broadcasts_a_slice_of_length_one :
  match get_sequence_to_sequence_data (H := R_scalar (λ x, x))
          (Constants 3 1 1 1 1 0 0 1) (NdArray 0 (contiguous [1; 2; 1]) Float32)
          (State [[1; 2]%R] (λ _, 0%R) (λ _, 0%R) []) with
  | Ok (Y, st') => shape Y = [1; 2; 1] ∧ heap st' !! base Y = Some [2; 2]%R
  | Raise _ => False
  end.
Proof. vm_compute. split; reflexivity. Qed.

(** * Naive forecasting *)

Section Naive.
Context {A : Type} `{Scalar A}.
Variable c : constants.

Local Abbreviation VB := (VALIDATION_BATCH_SIZE c).
Local Abbreviation m := (N_PREDICTIONS c).
Local Abbreviation F := (N_FEATURES c).

Lemma last_step_copy_mono σ ext (xbuf : list A) x vb s f p :
  last_step_copy σ xbuf x vb s f p → last_step_copy (σ ++ ext) xbuf x vb s f p.
Proof.
  intros (pbuf & Hp & Hrest). exists pbuf. split; [|done].
  rewrite lookup_app_l; [done | by eapply lookup_lt_Some].
Qed.

(** One element of the comprehension of line 122. *)
Lemma naive_part_run (x_valid : ndarray) (st : state A) σ0 ext xbuf S :
  heap st = σ0 ++ ext →
  σ0 !! base x_valid = Some xbuf →
  fits (geom x_valid) (length xbuf) = true →
  shape x_valid = [VB; S; F] →
  0 < S →
  returns (l ← getitem x_valid [All; At (-1)]; reshape l [VB; 1; F]) st
    (λ p st', ∃ ext', st' = set_heap (σ0 ++ ext ++ ext') st
               ∧ last_step_copy (σ0 ++ ext ++ ext') xbuf x_valid VB S F p).
Proof.
  intros Hheap Hx Hfx Hsh HS.
  destruct (dims_of_shape3 _ _ _ _ Hsh) as (s0 & s1 & s2 & Hdims).
  assert (∃ vl, subscript_view [All; At (-1)] (geom x_valid) = Ok vl
    ∧ v_dims vl = [(VB, s0); (F, s2)]
    ∧ ∀ i j, pos vl [i; j] = pos (geom x_valid) [i; S - 1; j]) as (vl & Hvl & Hdl & Hpl).
  { unfold subscript_view, v_shape, pos. rewrite Hdims. cbn.
    rewrite norm_index_last by done. cbn. eexists. split; [done |]. cbn.
    split; [done | intros; lia]. }
  assert (heap st !! base x_valid = Some xbuf) as Hx'.
  { rewrite Hheap, lookup_app_l; [done | by eapply lookup_lt_Some]. }
  pose proof (subscript_view_fits _ _ _ _ Hvl Hfx) as Hfl.
  apply returns_bind. eapply returns_run; [by apply getitem_run |].
  unfold reshape, shape, v_shape. cbn [geom]. rewrite Hdl.
  rewrite decide_True by (simpl; lia).
  destruct (is_c_contiguous vl) eqn:Hc.
  - apply returns_ret. exists []. rewrite app_nil_r. split.
    { unfold set_heap. rewrite <- Hheap. by destruct st. }
    unfold is_c_contiguous, v_shape in Hc. apply bool_decide_eq_true in Hc.
    rewrite Hdl in Hc. cbn in Hc. simplify_eq.
    rewrite <- Hheap. exists xbuf. split; [done |]. repeat split.
    + cbn [geom]. apply fits_spec. unfold v_shape. cbn. intros idx Hr.
      apply Forall2_cons_inv_r in Hr as (i & idx1 & Hi & Hr & ->).
      apply Forall2_cons_inv_r in Hr as (z & idx2 & Hz & Hr & ->).
      apply Forall2_cons_inv_r in Hr as (j & idx3 & Hj & Hr & ->).
      apply Forall2_nil_inv_r in Hr as ->.
      assert (pos vl [i; j] < length xbuf) as Hlt.
      { apply (fits_pos vl); [done |]. unfold v_shape. rewrite Hdl. repeat constructor; done. }
      unfold pos in *. rewrite Hdl in Hlt. cbn in *. lia.
    + intros i j Hi Hj. rewrite <- Hpl. f_equal. unfold pos. rewrite Hdl. cbn. lia.
  - apply returns_bind.
    destruct (read_view_run st _ _ _ Hx' Hfl) as (xs & Hread & Hg).
    eapply returns_run; [exact Hread |].
    eapply returns_run; [reflexivity |].
    exists [xs]. rewrite Hheap, <- app_assoc. split; [done |].
    exists xs. rewrite app_assoc, <- Hheap. cbn [base geom].
    split; [apply lookup_snoc |].
    pose proof (gather_length _ _ _ Hg) as Hlen. unfold v_shape in Hlen. rewrite Hdl in Hlen.
    repeat split.
    + apply fits_contiguous. rewrite Hlen. simpl. lia.
    + intros i j Hi Hj. rewrite <- Hpl.
      destruct (gather_lookup _ _ _ [i; j] Hg) as [Hlk _].
      { unfold v_shape. rewrite Hdl. repeat constructor; done. }
      rewrite <- Hlk. f_equal. unfold pos, v_shape. rewrite Hdl. cbn. lia.
Qed.

(** The parts are copied one after the other into the new array. *)
Lemma concat_fill_run (x_valid : ndarray) σ1 (xbuf : list A) S M (parts : list ndarray) :
  Forall (last_step_copy σ1 xbuf x_valid VB S F) parts →
  ∀ lo obuf (st : state A),
    heap st = σ1 ++ [obuf] →
    length obuf = numel [VB; M; F] →
    lo + length parts ≤ M →
    ∃ obuf',
      concat_fill 1 (NdArray (length σ1) (contiguous [VB; M; F]) (dt x_valid)) lo parts st
        = Ok ((), set_heap (σ1 ++ [obuf']) st)
      ∧ length obuf' = length obuf
      ∧ (∀ i k j, i < VB → lo ≤ k < lo + length parts → j < F →
           obuf' !! pos (contiguous [VB; M; F]) [i; k; j]
           = xbuf !! pos (geom x_valid) [i; S - 1; j])
      ∧ (∀ i k j, i < VB → k < lo → j < F →
           obuf' !! pos (contiguous [VB; M; F]) [i; k; j]
           = obuf !! pos (contiguous [VB; M; F]) [i; k; j]).
Proof.
  set (out := NdArray (length σ1) (contiguous [VB; M; F]) (dt x_valid)).
  induction 1 as [|p parts Hp Hparts IH]; intros lo obuf st Hheap Hlen Hlo.
  - exists obuf. split; [| split; [done | split; [simpl; intros; lia | done]]].
    simpl. unfold mret, M_ret, set_heap. rewrite <- Hheap. by destruct st.
  - destruct Hp as (pbuf & Hpb & Hfp & Hshp & Hdtp & Hpv). simpl in Hlo.
    cbn [concat_fill]. rewrite Hshp. cbn [lookup_total list_lookup_total].
    assert (∃ vd, subscript_view (on_axis 1 lo (lo + 1)) (geom out) = Ok vd
      ∧ v_shape vd = [VB; 1; F]
      ∧ ∀ i j, pos vd [i; 0; j] = pos (contiguous [VB; M; F]) [i; lo; j])
      as (vd & Hvd & Hshd & Hpd).
    { unfold subscript_view, v_shape, pos, on_axis. cbn.
      rewrite slice_range_nat, !Nat.min_l by lia. cbn.
      eexists. split; [done |]. cbn. split; [do 2 f_equal; lia | intros; lia]. }
    edestruct (setitem_run (NdArray (base out) vd (dt out)) p (geom p) pbuf obuf st)
      as (obuf1 & Hrun & Hlen1 & Hin & Hout).
    { unfold shape in *. cbn [geom]. rewrite Hshd, <- Hshp. apply broadcast_to_same. }
    { rewrite Hheap, lookup_app_l; [done | by eapply lookup_lt_Some]. }
    { done. }
    { rewrite Hheap. apply lookup_snoc. }
    { cbn [geom]. eapply subscript_view_fits; [done |]. apply fits_contiguous. lia. }
    { cbn [geom]. eapply subscript_view_no_overlap; [done |]. apply no_overlap_contiguous. }
    unfold shape in Hin, Hout. cbn [geom base dt] in Hin, Hout. rewrite Hshd in Hin, Hout.
    destruct (IH (lo + 1) obuf1 (set_heap (σ1 ++ [obuf1]) st)) as (obuf2 & Hrun2 & Hlen2 & Hnew & Hold).
    { done. }
    { by rewrite Hlen1. }
    { lia. }
    exists obuf2. split; [| split; [by rewrite Hlen2 | split]].
    + apply returns_eq. apply returns_bind. eapply returns_run; [by apply getitem_run |].
      apply returns_bind. eapply returns_run; [exact Hrun |].
      cbn [base out]. rewrite Hheap, insert_snoc.
      eapply returns_run; [exact Hrun2 |]. done.
    + intros i k j Hi Hk Hj. simpl in Hk. destruct (decide (k = lo)) as [-> | Hne].
      * rewrite Hold by lia. rewrite <- Hpd, Hin by (repeat constructor; done).
        rewrite Hdtp, convert_same. rewrite Hpv by done.
        by destruct (xbuf !! _).
      * apply Hnew; lia.
    + intros i k j Hi Hk Hj. rewrite Hold by lia. apply Hout.
      intros idx Hr Heq.
      apply Forall2_cons_inv_r in Hr as (i' & idx1 & Hi' & Hr & ->).
      apply Forall2_cons_inv_r in Hr as (z & idx2 & Hz & Hr & ->).
      apply Forall2_cons_inv_r in Hr as (j' & idx3 & Hj' & Hr & ->).
      apply Forall2_nil_inv_r in Hr as ->.
      assert (z = 0) as -> by lia. rewrite Hpd in Heq.
      apply (no_overlap_contiguous [VB; M; F] 0) in Heq.
      -- simplify_eq. lia.
      -- unfold v_shape. simpl. repeat constructor; lia.
      -- unfold v_shape. simpl. repeat constructor; lia.
Qed.

Lemma concat_shape_parts vb f (parts : list ndarray) :
  Forall (λ p, shape p = [vb; 1; f]) parts →
  concat_shape 1 [vb; 1; f] (shape <$> parts) = Ok [vb; length parts; f].
Proof.
  intros Hall. unfold concat_shape. rewrite decide_True by (simpl; lia).
  rewrite decide_True.
  - assert (sum_list ((λ sh : list nat, sh !!! 1) <$> (shape <$> parts)) = length parts)
      as ->; [| done].
    induction Hall as [|p parts Hp _ IH]; [done |].
    rewrite !fmap_cons, Hp. simpl. by rewrite IH.
  - apply Forall_fmap. eapply Forall_impl; [exact Hall |].
    intros p Hp. simpl. by rewrite Hp.
Qed.

(** Line 122: the array of the naive prediction is new, and each of its
    [m] steps holds the last step of the input. *)
Lemma naive_prediction_run (x_valid : ndarray) (st : state A) xbuf S :
  heap st !! base x_valid = Some xbuf →
  fits (geom x_valid) (length xbuf) = true →
  shape x_valid = [VB; S; F] →
  0 < S → 0 < m →
  ∃ ext obuf,
    naive_prediction c x_valid st
      = Ok (NdArray (length (heap st ++ ext)) (contiguous [VB; m; F]) (dt x_valid),
            set_heap ((heap st ++ ext) ++ [obuf]) st)
    ∧ length obuf = numel [VB; m; F]
    ∧ ∀ i k j, i < VB → k < m → j < F →
        obuf !! pos (contiguous [VB; m; F]) [i; k; j]
        = xbuf !! pos (geom x_valid) [i; S - 1; j].
Proof.
  intros Hx Hfx Hsh HS Hm.
  set (I := λ (ys : list ndarray) (st' : state A),
    ∃ ext, st' = set_heap (heap st ++ ext) st
      ∧ Forall (last_step_copy (heap st ++ ext) xbuf x_valid VB S F) ys).
  assert (returns (list_comp (range 0 m) (λ _,
      l ← getitem x_valid [All; At (-1)]; reshape l [VB; 1; F])) st
    (λ ys st', I ys st' ∧ length ys = length (range 0 m))) as Hcomp.
  { apply returns_list_comp.
    - exists []. rewrite app_nil_r. split; [by destruct st | constructor].
    - intros ys k st' _ (ext & -> & Hys).
      eapply returns_mono.
      { eapply (naive_part_run x_valid _ (heap st) ext xbuf S); done. }
      intros p st'' (ext' & -> & Hp). exists (ext ++ ext'). split; [done |].
      apply Forall_app. split; [| by constructor].
      eapply Forall_impl; [exact Hys |]. intros q Hq.
      rewrite app_assoc. by apply last_step_copy_mono. }
  destruct Hcomp as (parts & st1 & Hrun & (ext & -> & Hparts) & Hlen).
  unfold range in Hlen. rewrite length_seq, Nat.sub_0_r in Hlen.
  destruct parts as [|p0 parts']; [simpl in Hlen; lia |].
  set (parts := p0 :: parts') in *.
  assert (Forall (λ p, shape p = [VB; 1; F]) parts) as Hshapes.
  { eapply Forall_impl; [exact Hparts |]. by intros q (? & _ & _ & ? & _). }
  assert (shape p0 = [VB; 1; F] ∧ dt p0 = dt x_valid) as [Hsh0 Hdt0].
  { apply Forall_cons_1 in Hparts as [(? & _ & _ & ? & ? & _) _]. done. }
  set (junk := uninit st <$> seq 0 (numel [VB; m; F])).
  destruct (concat_fill_run x_valid (heap st ++ ext) xbuf S m parts Hparts 0 junk
              (set_heap ((heap st ++ ext) ++ [junk]) st))
    as (obuf & Hfill & Hlen' & Hnew & _).
  { done. }
  { unfold junk. by rewrite length_fmap, length_seq. }
  { lia. }
  exists ext, obuf. split; [| split].
  - apply returns_eq. unfold naive_prediction.
    apply returns_bind. eapply returns_run; [exact Hrun |].
    unfold np_concatenate. fold parts.
    apply returns_bind. eapply returns_lift.
    { rewrite Hsh0. by apply concat_shape_parts. }
    rewrite Hlen, Hdt0.
    apply returns_bind. eapply returns_run; [reflexivity |].
    apply returns_bind. eapply returns_run; [exact Hfill |].
    by apply returns_ret.
  - rewrite Hlen'. unfold junk. by rewrite length_fmap, length_seq.
  - intros i k j Hi Hk Hj. apply Hnew; lia.
Qed.

End Naive.

(** * The loss *)

Section Loss.
Context {A : Type} `{Scalar A}.

Lemma zip_shapes_same sh : zip_shapes sh sh = Ok sh.
Proof.
  induction sh as [|k sh IH]; [done |]. simpl. rewrite IH. simpl.
  by rewrite decide_True.
Qed.

Lemma broadcast_shapes_same sh : broadcast_shapes sh sh = Ok sh.
Proof. unfold broadcast_shapes. rewrite Nat.sub_diag. simpl. apply zip_shapes_same. Qed.

Lemma tensor_map2_same (f : A → A → A) sh xs ys :
  length xs = numel sh → length ys = numel sh →
  tensor_map2 f (Tensor sh xs) (Tensor sh ys) = Ok (Tensor sh (zip_with f xs ys)).
Proof.
  intros Hx Hy. unfold tensor_map2. cbn [tshape tdata].
  assert (broadcast_to (contiguous sh) sh = Ok (contiguous sh)) as Hbc.
  { rewrite <- (shape_c_dims sh) at 2. apply (broadcast_to_same (contiguous sh)). }
  rewrite broadcast_shapes_same. cbn [mbind result_bind].
  rewrite Hbc. cbn [mbind result_bind].
  rewrite !gather_contiguous by done. done.
Qed.

Lemma mean_squared_error_run b k d (ts ps : list A) :
  length ts = numel [b; k; d] → length ps = numel [b; k; d] →
  mean_squared_error (Tensor [b; k; d] ts) (Tensor [b; k; d] ps)
  = Ok (Tensor [b; k] (mean <$> chunks (numel [b; k]) d (zip_with squared_difference ps ts))).
Proof.
  intros Ht Hp. unfold mean_squared_error. by rewrite tensor_map2_same.
Qed.

Lemma to_tensor_run (a : ndarray) (st : state A) xs :
  values st a = Some xs → to_tensor a st = Ok (Tensor (shape a) xs, st).
Proof.
  unfold values, to_tensor. intros Hv. apply returns_eq.
  apply returns_bind. eapply returns_run; [| by apply returns_ret].
  unfold read_view. by rewrite Hv.
Qed.

Lemma values_length (a : ndarray) (st : state A) xs :
  values st a = Some xs → length xs = numel (shape a).
Proof.
  unfold values. destruct (heap st !! base a) as [buf|]; [|done]. simpl.
  apply gather_length.
Qed.

Lemma valid_values (a : ndarray) (st : state A) :
  valid st a → is_Some (values st a).
Proof.
  intros (buf & Hb & Hf). unfold values. rewrite Hb. simpl. by apply gather_is_Some.
Qed.

(** [np.mean(keras.losses.mean_squared_error(y_true, y_pred))] on two
    arrays of the same three sizes. *)
Lemma mse_loss_run (y_true y_pred : ndarray) (st : state A) b k d ts ps :
  shape y_true = [b; k; d] → shape y_pred = [b; k; d] →
  values st y_true = Some ts → values st y_pred = Some ps →
  mse_loss y_true y_pred st
  = Ok (mean (mean <$> chunks (numel [b; k]) d (zip_with squared_difference ps ts)), st).
Proof.
  intros Hst Hsp Ht Hp. apply returns_eq. unfold mse_loss.
  apply returns_bind. eapply returns_run; [by apply to_tensor_run |].
  apply returns_bind. eapply returns_run; [by apply to_tensor_run |].
  apply returns_bind. eapply returns_lift.
  { rewrite Hst, Hsp. apply mean_squared_error_run.
    - rewrite <- Hst. by eapply values_length.
    - rewrite <- Hsp. by eapply values_length. }
  by apply returns_ret.
Qed.

End Loss.

(** ** The loss in exact arithmetic *)

Section RealLoss.
Variable rnd : R → R.
Local Open Scope R_scope.








End RealLoss.

(** * Naive forecasting, as a whole *)

Section NaiveForecasting.
Context {A : Type} `{Scalar A}.
Variable c : constants.

Local Abbreviation VB := (VALIDATION_BATCH_SIZE c).
Local Abbreviation m := (N_PREDICTIONS c).
Local Abbreviation F := (N_FEATURES c).

Lemma values_old (a : ndarray) (st : state A) σ :
  valid st a → values (set_heap (heap st ++ σ) st) a = values st a.
Proof.
  intros (buf & Hb & _). unfold values. simpl.
  rewrite lookup_app_l; [done | by eapply lookup_lt_Some].
Qed.

Lemma item_old (a : ndarray) (st : state A) σ idx :
  is_Some (item st a idx) → item (set_heap (heap st ++ σ) st) a idx = item st a idx.
Proof.
  unfold item. simpl. intros [x Hx].
  destruct (heap st !! base a) as [buf|] eqn:Hb; [|done].
  rewrite lookup_app_l; [by rewrite Hb | by eapply lookup_lt_Some].
Qed.

(** The run of [naive_forecasting]: the store grows by new buffers, of
    which the last is the prediction; the loss is computed from the
    elements of the target and of the prediction. *)
Lemma naive_forecasting_run (x_valid y_valid : ndarray) (st : state A) xbuf S ts :
  heap st !! base x_valid = Some xbuf →
  fits (geom x_valid) (length xbuf) = true →
  shape x_valid = [VB; S; F] → 0 < S → 0 < m →
  valid st y_valid → shape y_valid = [VB; m; F] →
  values st y_valid = Some ts →
  ∃ ext obuf,
    let y_pred := NdArray (length (heap st ++ ext)) (contiguous [VB; m; F]) (dt x_valid) in
    let st' := set_heap (heap st ++ ext ++ [obuf]) st in
    naive_forecasting c x_valid y_valid st
      = Ok ((mean (mean <$> chunks (numel [VB; m]) F (zip_with squared_difference obuf ts)),
             y_pred), st')
    ∧ values st' y_pred = Some obuf
    ∧ length obuf = numel [VB; m; F]
    ∧ ∀ i k j, i < VB → k < m → j < F →
        item st' y_pred [i; k; j] = item st x_valid [i; S - 1; j].
Proof.
  intros Hx Hfx Hsh HS Hm Hvy Hshy Hts.
  destruct (naive_prediction_run c x_valid st xbuf S Hx Hfx Hsh HS Hm)
    as (ext & obuf & Hrun & Hlen & Hel).
  exists ext, obuf. cbn zeta. rewrite app_assoc.
  assert (values (set_heap ((heap st ++ ext) ++ [obuf]) st)
            (NdArray (length (heap st ++ ext)) (contiguous [VB; m; F]) (dt x_valid))
          = Some obuf) as Hvp.
  { unfold values. cbn [heap set_heap base geom]. rewrite lookup_snoc. simpl.
    by apply gather_contiguous. }
  split; [| split; [done | split; [done |]]].
  - apply returns_eq. unfold naive_forecasting.
    apply returns_bind. eapply returns_run; [exact Hrun |].
    apply returns_bind. eapply returns_run; [| by apply returns_ret].
    eapply mse_loss_run; [done | done | | done].
    rewrite <- app_assoc. by rewrite values_old.
  - intros i k j Hi Hk Hj. unfold item. cbn [heap set_heap base geom].
    rewrite lookup_snoc, Hx. simpl. by apply Hel.
Qed.

(** C2: the prediction of naive forecasting has sizes (batch, m,
    features), and each of its m steps holds, for every row, the feature
    vector of the last time step of the input: it is constant along the
    m axis. *)
Theorem naive_prediction_repeats_last_step (x_valid y_valid : ndarray) (st : state A) S :
  valid st x_valid → shape x_valid = [VB; S; F] → 0 < S →
  valid st y_valid → shape y_valid = [VB; m; F] → 0 < m →
  ∃ loss y_pred st',
    naive_forecasting c x_valid y_valid st = Ok ((loss, y_pred), st')
    ∧ shape y_pred = [VB; m; F]
    ∧ ∀ i k j, i < VB → k < m → j < F →
        is_Some (item st x_valid [i; S - 1; j])
        ∧ item st' y_pred [i; k; j] = item st x_valid [i; S - 1; j].
Proof.
  intros Hvx Hsh HS Hvy Hshy Hm.
  destruct (valid_values _ _ Hvy) as [ts Hts].
  pose proof Hvx as (xbuf & Hx & Hfx).
  destruct (naive_forecasting_run x_valid y_valid st xbuf S ts) as (ext & obuf & Hrun & _ & _ & Hel);
    try done.
  eexists _, _, _. split; [exact Hrun |]. split; [done |].
  intros i k j Hi Hk Hj. split; [| by apply Hel].
  apply valid_lookup; [done |]. rewrite Hsh. repeat constructor; lia.
Qed.

End NaiveForecasting.

Lemma naive_prediction_repeats_last_step_witness :
  ∃ loss y_pred st',
    naive_forecasting (H := R_scalar (λ x, x)) small
      (NdArray 0 (View 0 [(1, 4); (2, 1); (1, 1)]) Float32)
      (NdArray 0 (View 2 [(1, 4); (2, 1); (1, 1)]) Float32) small_state
    = Ok ((loss, y_pred), st')
    ∧ shape y_pred = [1; 2; 1]
    ∧ ∀ i k j, i < 1 → k < 2 → j < 1 →
        is_Some (item small_state (NdArray 0 (View 0 [(1, 4); (2, 1); (1, 1)]) Float32)
                   [i; 2 - 1; j])
        ∧ item st' y_pred [i; k; j]
          = item small_state (NdArray 0 (View 0 [(1, 4); (2, 1); (1, 1)]) Float32) [i; 2 - 1; j].
Proof.
  apply (naive_prediction_repeats_last_step (H := R_scalar (λ x, x)) small
           (NdArray 0 (View 0 [(1, 4); (2, 1); (1, 1)]) Float32)
           (NdArray 0 (View 2 [(1, 4); (2, 1); (1, 1)]) Float32) small_state 2).
  - eexists. split; reflexivity.
  - reflexivity.
  - lia.
  - eexists. split; reflexivity.
  - reflexivity.
  - simpl. lia.
Defined.

(** Naive forecasting on row 0 of the small series, with two input steps
    (1, 2) and the targets (3, 4): the prediction is (2, 2) and the loss is
    ((2-3)² + (2-4)²) / 2. *)
Example naive_small :
  match naive_forecasting (H := R_scalar (λ x, x)) small
          (NdArray 0 (View 0 [(1, 4); (2, 1); (1, 1)]) Float32)
          (NdArray 0 (View 2 [(1, 4); (2, 1); (1, 1)]) Float32) small_state with
  | Ok ((loss, y_pred), st') =>
      shape y_pred = [1; 2; 1] ∧ heap st' !! base y_pred = Some [2; 2]%R ∧ loss = (5 / 2)%R
  | Raise _ => False
  end.
Proof.
  vm_compute. split; [reflexivity |]. split; [reflexivity |]. lra.
Qed.




(** * The inputs are left as they were *)

Section Frame.
Context {A : Type} `{Scalar A}.
Variable c : constants.

(** C9: with constants of which the predicted steps are among the steps
    (N_PREDICTIONS ≤ N_STEPS, as in the script), the windowing utility and
    naive forecasting return their results in a store of which the store
    before the call is a prefix: every buffer that existed is unchanged,
    and so is every element of every array of the store, among them the
    series and the input and target windows. *)
Theorem inputs_are_left_unchanged (series x_valid y_valid : ndarray) (st : state A) S S' :
  N_PREDICTIONS c ≤ N_STEPS c →
  valid st series →
  shape series = [INITIAL_BATCH_SIZE c; S; N_FEATURES c] →
  N_INPUT_STEPS c + N_PREDICTIONS c ≤ S →
  valid st x_valid →
  shape x_valid = [VALIDATION_BATCH_SIZE c; S'; N_FEATURES c] → 0 < S' →
  valid st y_valid →
  shape y_valid = [VALIDATION_BATCH_SIZE c; N_PREDICTIONS c; N_FEATURES c] →
  0 < N_PREDICTIONS c →
  (∃ Y st', get_sequence_to_sequence_data c series st = Ok (Y, st')
     ∧ heap st `prefix_of` heap st'
     ∧ ∀ a idx, is_Some (item st a idx) → item st' a idx = item st a idx)
  ∧ (∃ r st', naive_forecasting c x_valid y_valid st = Ok (r, st')
     ∧ heap st `prefix_of` heap st'
     ∧ ∀ a idx, is_Some (item st a idx) → item st' a idx = item st a idx).
Proof.
  intros _ (sbuf & Hs & Hfs) Hsh HS Hvx Hshx HS' Hvy Hshy Hm. split.
  - destruct (sequence_targets_run c series st S sbuf Hs Hfs Hsh HS) as (ybuf & Hrun & _).
    eexists _, (set_heap (heap st ++ [ybuf]) st). split; [| split].
    + apply returns_eq. unfold get_sequence_to_sequence_data.
      apply returns_bind. eapply returns_run; [exact Hrun |].
      eapply returns_run; [| done]. apply reshape_contiguous_run. simpl. lia.
    + by exists [ybuf].
    + intros a idx. apply item_old.
  - destruct (valid_values _ _ Hvy) as [ts Hts].
    pose proof Hvx as (xbuf & Hx & Hfx).
    destruct (naive_forecasting_run c x_valid y_valid st xbuf S' ts)
      as (ext & obuf & Hrun & _); try done.
    eexists _, _. split; [exact Hrun | split].
    + by eexists.
    + intros a idx. apply item_old.
Qed.

End Frame.

Lemma inputs_are_left_unchanged_witness :
  let x_valid := NdArray 0 (View 0 [(1, 4); (2, 1); (1, 1)]) Float32 in
  let y_valid := NdArray 0 (View 2 [(1, 4); (2, 1); (1, 1)]) Float32 in
  (∃ Y st', get_sequence_to_sequence_data (H := R_scalar (λ x, x)) small small_series small_state
            = Ok (Y, st')
     ∧ heap small_state `prefix_of` heap st'
     ∧ ∀ a idx, is_Some (item small_state a idx) → item st' a idx = item small_state a idx)
  ∧ (∃ r st', naive_forecasting (H := R_scalar (λ x, x)) small x_valid y_valid small_state
              = Ok (r, st')
     ∧ heap small_state `prefix_of` heap st'
     ∧ ∀ a idx, is_Some (item small_state a idx) → item st' a idx = item small_state a idx).
Proof.
  intros x_valid y_valid.
  apply (inputs_are_left_unchanged (H := R_scalar (λ x, x)) small small_series x_valid y_valid
           small_state 4 2).
  - simpl. lia.
  - eexists. split; reflexivity.
  - reflexivity.
  - simpl. lia.
  - eexists. split; reflexivity.
  - reflexivity.
  - lia.
  - eexists. split; reflexivity.
  - reflexivity.
  - simpl. lia.
Defined.

(** * The partition of the batch *)

(** C4: the counts of the script add up to the batch size
    (900 + 300 + 150 = 1350), and the three partitions that the script
    slices from a series of 1350 rows are the rows [0, 900), [900, 1200)
    and [1200, 1350): row r of the training, validation and test windows is
    row r, 900 + r and 1200 + r of the series, so that the ranges follow one
    another, do not overlap and cover the batch. *)
Theorem partition_splits_the_batch {A : Type} (series : ndarray) (st : state A) :
  shape series = [1350; 200; 2] →
  TRAINING_BATCH_SIZE script + VALIDATION_BATCH_SIZE script + TESTING_BATCH_SIZE script
    = INITIAL_BATCH_SIZE script
  ∧ indices script = (900, 1200)
  ∧ (∀ r, r < INITIAL_BATCH_SIZE script →
       (r < 900 ∧ ¬ 900 ≤ r) ∨ (900 ≤ r < 1200) ∨ (1200 ≤ r < 1350 ∧ ¬ r < 1200))
  ∧ ∃ x_train y_train x_valid y_valid x_test y_test,
      partition script series st
        = Ok ([(x_train, y_train); (x_valid, y_valid); (x_test, y_test)], st)
      ∧ shape x_train = [900; 150; 2] ∧ shape y_train = [900; 50; 2]
      ∧ shape x_valid = [300; 150; 2] ∧ shape y_valid = [300; 50; 2]
      ∧ shape x_test = [150; 150; 2] ∧ shape y_test = [150; 50; 2]
      ∧ ∀ r t f,
          pos (geom x_train) [r; t; f] = pos (geom series) [r; t; f]
          ∧ pos (geom y_train) [r; t; f] = pos (geom series) [r; 150 + t; f]
          ∧ pos (geom x_valid) [r; t; f] = pos (geom series) [900 + r; t; f]
          ∧ pos (geom y_valid) [r; t; f] = pos (geom series) [900 + r; 150 + t; f]
          ∧ pos (geom x_test) [r; t; f] = pos (geom series) [1200 + r; t; f]
          ∧ pos (geom y_test) [r; t; f] = pos (geom series) [1200 + r; 150 + t; f].
Proof.
  intros Hsh. split; [reflexivity |]. split; [reflexivity |]. split; [simpl; lia |].
  destruct (dims_of_shape3 _ _ _ _ Hsh) as (s0 & s1 & s2 & Hdims).
  assert (∀ subs v, subscript_view subs (geom series) = Ok v →
            getitem series subs st = Ok (NdArray (base series) v (dt series), st)) as Hget.
  { intros subs v Hv. by apply getitem_run. }
  unfold partition.
  eexists _, _, _, _, _, _. split.
  { apply returns_eq.
    do 6 (apply returns_bind; eapply returns_run;
      [ apply Hget; unfold subscript_view, v_shape; rewrite Hdims; cbn;
        rewrite ?slice_range_to, ?slice_range_nat, ?slice_range_from,
                ?(slice_range_tail 200 50) by lia;
        reflexivity | ]).
    by apply returns_ret. }
  unfold shape, v_shape, pos. rewrite Hdims. cbn.
  repeat (split; [reflexivity |]).
  intros r t f. repeat split; lia.
Qed.

Lemma partition_splits_the_batch_witness :
  let series := NdArray 0 (contiguous [1350; 200; 2]) Float32 in
  TRAINING_BATCH_SIZE script + VALIDATION_BATCH_SIZE script + TESTING_BATCH_SIZE script
    = INITIAL_BATCH_SIZE script
  ∧ indices script = (900, 1200)
  ∧ (∀ r, r < INITIAL_BATCH_SIZE script →
       (r < 900 ∧ ¬ 900 ≤ r) ∨ (900 ≤ r < 1200) ∨ (1200 ≤ r < 1350 ∧ ¬ r < 1200))
  ∧ ∃ x_train y_train x_valid y_valid x_test y_test,
      partition script series small_state
        = Ok ([(x_train, y_train); (x_valid, y_valid); (x_test, y_test)], small_state)
      ∧ shape x_train = [900; 150; 2] ∧ shape y_train = [900; 50; 2]
      ∧ shape x_valid = [300; 150; 2] ∧ shape y_valid = [300; 50; 2]
      ∧ shape x_test = [150; 150; 2] ∧ shape y_test = [150; 50; 2]
      ∧ ∀ r t f,
          pos (geom x_train) [r; t; f] = pos (geom series) [r; t; f]
          ∧ pos (geom y_train) [r; t; f] = pos (geom series) [r; 150 + t; f]
          ∧ pos (geom x_valid) [r; t; f] = pos (geom series) [900 + r; t; f]
          ∧ pos (geom y_valid) [r; t; f] = pos (geom series) [900 + r; 150 + t; f]
          ∧ pos (geom x_test) [r; t; f] = pos (geom series) [1200 + r; t; f]
          ∧ pos (geom y_test) [r; t; f] = pos (geom series) [1200 + r; 150 + t; f].
Proof.
  intros series.
  apply (partition_splits_the_batch series small_state).
  reflexivity.
Defined.

(** * Element-wise operations *)

Lemma stretch_bindex src dst ds idx :
  stretch src dst = Ok ds → in_range idx dst →
  in_range (bindex (fst <$> src) idx) (fst <$> src)
  ∧ dot idx ds = dot (bindex (fst <$> src) idx) src.
Proof.
  revert dst ds idx. induction src as [|[k s] src IH]; intros dst ds idx Hst Hr.
  - destruct dst; simpl in Hst; [|done]. simplify_eq. apply Forall2_nil_inv_r in Hr as ->.
    split; [constructor | done].
  - destruct dst as [|j dst]; simpl in Hst; [done |].
    destruct (stretch src dst) as [ds'|] eqn:Hds; simpl in Hst; [|done].
    apply Forall2_cons_inv_r in Hr as (i & idx' & Hlt & Hr & ->).
    destruct (IH _ _ _ Hds Hr) as [Hr' Hdot].
    pose proof (Forall2_length _ _ _ Hr) as Hl1.
    assert (length (fst <$> src) = length dst) as Hl2.
    { clear -Hds. revert dst ds' Hds. induction src as [|[k s] src IH]; intros [|j dst] ds' Hds;
        simpl in *; try done.
      destruct (stretch src dst) eqn:E; simpl in Hds; [|done]. f_equal. by eapply IH. }
    unfold bindex in *. rewrite fmap_cons. cbn [length fst].
    rewrite Hl2, <- Hl1, Nat.sub_diag in *. cbn [drop zip_with] in *.
    change (drop 0 idx') with idx' in *.
    repeat case_decide; simplify_eq; cbn [dot]; (split; [constructor; [lia | done] | nia]).
Qed.

Lemma broadcast_dims_bindex src dst ds idx :
  broadcast_dims src dst = Ok ds → length src ≤ length dst → in_range idx dst →
  in_range (bindex (fst <$> src) idx) (fst <$> src)
  ∧ dot idx ds = dot (bindex (fst <$> src) idx) src.
Proof.
  unfold broadcast_dims. intros Hb Hlen Hr.
  replace (length src - length dst) with 0 in Hb by lia. cbn in Hb.
  pose proof (Forall2_length _ _ _ Hr) as Hli.
  destruct (stretch_bindex _ _ _ _ Hb Hr) as [Hr' Hdot]. rewrite Hdot. clear Hb Hdot.
  revert Hr'. unfold bindex. rewrite fmap_app, length_app, !length_fmap, length_replicate.
  replace (length idx - (length dst - length src + length src)) with 0 by lia.
  replace (length idx - length src) with (length dst - length src) by lia.
  rewrite drop_0. generalize (length dst - length src) as j. clear.
  intros j. revert idx. induction j as [|j IH]; intros idx Hr; [by rewrite drop_0 |].
  destruct idx as [|i idx]; cbn in Hr |- *; [by inversion Hr |].
  destruct (decide (1 = 1)); [|done].
  apply Forall2_cons_1 in Hr as [_ Hr]. destruct (IH _ Hr) as [H1 H2]. split; [done | lia].
Qed.

Lemma zip_shapes_stretch s1 s2 sh (d1 d2 : list (nat * nat)) :
  zip_shapes s1 s2 = Ok sh → fst <$> d1 = s1 → fst <$> d2 = s2 →
  (∃ ds, stretch d1 sh = Ok ds) ∧ (∃ ds, stretch d2 sh = Ok ds).
Proof.
  revert s2 sh d1 d2. induction s1 as [|k s1 IH]; intros s2 sh d1 d2 Hz H1 H2.
  - destruct s2; simpl in Hz; [|done]. simplify_eq.
    destruct d1, d2; try done. simpl. eauto.
  - destruct s2 as [|j s2]; simpl in Hz; [done |].
    destruct (zip_shapes s1 s2) as [sh'|] eqn:Hsh; simpl in Hz; [|done].
    destruct d1 as [|[k' t1] d1], d2 as [|[j' t2] d2]; try done.
    rewrite fmap_cons in H1, H2. simplify_eq.
    destruct (IH _ _ d1 d2 Hsh eq_refl eq_refl) as [[ds1 E1] [ds2 E2]].
    repeat case_decide; simplify_eq; cbn [stretch]; rewrite E1, E2; cbn;
      repeat case_decide; try done; eauto.
Qed.

Lemma zip_shapes_length s1 s2 sh :
  zip_shapes s1 s2 = Ok sh → length s1 = length sh ∧ length s2 = length sh.
Proof.
  revert s2 sh. induction s1 as [|k s1 IH]; intros [|j s2] sh Hz; simpl in Hz; try done.
  - by simplify_eq.
  - destruct (zip_shapes s1 s2) as [sh'|] eqn:Hsh; simpl in Hz; [|done].
    destruct (IH _ _ Hsh) as [H1 H2].
    repeat case_decide; simplify_eq; simpl; lia.
Qed.

(** Both operands broadcast to the sizes of the result. *)
Lemma broadcast_shapes_broadcast_to v1 v2 sh :
  broadcast_shapes (v_shape v1) (v_shape v2) = Ok sh →
  length (v_shape v1) ≤ length sh ∧ length (v_shape v2) ≤ length sh
  ∧ (∃ b1, broadcast_to v1 sh = Ok b1) ∧ (∃ b2, broadcast_to v2 sh = Ok b2).
Proof.
  unfold broadcast_shapes. intros Hz.
  destruct (zip_shapes_length _ _ _ Hz) as [Hl1 Hl2].
  rewrite length_app, length_replicate in Hl1, Hl2.
  unfold v_shape in *. rewrite !length_fmap in *.
  destruct (zip_shapes_stretch _ _ _
    (replicate (length (v_dims v2) - length (v_dims v1)) (1, 0) ++ v_dims v1)
    (replicate (length (v_dims v1) - length (v_dims v2)) (1, 0) ++ v_dims v2) Hz)
    as [[ds1 E1] [ds2 E2]].
  { by rewrite fmap_app, fmap_replicate. }
  { by rewrite fmap_app, fmap_replicate. }
  split; [lia |]. split; [lia |].
  unfold broadcast_to, broadcast_dims.
  replace (length (v_dims v1) - length sh) with 0 by lia.
  replace (length (v_dims v2) - length sh) with 0 by lia. cbn.
  replace (length sh - length (v_dims v1)) with (length (v_dims v2) - length (v_dims v1)) by lia.
  replace (length sh - length (v_dims v2)) with (length (v_dims v1) - length (v_dims v2)) by lia.
  rewrite E1, E2. cbn. eauto.
Qed.

Lemma broadcast_to_bindex v sh b idx :
  broadcast_to v sh = Ok b → length (v_shape v) ≤ length sh → in_range idx sh →
  v_shape b = sh
  ∧ in_range (bindex (v_shape v) idx) (v_shape v)
  ∧ pos b idx = pos v (bindex (v_shape v) idx).
Proof.
  intros Hb Hlen Hr. destruct (broadcast_to_spec _ _ _ Hb) as [Hsh _].
  unfold broadcast_to in Hb.
  destruct (broadcast_dims (v_dims v) sh) as [ds|] eqn:Hd; [|done]. cbn in Hb. simplify_eq.
  unfold v_shape in Hlen. rewrite length_fmap in Hlen.
  destruct (broadcast_dims_bindex _ _ _ _ Hd Hlen Hr) as [H1 H2].
  split; [done |]. split; [done |]. unfold pos. cbn. by rewrite H2.
Qed.

Section ElementWise.
Context {A : Type} `{Scalar A}.
Implicit Types (st : state A) (a b : ndarray) (g : list nat → A).

Lemma extends_refl st : extends st st.
Proof. by intros l buf. Qed.

Lemma extends_trans st1 st2 st3 : extends st1 st2 → extends st2 st3 → extends st1 st3.
Proof. intros H12 H23 l buf Hl. by apply H23, H12. Qed.

Lemma extends_app st st' ext : heap st' = heap st ++ ext → extends st st'.
Proof.
  intros Hh l buf Hl. rewrite Hh, lookup_app_l; [done | by eapply lookup_lt_Some].
Qed.

Lemma holds_extends st st' a sh g : holds st a sh g → extends st st' → holds st' a sh g.
Proof. intros (buf & Hb & Hrest) Hext. exists buf. split; [by apply Hext | done]. Qed.

Lemma holds_valid st a sh g : holds st a sh g → valid st a.
Proof. intros (buf & Hb & Hf & _). by exists buf. Qed.

Lemma holds_item st a sh g idx :
  holds st a sh g → in_range idx sh → item st a idx = Some (g idx).
Proof. intros (buf & Hb & _ & _ & Hg) Hr. unfold item. rewrite Hb. simpl. by apply Hg. Qed.

Lemma holds_ext st a sh g g' :
  holds st a sh g → (∀ idx, in_range idx sh → g idx = g' idx) → holds st a sh g'.
Proof.
  intros (buf & Hb & Hf & Hsh & Hg) Heq. exists buf. repeat (split; [done |]).
  intros idx Hr. rewrite <- Heq by done. by apply Hg.
Qed.

(** A view holds the elements of its base array at the embedded indices. *)
Lemma getitem_holds st a sh g subs rs :
  holds st a sh g → resolve subs sh = Ok rs →
  let v := View (v_offset (geom a) + sub_offset rs (v_dims (geom a)))
                (sub_dims rs (v_dims (geom a))) in
  getitem a subs st = Ok (NdArray (base a) v (dt a), st)
  ∧ holds st (NdArray (base a) v (dt a)) (v_shape v) (λ idx, g (embed rs idx)).
Proof.
  intros (buf & Hb & Hf & Hsh & Hg) Hrs v. subst v.
  assert (subscript_view subs (geom a)
          = Ok (View (v_offset (geom a) + sub_offset rs (v_dims (geom a)))
                     (sub_dims rs (v_dims (geom a))))) as Hv.
  { unfold subscript_view. fold (shape a). by rewrite Hsh, Hrs. }
  split; [by apply getitem_run |].
  exists buf. cbn [base geom]. split; [done |]. split; [by eapply subscript_view_fits |].
  split; [done |]. intros idx Hr.
  destruct (subscript_view_spec _ _ _ Hv) as (rs' & Hrs' & _ & Hidx).
  fold (shape a) in Hrs'. rewrite Hsh, Hrs in Hrs'.
  assert (rs' = rs) as -> by congruence.
  destruct (Hidx idx Hr) as [Hr' ->]. apply Hg. by rewrite <- Hsh.
Qed.

Lemma alloc_returns st sh d (data : list A) g :
  length data = numel sh →
  (∀ idx, in_range idx sh → data !! dot idx (c_dims sh) = Some (g idx)) →
  returns (alloc sh d data) st (λ r st',
    extends st st' ∧ rng st' = rng st ∧ holds st' r sh g ∧ fresh st' r sh ∧ dt r = d).
Proof.
  intros Hlen Hg. eapply returns_run; [reflexivity |].
  split; [by eapply extends_app |]. split; [done |]. split; [| split; [| done]].
  - exists data. cbn [heap set_heap base geom]. split; [apply lookup_snoc |].
    split; [apply fits_contiguous; lia |]. split.
    { unfold shape, v_shape. cbn. apply shape_c_dims. }
    intros idx Hr. unfold pos. cbn. by apply Hg.
  - split; [done |]. exists data. cbn [heap set_heap base]. split; [apply lookup_snoc | done].
Qed.

Lemma ufunc1_returns st a sh g (f : A → A) :
  holds st a sh g →
  returns (ufunc1 f a) st (λ r st',
    extends st st' ∧ rng st' = rng st ∧ holds st' r sh (λ idx, f (g idx))
    ∧ fresh st' r sh ∧ dt r = dt a).
Proof.
  intros (buf & Hb & Hf & Hsh & Hg). unfold ufunc1.
  destruct (read_view_run st _ _ _ Hb Hf) as (xs & Hread & Hgather).
  apply returns_bind. eapply returns_run; [exact Hread |]. rewrite Hsh.
  apply alloc_returns.
  - rewrite length_fmap, (gather_length _ _ _ Hgather). by fold (shape a); rewrite Hsh.
  - intros idx Hr. rewrite list_lookup_fmap.
    destruct (gather_lookup _ _ _ idx Hgather) as [Hlk _]; [by fold (shape a); rewrite Hsh |].
    fold (shape a) in Hlk. rewrite Hsh in Hlk. rewrite Hlk, Hg by done. done.
Qed.

Lemma ufunc2_returns st a b sha shb sh ga gb (f : A → A → A) :
  holds st a sha ga → holds st b shb gb →
  broadcast_shapes sha shb = Ok sh →
  returns (ufunc2 f a b) st (λ r st',
    extends st st' ∧ rng st' = rng st
    ∧ holds st' r sh (λ idx, f (ga (bindex sha idx)) (gb (bindex shb idx)))
    ∧ fresh st' r sh ∧ dt r = Float64).
Proof.
  intros (abuf & Hab & Hfa & Hsha & Hga) (bbuf & Hbb & Hfb & Hshb & Hgb) Hbs.
  unfold ufunc2. rewrite Hsha, Hshb.
  apply returns_bind. eapply returns_lift; [exact Hbs |].
  rewrite <- Hsha, <- Hshb in Hbs.
  destruct (broadcast_shapes_broadcast_to _ _ _ Hbs) as (Hla & Hlb & [va Hva] & [vb Hvb]).
  apply returns_bind. eapply returns_lift; [exact Hva |].
  apply returns_bind. eapply returns_lift; [exact Hvb |].
  destruct (read_view_run st _ _ _ Hab (broadcast_to_fits _ _ _ _ Hva Hfa))
    as (xs & Hrx & Hgx).
  destruct (read_view_run st _ _ _ Hbb (broadcast_to_fits _ _ _ _ Hvb Hfb))
    as (ys & Hry & Hgy).
  apply returns_bind. eapply returns_run; [exact Hrx |].
  apply returns_bind. eapply returns_run; [exact Hry |].
  destruct (broadcast_to_spec _ _ _ Hva) as [Hsva _].
  destruct (broadcast_to_spec _ _ _ Hvb) as [Hsvb _].
  pose proof (gather_length _ _ _ Hgx) as Hlx. rewrite Hsva in Hlx.
  pose proof (gather_length _ _ _ Hgy) as Hly. rewrite Hsvb in Hly.
  apply alloc_returns.
  - rewrite length_zip_with. lia.
  - intros idx Hr.
    destruct (broadcast_to_bindex _ _ _ idx Hva Hla Hr) as (_ & Hra & Hpa).
    destruct (broadcast_to_bindex _ _ _ idx Hvb Hlb Hr) as (_ & Hrb & Hpb).
    destruct (gather_lookup _ _ _ idx Hgx) as [Hx _]; [by rewrite Hsva |].
    destruct (gather_lookup _ _ _ idx Hgy) as [Hy _]; [by rewrite Hsvb |].
    rewrite Hsva, Hpa in Hx. rewrite Hsvb, Hpb in Hy.
    fold (shape a) in Hra, Hx. fold (shape b) in Hrb, Hy.
    rewrite Hsha in Hra, Hx. rewrite Hshb in Hrb, Hy.
    rewrite (Hga _ Hra) in Hx. rewrite (Hgb _ Hrb) in Hy.
    apply lookup_zip_with_Some. eauto.
Qed.

End ElementWise.

Section MoreOperations.
Context {A : Type} `{Scalar A}.
Implicit Types (st : state A) (a b : ndarray) (g : list nat → A).

Lemma astype_returns st a sh g d :
  holds st a sh g →
  returns (astype a d) st (λ r st',
    extends st st' ∧ rng st' = rng st ∧ holds st' r sh (λ idx, convert (dt a) d (g idx))
    ∧ fresh st' r sh ∧ dt r = d).
Proof.
  intros (buf & Hb & Hf & Hsh & Hg). unfold astype.
  destruct (read_view_run st _ _ _ Hb Hf) as (xs & Hread & Hgather).
  apply returns_bind. eapply returns_run; [exact Hread |]. rewrite Hsh.
  apply alloc_returns.
  - rewrite length_fmap, (gather_length _ _ _ Hgather). by fold (shape a); rewrite Hsh.
  - intros idx Hr. rewrite list_lookup_fmap.
    destruct (gather_lookup _ _ _ idx Hgather) as [Hlk _]; [by fold (shape a); rewrite Hsh |].
    fold (shape a) in Hlk. rewrite Hsh in Hlk. rewrite Hlk, Hg by done. done.
Qed.

Lemma random_rand_returns st sh :
  returns (random_rand sh) st (λ r st',
    extends st st' ∧ rng st' = (λ i, rng st (numel sh + i))
    ∧ holds st' r sh (λ idx, rng st (dot idx (c_dims sh)))
    ∧ fresh st' r sh ∧ dt r = Float64).
Proof.
  eapply returns_run; [reflexivity |].
  set (data := rng st <$> seq 0 (numel sh)).
  assert (length data = numel sh) as Hlen by (unfold data; by rewrite length_fmap, length_seq).
  split; [by eapply extends_app |]. split; [done |]. split; [| split; [| done]].
  - exists data. cbn [heap set_heap set_rng base geom]. split; [apply lookup_snoc |].
    split; [apply fits_contiguous; lia |]. split.
    { unfold shape, v_shape. cbn. apply shape_c_dims. }
    intros idx Hr. unfold pos, data. cbn. rewrite list_lookup_fmap.
    rewrite lookup_seq_lt by (by apply dot_c_dims_lt). done.
  - split; [done |]. exists data. cbn [heap set_heap set_rng base].
    split; [apply lookup_snoc | done].
Qed.

Lemma np_linspace01_returns st k :
  returns (np_linspace01 k) st (λ r st',
    extends st st' ∧ rng st' = rng st
    ∧ holds st' r [k] (λ idx, linspace01_at k (idx !!! 0))
    ∧ fresh st' r [k] ∧ dt r = Float64).
Proof.
  unfold np_linspace01. apply alloc_returns.
  - rewrite length_fmap, length_seq. simpl. lia.
  - intros idx Hr. apply Forall2_cons_inv_r in Hr as (j & idx' & Hj & Hr & ->).
    apply Forall2_nil_inv_r in Hr as ->. cbn.
    rewrite list_lookup_fmap, lookup_seq_lt by lia. cbn.
    by replace (j * 1 + 0) with j by lia.
Qed.

(** [a += b] on a C-order array that fills its buffer. *)
Lemma iadd_returns st a b sh ga gb :
  holds st a sh ga → fresh st a sh → dt a = Float64 → holds st b sh gb →
  returns (iadd a b) st (λ _ st',
    rng st' = rng st
    ∧ holds st' a sh (λ idx, add (ga idx) (gb idx))
    ∧ fresh st' a sh).
Proof.
  intros (abuf & Hab & Hfa & Hsha & Hga) (Hgeom & abuf' & Hab' & Hla) Hdt
         (bbuf & Hbb & Hfb & Hshb & Hgb).
  assert (abuf' = abuf) as -> by congruence.
  unfold iadd. rewrite Hsha, <- Hshb.
  unfold shape. rewrite broadcast_to_same. fold (shape b). rewrite Hshb, <- Hsha.
  destruct (read_view_run st _ _ _ Hab Hfa) as (xs & Hrx & Hgx).
  destruct (read_view_run st _ _ _ Hbb Hfb) as (ys & Hry & Hgy).
  pose proof (gather_length _ _ _ Hgx) as Hlx. fold (shape a) in Hlx.
  pose proof (gather_length _ _ _ Hgy) as Hly. fold (shape b) in Hly.
  rewrite Hsha in Hlx. rewrite Hshb in Hly.
  eapply returns_run; [cbn beta; rewrite Hrx, Hry, Hab; reflexivity |].
  destruct (write_view abuf (geom a) (zip_with add xs ys) (convert Float64 (dt a)))
    as (Hlw & Hin & _).
  { rewrite Hgeom. apply no_overlap_contiguous. }
  { done. }
  { fold (shape a). rewrite Hsha, length_zip_with. lia. }
  cbn zeta in *. fold (shape a) in Hin, Hlw. rewrite Hsha in *.
  set (buf' := write_all _ abuf) in *.
  assert (heap (set_heap (<[base a := buf']> (heap st)) st) !! base a = Some buf') as Hnew.
  { cbn [heap set_heap]. apply list_lookup_insert_eq. by eapply lookup_lt_Some. }
  split; [done |]. split.
  - exists buf'. split; [done |]. split; [by rewrite Hlw |]. split; [done |].
    intros idx Hr. rewrite (Hin idx Hr), Hdt, convert_same.
    destruct (gather_lookup _ _ _ idx Hgx) as [Hx _]; [by fold (shape a); rewrite Hsha |].
    destruct (gather_lookup _ _ _ idx Hgy) as [Hy _]; [by fold (shape b); rewrite Hshb |].
    fold (shape a) in Hx. fold (shape b) in Hy. rewrite Hsha in Hx. rewrite Hshb in Hy.
    rewrite (Hga _ Hr) in Hx. rewrite (Hgb _ Hr) in Hy.
    assert (zip_with add xs ys !! dot idx (c_dims sh) = Some (add (ga idx) (gb idx))) as ->.
    { apply lookup_zip_with_Some. eauto. }
    done.
  - split; [done |]. exists buf'. split; [done | by rewrite Hlw].
Qed.

(** The array of sizes (b, s) seen with the sizes (b, s, 1). *)
Lemma reshape_add_axis st a k s g :
  holds st a [k; s] g → fresh st a [k; s] →
  returns (reshape a [k; s; 1]) st (λ r st',
    st' = st ∧ holds st r [k; s; 1] (λ idx, g (take 2 idx)) ∧ dt r = dt a).
Proof.
  intros (buf & Hb & Hf & Hsh & Hg) (Hgeom & buf' & Hb' & Hlen).
  assert (buf' = buf) as -> by congruence.
  assert (a = NdArray (base a) (contiguous [k; s]) (dt a)) as Ha.
  { destruct a. simpl in *. by subst. }
  rewrite Ha. eapply returns_run; [apply reshape_contiguous_run; simpl; lia |].
  split; [done |]. split; [| done].
  exists buf. cbn [base geom]. split; [done |].
  split; [apply fits_contiguous; simpl in *; lia |]. split; [done |].
  intros idx Hr.
  apply Forall2_cons_inv_r in Hr as (i & idx1 & Hi & Hr & ->).
  apply Forall2_cons_inv_r in Hr as (j & idx2 & Hj & Hr & ->).
  apply Forall2_cons_inv_r in Hr as (z & idx3 & Hz & Hr & ->).
  apply Forall2_nil_inv_r in Hr as ->. cbn [take].
  rewrite <- (Hg [i; j]) by (repeat constructor; done).
  rewrite Hgeom. f_equal. unfold pos. cbn. lia.
Qed.

(** [np.repeat(a, reps, axis=2)] on an array of three axes. *)
Lemma np_repeat_last_axis st a k s d g reps :
  holds st a [k; s; d] g →
  returns (np_repeat a reps 2) st (λ r st',
    extends st st' ∧ rng st' = rng st
    ∧ holds st' r [k; s; d * reps] (λ idx, g (<[2 := (idx !!! 2) / reps]> idx))
    ∧ fresh st' r [k; s; d * reps] ∧ dt r = dt a).
Proof.
  intros (buf & Hb & Hf & Hsh & Hg). unfold np_repeat. rewrite Hsh.
  rewrite decide_True by (simpl; lia). cbn [lookup_total list_lookup_total list_insert insert].
  assert (∀ idx, in_range idx [k; s; d * reps] →
            buf !! pos (geom a) (<[2 := (idx !!! 2) / reps]> idx)
            = Some (g (<[2 := (idx !!! 2) / reps]> idx))) as Hel.
  { intros idx Hr.
    apply Forall2_cons_inv_r in Hr as (i & idx1 & Hi & Hr & ->).
    apply Forall2_cons_inv_r in Hr as (j & idx2 & Hj & Hr & ->).
    apply Forall2_cons_inv_r in Hr as (f & idx3 & Hf' & Hr & ->).
    apply Forall2_nil_inv_r in Hr as ->. cbn.
    apply Hg. repeat constructor; [done | done |].
    apply Nat.Div0.div_lt_upper_bound. lia. }
  destruct (mapM (λ idx, buf !! pos (geom a) (<[2 := (idx !!! 2) / reps]> idx))
              (ndindex [k; s; d * reps])) as [xs|] eqn:Hxs.
  2:{ exfalso. assert (is_Some (mapM (λ idx, buf !! pos (geom a)
                (<[2 := (idx !!! 2) / reps]> idx)) (ndindex [k; s; d * reps]))) as [? ?];
        [| congruence].
      apply mapM_is_Some, Forall_forall. intros idx Hin. simpl.
      rewrite Hel; [done | by apply elem_of_ndindex]. }
  pose proof Hxs as Hxs'. apply mapM_Some in Hxs'.
  assert (returns (alloc [k; s; d * reps] (dt a) xs) st (λ r st',
    extends st st' ∧ rng st' = rng st
    ∧ holds st' r [k; s; d * reps] (λ idx, g (<[2 := (idx !!! 2) / reps]> idx))
    ∧ fresh st' r [k; s; d * reps] ∧ dt r = dt a)) as Halloc.
  { apply alloc_returns.
    - apply Forall2_length in Hxs'. by rewrite <- Hxs', length_ndindex.
    - intros idx Hr.
      destruct (Forall2_lookup_l _ _ _ _ _ Hxs' (ndindex_lookup _ _ Hr)) as (x & Hx & Hbx).
      rewrite Hx, <- Hbx. by apply Hel. }
  destruct Halloc as (r & st' & Hrun & Hpost). exists r, st'. split; [| done].
  rewrite Hb. simpl. cbn in Hxs. rewrite Hxs. exact Hrun.
Qed.

End MoreOperations.

(** * The series generator *)

Lemma broadcast_shapes_row_column s b : broadcast_shapes [s] [b; 1] = Ok [b; s].
Proof.
  unfold broadcast_shapes. cbn. repeat case_decide; cbn; repeat case_decide; subst; done.
Qed.

Lemma broadcast_shapes_matrix_column b s : broadcast_shapes [b; s] [b; 1] = Ok [b; s].
Proof.
  unfold broadcast_shapes. cbn. repeat case_decide; cbn; repeat case_decide; subst; done.
Qed.

Section Generator.
Context {A : Type} `{Scalar A}.
Implicit Types (st : state A) (a : ndarray) (g : list nat → A).

Lemma fresh_extends st st' a sh : fresh st a sh → extends st st' → fresh st' a sh.
Proof.
  intros (Hg & buf & Hb & Hl) Hext. split; [done |]. exists buf. split; [by apply Hext | done].
Qed.

(** Row [k] of the array drawn by [np.random.rand(4, b, 1)]. *)
Lemma getitem_row st r b g (k : nat) :
  holds st r [4; b; 1] g → fresh st r [4; b; 1] → k < 4 →
  returns (getitem r [At (Z.of_nat k)]) st (λ a st',
    st' = st ∧ holds st a [b; 1] (λ idx, g (k :: idx))).
Proof.
  intros Hr (Hgeom & _) Hk.
  destruct (getitem_holds st r _ g [At (Z.of_nat k)] [RAt k] Hr) as [Hrun Hh].
  { cbn. by rewrite norm_index_nat. }
  rewrite Hgeom in Hrun, Hh.
  eapply returns_run; [exact Hrun |]. split; [done |]. exact Hh.
Qed.

Lemma ufunc1_new st a (f : A → A) r st' :
  ufunc1 f a st = Ok (r, st') → heap st !! base r = None.
Proof.
  unfold ufunc1, mbind, M_bind, read_view, alloc.
  destruct (heap st !! base a ≫= _); [|done].
  intros Heq. simplify_eq. simpl. by apply lookup_ge_None_2.
Qed.

Lemma iadd_frame st a b u st' :
  iadd a b st = Ok (u, st') → ∀ l, l ≠ base a → heap st' !! l = heap st !! l.
Proof.
  unfold iadd. intros Heq l Hl.
  destruct (broadcast_to _ _); [|done].
  destruct (read_view (base a) _ st) as [[? ?]|]; [|done].
  destruct (read_view (base b) _ st) as [[? ?]|]; [|done].
  destruct (heap st !! base a); [|done].
  simplify_eq. simpl. by apply list_lookup_insert_ne.
Qed.

Lemma extends_frame st0 st st' l :
  extends st0 st → heap st0 !! l = None →
  (∀ l', l' ≠ l → heap st' !! l' = heap st !! l') → extends st0 st'.
Proof.
  intros Hext Hnone Hframe l' buf Hl'.
  rewrite Hframe; [by apply Hext | congruence].
Qed.

(** One step of a run: the operation returns, and the facts about the
    arrays of the store are carried to the state after it. *)
Ltac carry Hext :=
  repeat match goal with
  | Hh : holds ?st _ _ _, Hx : extends ?st _ |- _ =>
      apply (λ h, holds_extends _ _ _ _ _ h Hx) in Hh
  | Hf : fresh ?st _ _, Hx : extends ?st _ |- _ =>
      apply (λ h, fresh_extends _ _ _ _ h Hx) in Hf
  end; clear Hext.

(** The run of [generate_time_series]: the array returned is new, of
    dtype float32, and holds at (i, j, f) the waveform of row i at step
    j, converted to 32-bit precision. *)
Lemma generate_time_series_run (c : constants) (b s : nat) st :
  returns (generate_time_series c b s) st (λ series st',
    extends st st'
    ∧ dt series = Float32
    ∧ fresh st' series [b; s; N_FEATURES c]
    ∧ holds st' series [b; s; N_FEATURES c]
        (λ idx, round32 (waveform (rng st) b s (idx !!! 0) (idx !!! 1)))).
Proof.
  unfold generate_time_series.
  apply returns_bind. eapply returns_mono; [apply random_rand_returns |].
  intros r st1 (Hext & Hrng & Hr & Hfr & _). cbn beta.
  pose proof (extends_trans _ _ _ (extends_refl st) Hext) as Hall. clear Hext.
  apply returns_bind.
  eapply returns_mono; [eapply (getitem_row st1 r b _ 0); [exact Hr | exact Hfr | lia] |].
  intros freq1 ? (-> & Hfreq1). cbn beta.
  apply returns_bind.
  eapply returns_mono; [eapply (getitem_row st1 r b _ 1); [exact Hr | exact Hfr | lia] |].
  intros freq2 ? (-> & Hfreq2). cbn beta.
  apply returns_bind.
  eapply returns_mono; [eapply (getitem_row st1 r b _ 2); [exact Hr | exact Hfr | lia] |].
  intros offsets1 ? (-> & Hoffsets1). cbn beta.
  apply returns_bind.
  eapply returns_mono; [eapply (getitem_row st1 r b _ 3); [exact Hr | exact Hfr | lia] |].
  intros offsets2 ? (-> & Hoffsets2). cbn beta.
  clear Hr Hfr.
  (* time *)
  apply returns_bind. eapply returns_mono; [apply np_linspace01_returns |].
  intros time st2 (Hext & Hrng2 & Htime & _ & _). cbn beta.
  rewrite Hrng in Hrng2. clear Hrng.
  pose proof (extends_trans _ _ _ Hall Hext) as Hall2. clear Hall. carry Hext.
  (* the first sinusoid *)
  apply returns_bind. eapply returns_mono;
    [eapply ufunc2_returns; [exact Htime | exact Hoffsets1 | apply broadcast_shapes_row_column] |].
  intros d1 st3 (Hext & Hrng3 & Hd1 & _ & _). cbn beta.
  rewrite Hrng2 in Hrng3. clear Hrng2.
  pose proof (extends_trans _ _ _ Hall2 Hext) as Hall3. clear Hall2. carry Hext.
  apply returns_bind. eapply returns_mono; [eapply ufunc1_returns; exact Hfreq1 |].
  intros f1 st4 (Hext & Hrng4 & Hf1 & _ & _). cbn beta.
  rewrite Hrng3 in Hrng4. clear Hrng3.
  pose proof (extends_trans _ _ _ Hall3 Hext) as Hall4. clear Hall3. carry Hext.
  apply returns_bind. eapply returns_mono; [eapply ufunc1_returns; exact Hf1 |].
  intros f1' st5 (Hext & Hrng5 & Hf1' & _ & _). cbn beta.
  rewrite Hrng4 in Hrng5. clear Hrng4.
  pose proof (extends_trans _ _ _ Hall4 Hext) as Hall5. clear Hall4. carry Hext.
  apply returns_bind. eapply returns_mono;
    [eapply ufunc2_returns; [exact Hd1 | exact Hf1' | apply broadcast_shapes_matrix_column] |].
  intros a1 st6 (Hext & Hrng6 & Ha1 & _ & Hdta1). cbn beta.
  rewrite Hrng5 in Hrng6. clear Hrng5.
  pose proof (extends_trans _ _ _ Hall5 Hext) as Hall6. clear Hall5. carry Hext.
  apply returns_bind. eapply returns_mono; [eapply ufunc1_returns; exact Ha1 |].
  intros s1 st7 (Hext & Hrng7 & Hs1 & _ & Hdts1). cbn beta.
  rewrite Hrng6 in Hrng7. clear Hrng6.
  pose proof (extends_trans _ _ _ Hall6 Hext) as Hall7. clear Hall6. carry Hext.
  apply returns_bind. eapply returns_mono.
  { eapply returns_and; [eapply ufunc1_returns; exact Hs1 |].
    intros x st' Hrun. exact (ufunc1_new _ _ _ _ _ Hrun). }
  intros series st8 ((Hext & Hrng8 & Hseries & Hfresh & Hdt) & Hnew). cbn beta.
  rewrite Hrng7 in Hrng8. clear Hrng7.
  rewrite Hdts1, Hdta1 in Hdt. clear Hdts1 Hdta1.
  assert (heap st !! base series = None) as Hnew0.
  { destruct (heap st !! base series) as [buf|] eqn:Hb; [| done].
    apply Hall7 in Hb. congruence. }
  clear Hnew.
  pose proof (extends_trans _ _ _ Hall7 Hext) as Hall8. clear Hall7. carry Hext.
  clear Hd1 Hf1 Hf1' Ha1 Hs1 Hfreq1 Hoffsets1 d1 f1 f1' a1 s1.
  (* the second sinusoid *)
  apply returns_bind. eapply returns_mono;
    [eapply ufunc2_returns; [exact Htime | exact Hoffsets2 | apply broadcast_shapes_row_column] |].
  intros d2 st9 (Hext & Hrng9 & Hd2 & _ & _). cbn beta.
  rewrite Hrng8 in Hrng9. clear Hrng8.
  pose proof (extends_trans _ _ _ Hall8 Hext) as Hall9. clear Hall8. carry Hext.
  apply returns_bind. eapply returns_mono; [eapply ufunc1_returns; exact Hfreq2 |].
  intros f2 st10 (Hext & Hrng10 & Hf2 & _ & _). cbn beta.
  rewrite Hrng9 in Hrng10. clear Hrng9.
  pose proof (extends_trans _ _ _ Hall9 Hext) as Hall10. clear Hall9. carry Hext.
  apply returns_bind. eapply returns_mono; [eapply ufunc1_returns; exact Hf2 |].
  intros f2' st11 (Hext & Hrng11 & Hf2' & _ & _). cbn beta.
  rewrite Hrng10 in Hrng11. clear Hrng10.
  pose proof (extends_trans _ _ _ Hall10 Hext) as Hall11. clear Hall10. carry Hext.
  apply returns_bind. eapply returns_mono;
    [eapply ufunc2_returns; [exact Hd2 | exact Hf2' | apply broadcast_shapes_matrix_column] |].
  intros a2 st12 (Hext & Hrng12 & Ha2 & _ & _). cbn beta.
  rewrite Hrng11 in Hrng12. clear Hrng11.
  pose proof (extends_trans _ _ _ Hall11 Hext) as Hall12. clear Hall11. carry Hext.
  apply returns_bind. eapply returns_mono; [eapply ufunc1_returns; exact Ha2 |].
  intros s2 st13 (Hext & Hrng13 & Hs2 & _ & _). cbn beta.
  rewrite Hrng12 in Hrng13. clear Hrng12.
  pose proof (extends_trans _ _ _ Hall12 Hext) as Hall13. clear Hall12. carry Hext.
  apply returns_bind. eapply returns_mono; [eapply ufunc1_returns; exact Hs2 |].
  intros w2 st14 (Hext & Hrng14 & Hw2 & _ & _). cbn beta.
  rewrite Hrng13 in Hrng14. clear Hrng13.
  pose proof (extends_trans _ _ _ Hall13 Hext) as Hall14. clear Hall13. carry Hext.
  clear Hd2 Hf2 Hf2' Ha2 Hs2 Hfreq2 Hoffsets2 Htime d2 f2 f2' a2 s2.
  apply returns_bind. eapply returns_mono.
  { eapply returns_and;
      [eapply iadd_returns; [exact Hseries | exact Hfresh | exact Hdt | exact Hw2] |].
    intros x st' Hrun. exact (iadd_frame _ _ _ _ _ Hrun). }
  intros [] st15 ((Hrng15 & Hseries' & Hfresh') & Hframe). cbn beta.
  rewrite Hrng14 in Hrng15. clear Hrng14 Hseries Hfresh Hw2.
  pose proof (extends_frame _ _ _ _ Hall14 Hnew0 Hframe) as Hall15. clear Hall14 Hframe.
  (* the noise *)
  apply returns_bind. eapply returns_mono; [apply random_rand_returns |].
  intros u st16 (Hext & Hrng16 & Hu & _ & _). cbn beta.
  rewrite Hrng15 in Hu. clear Hrng15 Hrng16.
  pose proof (extends_trans _ _ _ Hall15 Hext) as Hall16. clear Hall15. carry Hext.
  apply returns_bind. eapply returns_mono; [eapply ufunc1_returns; exact Hu |].
  intros u' st17 (Hext & _ & Hu' & _ & _). cbn beta.
  pose proof (extends_trans _ _ _ Hall16 Hext) as Hall17. clear Hall16. carry Hext.
  apply returns_bind. eapply returns_mono; [eapply ufunc1_returns; exact Hu' |].
  intros noise st18 (Hext & _ & Hnoise & _ & _). cbn beta.
  pose proof (extends_trans _ _ _ Hall17 Hext) as Hall18. clear Hall17. carry Hext.
  clear Hu Hu' u u'.
  apply returns_bind. eapply returns_mono.
  { eapply returns_and;
      [eapply iadd_returns; [exact Hseries' | exact Hfresh' | exact Hdt | exact Hnoise] |].
    intros x st' Hrun. exact (iadd_frame _ _ _ _ _ Hrun). }
  intros [] st19 ((_ & Hseries & Hfresh) & Hframe). cbn beta.
  clear Hseries' Hfresh' Hnoise.
  pose proof (extends_frame _ _ _ _ Hall18 Hnew0 Hframe) as Hall19. clear Hall18 Hframe.
  (* the features *)
  apply returns_bind. eapply returns_mono; [eapply reshape_add_axis; eassumption |].
  intros series3 ? (-> & Hseries3 & Hdt3). cbn beta.
  apply returns_bind. eapply returns_mono; [eapply np_repeat_last_axis; exact Hseries3 |].
  intros rep st20 (Hext & _ & Hrep & _ & Hdtrep). cbn beta.
  pose proof (extends_trans _ _ _ Hall19 Hext) as Hall20. clear Hall19. carry Hext.
  eapply returns_mono; [eapply astype_returns; exact Hrep |].
  intros out st21 (Hext & _ & Hout & Hfout & Hdtout). cbn beta.
  pose proof (extends_trans _ _ _ Hall20 Hext) as Hall21. clear Hall20.
  split; [done |]. split; [done |].
  rewrite Nat.mul_1_l in Hout, Hfout. split; [done |].
  eapply holds_ext; [exact Hout |].
  intros idx Hr.
  apply Forall2_cons_inv_r in Hr as (i & idx1 & Hi & Hr & ->).
  apply Forall2_cons_inv_r in Hr as (j & idx2 & Hj & Hr & ->).
  apply Forall2_cons_inv_r in Hr as (f & idx3 & Hf & Hr & ->).
  apply Forall2_nil_inv_r in Hr as ->.
  rewrite Hdtrep, Hdt3, Hdt. cbn.
  assert (i < 1 → i = 0) as Hi0 by lia. assert (j < 1 → j = 0) as Hj0 by lia.
  destruct (decide (b = 1)), (decide (s = 1)), (decide (1 = 1)); try done; subst;
    try rewrite (Hi0 Hi); try rewrite (Hj0 Hj);
    unfold waveform, wave1, wave2, noise_at, frequency1, frequency2, time_at; cbn;
    repeat (f_equal; try lia).
Qed.

End Generator.

(** C3: for every batch size b and step count s, the generated series has
    the sizes (b, s, 2) and the dtype float32, and its two feature columns
    hold the same elements. *)
Theorem generated_series_shape_and_features {A : Type} `{Scalar A} (b s : nat) (st : state A) :
  ∃ series st',
    generate_time_series script b s st = Ok (series, st')
    ∧ shape series = [b; s; 2]
    ∧ dt series = Float32
    ∧ ∀ i j, i < b → j < s →
        is_Some (item st' series [i; j; 0])
        ∧ item st' series [i; j; 0] = item st' series [i; j; 1].
Proof.
  destruct (generate_time_series_run script b s st)
    as (series & st' & Hrun & _ & Hdt & _ & Hholds).
  exists series, st'. split; [done |]. split; [by destruct Hholds as (? & _ & _ & ? & _) |].
  split; [done |]. intros i j Hi Hj.
  rewrite !(holds_item _ _ _ _ _ Hholds) by (repeat constructor; simpl; lia).
  split; [by eexists | done].
Qed.

(** ** The range of the series, in exact arithmetic *)

Section RealSeries.
Variable rnd : R → R.
Variables (u : nat → R) (b s : nat).
Hypothesis samples : ∀ k, (0 <= u k < 1)%R.
Local Open Scope R_scope.







End RealSeries.



(** * The metric of the last time step *)

Section LastStep.
Context {A : Type} `{Scalar A}.

Lemma mean_squared_error_same sh d (ts ps : list A) :
  length ts = numel (sh ++ [d]) → length ps = numel (sh ++ [d]) →
  mean_squared_error (Tensor (sh ++ [d]) ts) (Tensor (sh ++ [d]) ps)
  = Ok (Tensor sh (mean <$> chunks (numel sh) d (zip_with squared_difference ps ts))).
Proof.
  intros Ht Hp. unfold mean_squared_error. rewrite tensor_map2_same by done.
  cbn [mbind result_bind]. unfold mean_last_axis. cbn [tshape tdata].
  rewrite last_snoc, length_app. cbn [length].
  replace (length sh + 1 - 1) with (length sh) by lia.
  by rewrite take_app_length.
Qed.

(** The slice [t[:, -1]] of a tensor of three axes. *)
Lemma tensor_last_step b s d (xs : list A) :
  length xs = numel [b; s; d] → 0 < s →
  ∃ ys, tensor_getitem (Tensor [b; s; d] xs) [All; At (-1)] = Ok (Tensor [b; d] ys)
    ∧ length ys = numel [b; d]
    ∧ ∀ i j, i < b → j < d →
        ys !! dot [i; j] (c_dims [b; d]) = xs !! dot [i; s - 1; j] (c_dims [b; s; d]).
Proof.
  intros Hlen Hs. unfold tensor_getitem. cbn [tshape tdata].
  assert (∃ v, subscript_view [All; At (-1)] (contiguous [b; s; d]) = Ok v
    ∧ v_shape v = [b; d]
    ∧ ∀ i j, pos v [i; j] = dot [i; s - 1; j] (c_dims [b; s; d])) as (v & Hv & Hsh & Hpos).
  { unfold subscript_view, v_shape, pos. cbn. rewrite norm_index_last by done. cbn.
    eexists. split; [done |]. cbn. split; [done | intros; lia]. }
  rewrite Hv. cbn [mbind result_bind].
  assert (fits v (length xs) = true) as Hf.
  { eapply subscript_view_fits; [exact Hv |]. apply fits_contiguous. lia. }
  destruct (gather_is_Some xs v Hf) as [ys Hys]. rewrite Hys. cbn. rewrite Hsh.
  exists ys. split; [done |]. split.
  - by rewrite (gather_length _ _ _ Hys), Hsh.
  - intros i j Hi Hj. destruct (gather_lookup _ _ _ [i; j] Hys) as [Hlk _].
    { rewrite Hsh. repeat constructor; done. }
    rewrite Hsh, Hpos in Hlk. exact Hlk.
Qed.

End LastStep.

(** * Calls of the framework *)

Section Framework.
Context {A : Type} `{Scalar A} `{Keras A}.
Implicit Types (st : state A) (a x y : ndarray).

Lemma to_tensor_returns st a :
  valid st a →
  returns (to_tensor a) st (λ t st',
    st' = st ∧ ∃ xs, values st a = Some xs ∧ t = Tensor (shape a) xs).
Proof.
  intros Hv. destruct (valid_values _ _ Hv) as [xs Hxs].
  eapply returns_run; [by apply to_tensor_run |]. eauto.
Qed.

Lemma getitem_valid st a subs v :
  valid st a → subscript_view subs (geom a) = Ok v →
  getitem a subs st = Ok (NdArray (base a) v (dt a), st)
  ∧ valid st (NdArray (base a) v (dt a)).
Proof.
  intros (buf & Hb & Hf) Hv. split; [by apply getitem_run |].
  exists buf. split; [done |]. by eapply subscript_view_fits.
Qed.

Lemma model_fit_returns (t : training) x y (v : option (ndarray * ndarray)) st :
  valid st x → valid st y →
  match v with Some (vx, vy) => valid st vx ∧ valid st vy | None => True end →
  (∀ tx ty tv, ∃ r, fit t tx ty tv = Ok r) →
  returns (model_fit t x y v) st (λ _ st', st' = st).
Proof.
  intros Hx Hy Hv Hfit. unfold model_fit.
  apply returns_bind. eapply returns_mono; [by apply to_tensor_returns |].
  intros tx ? (-> & _). cbn beta.
  apply returns_bind. eapply returns_mono; [by apply to_tensor_returns |].
  intros ty ? (-> & _). cbn beta.
  apply returns_bind.
  assert (returns (match v with
      | Some (vx, vy) => a ← to_tensor vx; b ← to_tensor vy; mret (Some (a, b))
      | None => mret None
      end) st (λ _ st', st' = st)) as Hval.
  { destruct v as [[vx vy]|]; [| by apply returns_ret]. destruct Hv as [Hvx Hvy].
    apply returns_bind. eapply returns_mono; [by apply to_tensor_returns |].
    intros ta ? (-> & _). cbn beta.
    apply returns_bind. eapply returns_mono; [by apply to_tensor_returns |].
    intros tb ? (-> & _). cbn beta. by apply returns_ret. }
  eapply returns_mono; [exact Hval |]. intros tv ? ->. cbn beta.
  destruct (Hfit tx ty tv) as [r Hr]. by eapply returns_lift.
Qed.

(** [model.predict]: the input is recorded, and the output is a new
    float32 array. *)
Lemma model_predict_returns (md : model) x st xs out :
  values st x = Some xs →
  predict md (Tensor (shape x) xs) = Ok out →
  length (tdata out) = numel (tshape out) →
  returns (model_predict md x) st (λ r st',
    r = NdArray (length (heap st)) (contiguous (tshape out)) Float32
    ∧ heap st' = heap st ++ [tdata out]
    ∧ predicted st' = predicted st ++ [Tensor (shape x) xs]).
Proof.
  intros Hxs Hout Hlen. unfold model_predict.
  apply returns_bind. eapply returns_run; [by apply to_tensor_run |].
  apply returns_bind. eapply returns_run; [reflexivity |].
  apply returns_bind. eapply returns_lift; [exact Hout |].
  unfold of_tensor. rewrite decide_True by done.
  eapply returns_run; [reflexivity |]. done.
Qed.

End Framework.

(** * The sequence-to-sequence strategies *)

Section SequenceStrategies.
Context {A : Type} `{Scalar A} `{Keras A}.
Variable c : constants.

Local Abbreviation B := (INITIAL_BATCH_SIZE c).
Local Abbreviation VB := (VALIDATION_BATCH_SIZE c).
Local Abbreviation n := (N_INPUT_STEPS c).
Local Abbreviation m := (N_PREDICTIONS c).
Local Abbreviation F := (N_FEATURES c).

(** The body of the four strategies: of the output of the model, of sizes
    (batch, n, m * features), the prediction keeps the slice of the last
    input step, with the sizes (batch, m, features). *)
Lemma sequence_forecasting_run (ls : list layer) (x_train x_valid series : ndarray)
    (st : state A) S :
  valid st series → shape series = [B; S; F] → n + m ≤ S →
  valid st x_train → valid st x_valid → shape x_valid = [VB; n; F] → 0 < n →
  (∀ t tx ty tv, ∃ r, fit t tx ty tv = Ok r) →
  (∀ md x, tshape x = [VB; n; F] →
     ∃ out, predict md x = Ok out ∧ tshape out = [VB; n; m * F]
            ∧ length (tdata out) = numel [VB; n; m * F]) →
  ∃ hist y_pred st' md xs out,
    sequence_forecasting c ls x_train x_valid series (indices c) st
      = Ok ((hist, y_pred), st')
    ∧ values st x_valid = Some xs
    ∧ predict md (Tensor [VB; n; F] xs) = Ok out
    ∧ predicted st' = predicted st ++ [Tensor [VB; n; F] xs]
    ∧ shape y_pred = [VB; m; F]
    ∧ ∀ i k f, i < VB → k < m → f < F →
        is_Some (item st' y_pred [i; k; f])
        ∧ item st' y_pred [i; k; f]
          = tdata out !! dot [i; n - 1; k * F + f] (c_dims [VB; n; m * F]).
Proof.
  intros Hvs Hsh HS Hvt Hvx Hshx Hn Hfit Hpredict.
  pose proof Hvs as (sbuf & Hs & Hfs).
  destruct (sequence_targets_run c series st S sbuf Hs Hfs Hsh HS) as (ybuf & Hrun & Hlen & _).
  destruct (valid_values _ _ Hvx) as [xs Hxs].
  set (st1 := set_heap (heap st ++ [ybuf]) st).
  set (Y := NdArray (length (heap st)) (contiguous [B; n; m * F]) Float64).
  assert (valid st1 Y) as HvY.
  { exists ybuf. split; [apply lookup_snoc |]. apply fits_contiguous. rewrite Hlen. simpl. lia. }
  assert (extends st st1) as Hext by (by eapply extends_app).
  assert (∀ a, valid st a → valid st1 a) as Hold.
  { intros a (buf & Hb & Hf). exists buf. split; [by apply Hext | done]. }
  assert (∃ v, subscript_view [Range None (Some (Z.of_nat (indices c).1))] (geom Y) = Ok v)
    as [v1 Hv1].
  { unfold subscript_view. cbn. eauto. }
  assert (∃ v, subscript_view [Range (Some (Z.of_nat (indices c).1))
                                  (Some (Z.of_nat (indices c).2))] (geom Y) = Ok v)
    as [v2 Hv2].
  { unfold subscript_view. cbn. eauto. }
  destruct (getitem_valid st1 Y _ _ HvY Hv1) as [Hg1 Hvy1].
  destruct (getitem_valid st1 Y _ _ HvY Hv2) as [Hg2 Hvy2].
  assert (returns (train_sequence_to_sequence_rnn_model c ls x_train
                     (NdArray (base Y) v1 (dt Y)) x_valid (NdArray (base Y) v2 (dt Y)))
            st1 (λ _ st', st' = st1)) as ([md hist] & ? & Htrain & ->).
  { unfold train_sequence_to_sequence_rnn_model. apply model_fit_returns; auto. }
  assert (values st1 x_valid = Some xs) as Hxs1.
  { unfold st1. by rewrite values_old. }
  destruct (Hpredict md (Tensor (shape x_valid) xs)) as (out & Hout & Hsho & Hleno).
  { by rewrite Hshx. }
  rewrite <- Hsho in Hleno.
  destruct (model_predict_returns md x_valid st1 xs out Hxs1 Hout Hleno)
    as (p0 & st2 & Hpred & -> & Hheap2 & Hlog2).
  rewrite Hsho in *.
  set (L := length (heap st1)) in *.
  assert (∃ v, subscript_view [All; At (-1)] (contiguous [VB; n; m; F]) = Ok v
    ∧ v_shape v = [VB; m; F]
    ∧ ∀ i k f, pos v [i; k; f] = dot [i; n - 1; k * F + f] (c_dims [VB; n; m * F]))
    as (v & Hv & Hshv & Hpos).
  { unfold subscript_view, v_shape, pos. cbn. rewrite norm_index_last by done. cbn.
    eexists. split; [done |]. cbn. split; [done | intros; lia]. }
  exists hist, (NdArray L v Float32), st2, md, xs, out.
  split; [| split; [done | split; [by rewrite <- Hshx | split; [| split; [done |]]]]].
  - apply returns_eq. unfold sequence_forecasting.
    apply returns_bind. eapply returns_run.
    { apply returns_eq. unfold get_sequence_to_sequence_data.
      apply returns_bind. eapply returns_run; [exact Hrun |].
      eapply returns_run; [| done]. apply reshape_contiguous_run. simpl. lia. }
    fold st1 Y.
    apply returns_bind. eapply returns_run; [exact Hg1 |].
    apply returns_bind. eapply returns_run; [exact Hg2 |].
    apply returns_bind. eapply returns_run; [exact Htrain |]. cbn beta iota.
    apply returns_bind. eapply returns_run; [exact Hpred |].
    apply returns_bind. eapply returns_run; [apply reshape_contiguous_run; simpl; lia |].
    apply returns_bind. eapply returns_run; [by apply getitem_run |].
    by apply returns_ret.
  - rewrite Hlog2. unfold st1. simpl. by rewrite Hshx.
  - intros i k f Hi Hk Hf. unfold item. cbn [base geom].
    rewrite Hheap2. unfold L. rewrite lookup_snoc. cbn. rewrite Hpos.
    split; [| done]. apply lookup_lt_is_Some_2. rewrite Hleno.
    apply dot_c_dims_lt. repeat constructor; [done | lia | nia].
Qed.

End SequenceStrategies.

Section LastStepEvaluation.
Context {A : Type} `{Scalar A} `{Keras A}.
Variable c : constants.

(** C6: [last_time_step_mse] of two tensors of sizes (batch, steps, d) is
    the mean squared error of their slices at the last time step, one mean
    over the d values per row; and each of the four sequence-to-sequence
    strategies returns as its prediction the slice at the last input step
    of the output of the model, with the sizes (validation batch, m,
    features). *)
Theorem last_time_step_is_what_is_evaluated
    (x_train x_valid series : ndarray) (st : state A) S b s d (ts ps : list A) :
  length ts = numel [b; s; d] → length ps = numel [b; s; d] → 0 < s →
  valid st series →
  shape series = [INITIAL_BATCH_SIZE c; S; N_FEATURES c] →
  N_INPUT_STEPS c + N_PREDICTIONS c ≤ S →
  valid st x_train → valid st x_valid →
  shape x_valid = [VALIDATION_BATCH_SIZE c; N_INPUT_STEPS c; N_FEATURES c] →
  0 < N_INPUT_STEPS c →
  (∀ t tx ty tv, ∃ r, fit t tx ty tv = Ok r) →
  (∀ md x, tshape x = [VALIDATION_BATCH_SIZE c; N_INPUT_STEPS c; N_FEATURES c] →
     ∃ out, predict md x = Ok out
       ∧ tshape out = [VALIDATION_BATCH_SIZE c; N_INPUT_STEPS c;
                       N_PREDICTIONS c * N_FEATURES c]
       ∧ length (tdata out)
         = numel [VALIDATION_BATCH_SIZE c; N_INPUT_STEPS c;
                  N_PREDICTIONS c * N_FEATURES c]) →
  (∃ tl pl,
      tensor_getitem (Tensor [b; s; d] ts) [All; At (-1)] = Ok (Tensor [b; d] tl)
      ∧ tensor_getitem (Tensor [b; s; d] ps) [All; At (-1)] = Ok (Tensor [b; d] pl)
      ∧ (∀ i j, i < b → j < d →
           tl !! dot [i; j] (c_dims [b; d]) = ts !! dot [i; s - 1; j] (c_dims [b; s; d])
           ∧ pl !! dot [i; j] (c_dims [b; d]) = ps !! dot [i; s - 1; j] (c_dims [b; s; d]))
      ∧ last_time_step_mse (Tensor [b; s; d] ts) (Tensor [b; s; d] ps)
        = mean_squared_error (Tensor [b; d] tl) (Tensor [b; d] pl)
      ∧ last_time_step_mse (Tensor [b; s; d] ts) (Tensor [b; s; d] ps)
        = Ok (Tensor [b] (mean <$> chunks (numel [b]) d (zip_with squared_difference pl tl))))
  ∧ Forall (λ strategy : ndarray → ndarray → ndarray → nat * nat → M A (history * ndarray),
      ∃ hist y_pred st' md xs out,
        strategy x_train x_valid series (indices c) st = Ok ((hist, y_pred), st')
        ∧ values st x_valid = Some xs
        ∧ predict md
            (Tensor [VALIDATION_BATCH_SIZE c; N_INPUT_STEPS c; N_FEATURES c] xs) = Ok out
        ∧ shape y_pred = [VALIDATION_BATCH_SIZE c; N_PREDICTIONS c; N_FEATURES c]
        ∧ ∀ i k f, i < VALIDATION_BATCH_SIZE c → k < N_PREDICTIONS c → f < N_FEATURES c →
            is_Some (item st' y_pred [i; k; f])
            ∧ item st' y_pred [i; k; f]
              = tdata out !! dot [i; N_INPUT_STEPS c - 1; k * N_FEATURES c + f]
                                 (c_dims [VALIDATION_BATCH_SIZE c; N_INPUT_STEPS c;
                                          N_PREDICTIONS c * N_FEATURES c]))
      [rnn_sequence_forecasting c; rnn_lstm_sequence_forecasting c;
       rnn_gru_sequence_forecasting c; cnn_vector_forecasting c].
Proof.
  intros Hlt Hlp Hs Hvs Hsh HS Hvt Hvx Hshx Hn Hfit Hpredict. split.
  - destruct (tensor_last_step b s d ts Hlt Hs) as (tl & Htl & Hltl & Hetl).
    destruct (tensor_last_step b s d ps Hlp Hs) as (pl & Hpl & Hlpl & Hepl).
    exists tl, pl. split; [done |]. split; [done |]. split; [by split; auto |].
    assert (last_time_step_mse (Tensor [b; s; d] ts) (Tensor [b; s; d] ps)
            = mean_squared_error (Tensor [b; d] tl) (Tensor [b; d] pl)) as Heq.
    { unfold last_time_step_mse. by rewrite Htl, Hpl. }
    split; [done |]. rewrite Heq.
    by apply (mean_squared_error_same [b] d).
  - repeat apply Forall_cons_2; [..| apply Forall_nil_2];
      (edestruct (sequence_forecasting_run c) with (x_train := x_train)
         as (hist & y_pred & st' & md & xs & out & Hrun & Hxs & Hout & _ & Hshp & Hel);
       [exact Hvs | exact Hsh | exact HS | exact Hvt | exact Hvx | exact Hshx | exact Hn
       | exact Hfit | exact Hpredict |];
       exists hist, y_pred, st', md, xs, out; split; [exact Hrun | done]).
Qed.

End LastStepEvaluation.

Lemma last_time_step_is_what_is_evaluated_witness :
  let x := NdArray 0 (View 0 [(1, 4); (2, 1); (1, 1)]) Float32 in
  let A := R in
  (∃ tl pl,
      tensor_getitem (Tensor [1; 2; 1] [1; 2]%R) [All; At (-1)] = Ok (Tensor [1; 1] tl)
      ∧ tensor_getitem (Tensor [1; 2; 1] [3; 5]%R) [All; At (-1)] = Ok (Tensor [1; 1] pl)
      ∧ (∀ i j, i < 1 → j < 1 →
           tl !! dot [i; j] (c_dims [1; 1]) = [1; 2]%R !! dot [i; 2 - 1; j] (c_dims [1; 2; 1])
           ∧ pl !! dot [i; j] (c_dims [1; 1]) = [3; 5]%R !! dot [i; 2 - 1; j] (c_dims [1; 2; 1]))
      ∧ last_time_step_mse (H := R_scalar (λ x, x)) (Tensor [1; 2; 1] [1; 2]%R)
          (Tensor [1; 2; 1] [3; 5]%R)
        = mean_squared_error (H := R_scalar (λ x, x)) (Tensor [1; 1] tl) (Tensor [1; 1] pl)
      ∧ last_time_step_mse (H := R_scalar (λ x, x)) (Tensor [1; 2; 1] [1; 2]%R)
          (Tensor [1; 2; 1] [3; 5]%R)
        = Ok (Tensor [1] (mean (H := R_scalar (λ x, x)) <$>
                chunks (numel [1]) 1
                  (zip_with (squared_difference (H := R_scalar (λ x, x))) pl tl))))
  ∧ Forall (λ strategy : ndarray → ndarray → ndarray → nat * nat
                         → M A (@history R (constant_keras [1; 2; 2]) * ndarray),
      ∃ hist y_pred st' md xs out,
        strategy x x small_series (indices small) small_state = Ok ((hist, y_pred), st')
        ∧ values small_state x = Some xs
        ∧ predict (Keras := constant_keras [1; 2; 2]) md
            (Tensor [VALIDATION_BATCH_SIZE small; N_INPUT_STEPS small; N_FEATURES small] xs)
          = Ok out
        ∧ shape y_pred = [VALIDATION_BATCH_SIZE small; N_PREDICTIONS small; N_FEATURES small]
        ∧ ∀ i k f, i < VALIDATION_BATCH_SIZE small → k < N_PREDICTIONS small →
            f < N_FEATURES small →
            is_Some (item st' y_pred [i; k; f])
            ∧ item st' y_pred [i; k; f]
              = tdata out !! dot [i; N_INPUT_STEPS small - 1; k * N_FEATURES small + f]
                                 (c_dims [VALIDATION_BATCH_SIZE small; N_INPUT_STEPS small;
                                          N_PREDICTIONS small * N_FEATURES small]))
      [rnn_sequence_forecasting (H := R_scalar (λ x, x)) (H0 := constant_keras [1; 2; 2]) small;
       rnn_lstm_sequence_forecasting (H := R_scalar (λ x, x)) (H0 := constant_keras [1; 2; 2]) small;
       rnn_gru_sequence_forecasting (H := R_scalar (λ x, x)) (H0 := constant_keras [1; 2; 2]) small;
       cnn_vector_forecasting (H := R_scalar (λ x, x)) (H0 := constant_keras [1; 2; 2]) small].
Proof.
  intros x A.
  apply (last_time_step_is_what_is_evaluated (H := R_scalar (λ x, x))
           (H0 := constant_keras [1; 2; 2]) small x x small_series small_state 4 1 2 1
           [1; 2]%R [3; 5]%R).
  - reflexivity.
  - reflexivity.
  - lia.
  - eexists. split; reflexivity.
  - reflexivity.
  - simpl. lia.
  - eexists. split; reflexivity.
  - eexists. split; reflexivity.
  - reflexivity.
  - unfold N_INPUT_STEPS. simpl. lia.
  - intros t tx ty tv. eexists. reflexivity.
  - intros md t Ht. eexists. split; [reflexivity |]. split; reflexivity.
Defined.

(** * Iterative forecasting *)

Lemma range_prefix_length a b done x rest : range a b = done ++ x :: rest → x = a + length done.
Proof.
  unfold range. intros Heq.
  assert (seq a (b - a) !! length done = Some x) as Hlk.
  { rewrite Heq. by apply list_lookup_middle. }
  apply lookup_seq in Hlk. lia.
Qed.

Lemma insert_middle {X} (σ outs : list X) x y :
  <[length σ := y]> ((σ ++ [x]) ++ outs) = (σ ++ [y]) ++ outs.
Proof.
  rewrite insert_app_l by (rewrite length_app; simpl; lia). by rewrite insert_snoc.
Qed.

Lemma lookup_middle {X} (σ outs : list X) x : ((σ ++ [x]) ++ outs) !! length σ = Some x.
Proof.
  rewrite lookup_app_l by (rewrite length_app; simpl; lia). apply lookup_snoc.
Qed.

Section Iterative.
Context {A : Type} `{Scalar A} `{Keras A}.
Variable c : constants.

Local Abbreviation VB := (VALIDATION_BATCH_SIZE c).
Local Abbreviation N := (N_STEPS c).
Local Abbreviation n := (N_INPUT_STEPS c).
Local Abbreviation m := (N_PREDICTIONS c).
Local Abbreviation F := (N_FEATURES c).

(** One iteration of the loop of [rnn_iterative_forecasting]. *)
Lemma iteration_run (md : model) σ log xbuf (x_valid : ndarray) (k : nat) (st : state A) :
  n + m = N → k < m →
  (∀ x, tshape x = [VB; n; F] →
     ∃ out, predict md x = Ok out ∧ tshape out = [VB; F]
            ∧ length (tdata out) = numel [VB; F]) →
  accumulated c md σ log xbuf x_valid k st →
  returns
    (x ← getitem (NdArray (length σ) (contiguous [VB; N; F]) Float64)
           [All; Range (Some (Z.of_nat k)) (Some (Z.of_nat (n + k))); All];
     data_out ← model_predict md x;
     data_out ← reshape data_out [VB; F];
     dst ← getitem (NdArray (length σ) (contiguous [VB; N; F]) Float64)
             [All; At (Z.of_nat (n + k)); All];
     setitem dst data_out) st
    (λ _ st', accumulated c md σ log xbuf x_valid (S k) st').
Proof.
  intros HN Hk Hpredict (fbuf & outs & inputs & Hheap & Hlen & Hlog & Hlin & Hx & Hcalls).
  set (full := NdArray (length σ) (contiguous [VB; N; F]) Float64).
  assert (heap st !! length σ = Some fbuf) as Hfull by (rewrite Hheap; apply lookup_middle).
  assert (fits (geom full) (length fbuf) = true) as Hffull.
  { apply fits_contiguous. lia. }
  (* the window *)
  assert (∃ vx, subscript_view
      [All; Range (Some (Z.of_nat k)) (Some (Z.of_nat (n + k))); All] (geom full) = Ok vx
    ∧ v_shape vx = [VB; n; F]
    ∧ ∀ i t f, pos vx [i; t; f] = pos (contiguous [VB; N; F]) [i; k + t; f])
    as (vx & Hvx & Hshx & Hpx).
  { unfold subscript_view, v_shape, pos. cbn.
    rewrite slice_range_nat, !Nat.min_l by lia. cbn.
    eexists. split; [done |]. cbn. split; [do 2 f_equal; lia | intros; lia]. }
  pose proof (subscript_view_fits _ _ _ _ Hvx Hffull) as Hfx.
  destruct (gather_is_Some fbuf vx Hfx) as [xs Hxs].
  assert (values st (NdArray (length σ) vx Float64) = Some xs) as Hvals.
  { unfold values. cbn [base geom]. rewrite Hfull. exact Hxs. }
  destruct (Hpredict (Tensor [VB; n; F] xs) eq_refl) as (out & Hout & Hsho & Hleno).
  (* the call of the model *)
  apply returns_bind. eapply returns_run; [by apply getitem_run |]. cbn [base dt full].
  apply returns_bind. eapply returns_mono.
  { eapply (model_predict_returns md _ st xs out Hvals).
    - unfold shape. cbn [geom]. by rewrite Hshx.
    - by rewrite Hsho. }
  intros r st2 (-> & Hheap2 & Hlog2). cbn beta. rewrite Hsho.
  apply returns_bind. eapply returns_run; [by apply reshape_contiguous_run |].
  (* the store of the output *)
  assert (∃ vd, subscript_view [All; At (Z.of_nat (n + k)); All] (geom full) = Ok vd
    ∧ v_shape vd = [VB; F]
    ∧ ∀ i f, pos vd [i; f] = pos (contiguous [VB; N; F]) [i; n + k; f])
    as (vd & Hvd & Hshd & Hpd).
  { unfold subscript_view, v_shape, pos. cbn. rewrite norm_index_nat by lia. cbn.
    eexists. split; [done |]. cbn. split; [done | intros; lia]. }
  apply returns_bind. eapply returns_run; [by apply getitem_run |]. cbn [base dt full].
  edestruct (setitem_run (NdArray (length σ) vd Float64)
               (NdArray (length (heap st)) (contiguous [VB; F]) Float32)
               (contiguous [VB; F]) (tdata out) fbuf st2)
    as (fbuf' & Hrun & Hlen' & Hin & Hout').
  { unfold shape. cbn [geom]. rewrite Hshd.
    rewrite <- (shape_c_dims [VB; F]) at 2. apply (broadcast_to_same (contiguous [VB; F])). }
  { cbn [base]. rewrite Hheap2. apply lookup_snoc. }
  { cbn [geom]. apply fits_contiguous. lia. }
  { cbn [base]. rewrite Hheap2, Hheap, <- app_assoc. apply lookup_middle. }
  { cbn [geom]. by eapply subscript_view_fits. }
  { cbn [geom]. eapply subscript_view_no_overlap; [exact Hvd |]. apply no_overlap_contiguous. }
  eapply returns_run; [exact Hrun |].
  unfold shape in Hin, Hout'. cbn [geom base dt] in Hin, Hout'. rewrite Hshd in Hin, Hout'.
  (* what was not written *)
  assert (∀ i t f, i < VB → t < N → f < F → t ≠ n + k →
            fbuf' !! pos (contiguous [VB; N; F]) [i; t; f]
            = fbuf !! pos (contiguous [VB; N; F]) [i; t; f]) as Hkeep.
  { intros i t f Hi Ht Hf Hne. apply Hout'. intros idx Hr Heq.
    apply Forall2_cons_inv_r in Hr as (i' & idx1 & Hi' & Hr & ->).
    apply Forall2_cons_inv_r in Hr as (f' & idx2 & Hf' & Hr & ->).
    apply Forall2_nil_inv_r in Hr as ->.
    rewrite Hpd in Heq. apply (no_overlap_contiguous [VB; N; F] 0) in Heq.
    - simplify_eq.
    - unfold v_shape. simpl. repeat constructor; lia.
    - unfold v_shape. simpl. repeat constructor; lia. }
  exists fbuf', (outs ++ [tdata out]), (inputs ++ [Tensor [VB; n; F] xs]).
  split; [| split; [by rewrite Hlen' | split; [| split; [| split]]]].
  - cbn [heap set_heap base]. rewrite Hheap2, Hheap.
    rewrite <- (app_assoc (σ ++ [fbuf])), insert_middle. done.
  - cbn [predicted set_heap]. rewrite Hlog2, Hlog, <- app_assoc. unfold shape. cbn [geom].
    by rewrite Hshx.
  - rewrite length_app. simpl. lia.
  - intros i t f Hi Ht Hf. rewrite Hkeep by lia. by apply Hx.
  - intros s Hs. destruct (decide (s = k)) as [-> | Hne].
    + exists (Tensor [VB; n; F] xs), out.
      split; [rewrite <- Hlin; apply lookup_snoc |]. split; [done |].
      split; [| split; [done |]].
      * intros i t f Hi Ht Hf. rewrite Hkeep by lia. cbn [tdata].
        destruct (gather_lookup _ _ _ [i; t; f] Hxs) as [Hlk _].
        { rewrite Hshx. repeat constructor; done. }
        rewrite Hshx, Hpx in Hlk. exact Hlk.
      * intros i f Hi Hf. rewrite <- Hpd, Hin by (repeat constructor; done).
        cbn. unfold pos. cbn. by destruct (tdata out !! _).
    + destruct (Hcalls s) as (x_s & out_s & Hxs_s & Hsh_s & Hwin & Hcall & Hres); [lia |].
      exists x_s, out_s. split; [by rewrite lookup_app_l by lia |]. split; [done |].
      split; [| split; [done |]].
      * intros i t f Hi Ht Hf. rewrite Hkeep by lia. by apply Hwin.
      * intros i f Hi Hf. rewrite Hkeep by lia. by apply Hres.
Qed.

(** C10: in iterative forecasting the model is called m times; the call
    of iteration s receives the steps [s, n+s) of the accumulated
    sequence, a window of n steps of which the first n-s are input steps
    and the last s are earlier predictions; its output is written to step
    n+s; and the prediction returned is the last m steps of the
    accumulated sequence. *)
Theorem iterative_forecasting_slides_a_window
    (x_train y_train x_valid y_valid : ndarray) (st : state A) T K D :
  n + m = N → 0 < m →
  valid st x_train →
  valid st y_train → shape y_train = [T; K; D] → 0 < K →
  valid st x_valid → shape x_valid = [VB; n; F] →
  valid st y_valid → shape y_valid = [VB; m; F] →
  (∀ t tx ty tv, ∃ r, fit t tx ty tv = Ok r) →
  (∀ md x, tshape x = [VB; n; F] →
     ∃ out, predict md x = Ok out ∧ tshape out = [VB; F]
            ∧ length (tdata out) = numel [VB; F]) →
  ∃ loss y_pred st' md full inputs,
    rnn_iterative_forecasting c x_train y_train x_valid y_valid st
      = Ok ((loss, y_pred), st')
    ∧ shape full = [VB; N; F]
    ∧ shape y_pred = [VB; m; F]
    ∧ predicted st' = predicted st ++ inputs
    ∧ length inputs = m
    ∧ (∀ i t f, i < VB → t < n → f < F →
         is_Some (item st x_valid [i; t; f])
         ∧ item st' full [i; t; f] = item st x_valid [i; t; f])
    ∧ (∀ s, s < m →
         ∃ x_s out_s,
           inputs !! s = Some x_s
           ∧ tshape x_s = [VB; n; F]
           ∧ (∀ i t f, i < VB → t < n → f < F →
                is_Some (item st' full [i; s + t; f])
                ∧ tdata x_s !! dot [i; t; f] (c_dims [VB; n; F])
                  = item st' full [i; s + t; f])
           ∧ predict md x_s = Ok out_s
           ∧ ∀ i f, i < VB → f < F →
               item st' full [i; n + s; f] = tdata out_s !! dot [i; f] (c_dims [VB; F]))
    ∧ (∀ i s f, i < VB → s < m → f < F →
         item st' y_pred [i; s; f] = item st' full [i; n + s; f]).
Proof.
  intros HN Hm Hvt Hvyt Hshyt HK Hvx Hshx Hvy Hshy Hfit Hpredict.
  pose proof Hvx as (xbuf & Hxb & Hfx).
  set (σ := heap st).
  set (full := NdArray (length σ) (contiguous [VB; N; F]) Float64).
  (* the target of the training *)
  destruct (dims_of_shape3 _ _ _ _ Hshyt) as (q0 & q1 & q2 & Hdyt).
  assert (∃ v, subscript_view [All; At 0] (geom y_train) = Ok v) as [vy0 Hvy0].
  { unfold subscript_view, v_shape. rewrite Hdyt. cbn.
    rewrite norm_index_first by done. cbn. eauto. }
  destruct (getitem_valid st y_train _ _ Hvyt Hvy0) as [Hgy0 Hvalid0].
  assert (returns (model_fit (Training (get_sequence_to_vector_rnn_model F) adam false
                                (N_EPOCHS c)) x_train
                     (NdArray (base y_train) vy0 (dt y_train)) None)
            st (λ _ st', st' = st)) as ([md hist] & ? & Hfitted & ->).
  { apply model_fit_returns; auto. }
  (* the accumulated sequence, with the input steps *)
  set (zeros := replicate (numel [VB; N; F]) (lit 0)).
  set (st1 := set_heap (σ ++ [zeros]) st).
  destruct (dims_of_shape3 _ _ _ _ Hshx) as (s0 & s1 & s2 & Hdx).
  assert (∃ vs, subscript_view [All; All; All] (geom x_valid) = Ok vs
    ∧ v_shape vs = [VB; n; F] ∧ ∀ idx, pos vs idx = pos (geom x_valid) idx)
    as (vs & Hvs & Hshs & Hps).
  { unfold subscript_view, v_shape, pos. rewrite Hdx. cbn.
    eexists. split; [done |]. cbn. split; [done | intros; lia]. }
  assert (∃ vd, subscript_view [All; Range None (Some (Z.of_nat n)); All] (geom full) = Ok vd
    ∧ v_shape vd = [VB; n; F]
    ∧ ∀ i t f, pos vd [i; t; f] = pos (contiguous [VB; N; F]) [i; t; f])
    as (vd & Hvd & Hshd & Hpd).
  { unfold subscript_view, v_shape, pos. cbn.
    rewrite slice_range_to, Nat.min_l by lia. cbn.
    eexists. split; [done |]. cbn. split; [done | intros; lia]. }
  edestruct (setitem_run (NdArray (length σ) vd Float64)
               (NdArray (base x_valid) vs (dt x_valid)) vs xbuf zeros st1)
    as (fbuf0 & Hset & Hlen0 & Hin0 & _).
  { unfold shape. cbn [geom]. rewrite Hshd, <- Hshs. apply broadcast_to_same. }
  { cbn. rewrite lookup_app_l; [done | by eapply lookup_lt_Some]. }
  { cbn [geom]. by eapply subscript_view_fits. }
  { cbn. apply lookup_snoc. }
  { cbn [geom]. eapply subscript_view_fits; [exact Hvd |]. apply fits_contiguous.
    unfold zeros. by rewrite length_replicate. }
  { cbn [geom]. eapply subscript_view_no_overlap; [exact Hvd |]. apply no_overlap_contiguous. }
  unfold shape in Hin0. cbn [geom base dt] in Hin0. rewrite Hshd in Hin0.
  set (st2 := set_heap (<[length σ := fbuf0]> (heap st1)) st1) in *.
  assert (accumulated c md σ (predicted st) xbuf x_valid 0 st2) as Hacc0.
  { exists fbuf0, [], []. split; [| split; [| split; [| split; [done | split]]]].
    - unfold st2, st1. cbn [heap set_heap]. by rewrite insert_snoc, app_nil_r.
    - rewrite Hlen0. unfold zeros. by rewrite length_replicate.
    - unfold st2, st1. cbn. by rewrite app_nil_r.
    - intros i t f Hi Ht Hf. rewrite <- Hpd, Hin0 by (repeat constructor; done).
      rewrite convert_to_double, Hps.
      by destruct (xbuf !! _).
    - intros s Hs. lia. }
  (* the loop *)
  assert (returns (for_each (range 0 m) (λ step,
      let offset := n + step in
      x ← getitem full
            [All; Range (Some (Z.of_nat step)) (Some (Z.of_nat offset)); All];
      data_out ← model_predict md x;
      data_out ← reshape data_out [VB; F];
      dst ← getitem full [All; At (Z.of_nat offset); All];
      setitem dst data_out)) st2
    (λ _ st', accumulated c md σ (predicted st) xbuf x_valid (length (range 0 m)) st'))
    as ([] & st3 & Hloop & Hacc).
  { apply (returns_for_each
             (λ done st', accumulated c md σ (predicted st) xbuf x_valid (length done) st'));
      [exact Hacc0 |].
    intros done k rest st' Hxs Hacc.
    pose proof (range_prefix_length _ _ _ _ _ Hxs) as Hk. simpl in Hk. subst k.
    assert (length done < m) as Hlt.
    { assert (length done ∈ range 0 m) as Hin.
      { rewrite Hxs. apply elem_of_app. right. by left. }
      apply elem_of_seq in Hin. lia. }
    rewrite length_app. cbn [length]. rewrite Nat.add_1_r. cbn zeta.
    apply iteration_run; [done | done | apply Hpredict | done]. }
  unfold range in Hacc. rewrite length_seq, Nat.sub_0_r in Hacc.
  destruct Hacc as (fbuf & outs & inputs & Hheap & Hlen & Hlog & Hlin & Hx & Hcalls).
  assert (heap st3 !! length σ = Some fbuf) as Hfull by (rewrite Hheap; apply lookup_middle).
  assert (∀ idx, item st3 full idx = fbuf !! pos (contiguous [VB; N; F]) idx) as Hitem.
  { intros idx. unfold item. cbn [base geom full]. by rewrite Hfull. }
  (* the prediction *)
  assert (∃ vp, subscript_view [All; Range (Some (- Z.of_nat m)%Z) None; All] (geom full) = Ok vp
    ∧ v_shape vp = [VB; m; F]
    ∧ ∀ i s f, pos vp [i; s; f] = pos (contiguous [VB; N; F]) [i; n + s; f])
    as (vp & Hvp & Hshp & Hpp).
  { unfold subscript_view, v_shape, pos. cbn.
    rewrite slice_range_tail by done. cbn.
    eexists. split; [done |]. cbn.
    split; [do 2 f_equal; unfold N_INPUT_STEPS in *; lia
           | intros; unfold N_INPUT_STEPS in *; lia]. }
  set (y_pred := NdArray (length σ) vp Float64).
  assert (fits vp (length fbuf) = true) as Hfp.
  { eapply subscript_view_fits; [exact Hvp |]. apply fits_contiguous. lia. }
  destruct (gather_is_Some fbuf vp Hfp) as [ps Hps'].
  destruct (valid_values _ _ Hvy) as [ts Hts].
  assert (values st3 y_valid = Some ts) as Hts3.
  { unfold values in *. destruct Hvy as (ybuf & Hyb & _). rewrite Hyb in Hts.
    rewrite Hheap, <- app_assoc, lookup_app_l; [| by eapply lookup_lt_Some].
    fold σ in Hyb. by rewrite Hyb. }
  assert (values st3 y_pred = Some ps) as Hps3.
  { unfold values. cbn [base geom y_pred]. by rewrite Hfull. }
  eexists _, y_pred, st3, md, full, inputs.
  split; [| split; [| split; [done | split; [done | split; [done | split; [| split]]]]]].
  - apply returns_eq. unfold rnn_iterative_forecasting.
    apply returns_bind. eapply returns_run; [exact Hgy0 |].
    apply returns_bind. eapply returns_run; [exact Hfitted |]. cbn beta iota.
    apply returns_bind. eapply returns_run; [reflexivity |]. fold σ zeros st1 full.
    apply returns_bind. eapply returns_run; [by apply getitem_run |].
    apply returns_bind. eapply returns_run; [by apply getitem_run |].
    apply returns_bind. eapply returns_run; [exact Hset |].
    apply returns_bind. eapply returns_run; [exact Hloop |].
    apply returns_bind. eapply returns_run; [by apply getitem_run |].
    apply returns_bind. eapply returns_run; [| by apply returns_ret].
    eapply mse_loss_run; [exact Hshy | exact Hshp | exact Hts3 | exact Hps3].
  - unfold shape, full. cbn. done.
  - intros i t f Hi Ht Hf. split.
    + apply valid_lookup; [done |]. rewrite Hshx. repeat constructor; done.
    + rewrite Hitem, Hx by done. unfold item. by rewrite Hxb.
  - intros s Hs. destruct (Hcalls s Hs) as (x_s & out_s & Hxs & Hshs' & Hwin & Hcall & Hres).
    exists x_s, out_s. split; [done |]. split; [done |]. split; [| split; [done |]].
    + intros i t f Hi Ht Hf. rewrite Hitem. split; [| by apply Hwin].
      apply lookup_lt_is_Some_2. rewrite Hlen. apply (fits_pos (contiguous [VB; N; F])).
      * by apply fits_contiguous.
      * unfold v_shape. simpl. repeat constructor; lia.
    + intros i f Hi Hf. rewrite Hitem. by apply Hres.
  - intros i s f Hi Hs Hf. rewrite Hitem. unfold item. cbn [base geom y_pred].
    by rewrite Hfull, Hpp.
Qed.

End Iterative.

Lemma iterative_forecasting_slides_a_window_witness :
  let x := NdArray 0 (View 0 [(1, 4); (2, 1); (1, 1)]) Float32 in
  let y := NdArray 0 (View 2 [(1, 4); (2, 1); (1, 1)]) Float32 in
  ∃ loss y_pred st' md full inputs,
    rnn_iterative_forecasting (H := R_scalar (λ x, x)) (H0 := constant_keras [1; 1])
      small x y x y small_state = Ok ((loss, y_pred), st')
    ∧ shape full = [1; 4; 1]
    ∧ shape y_pred = [1; 2; 1]
    ∧ predicted st' = predicted small_state ++ inputs
    ∧ length inputs = 2
    ∧ (∀ i t f, i < 1 → t < 2 → f < 1 →
         is_Some (item small_state x [i; t; f])
         ∧ item st' full [i; t; f] = item small_state x [i; t; f])
    ∧ (∀ s, s < 2 →
         ∃ x_s out_s,
           inputs !! s = Some x_s
           ∧ tshape x_s = [1; 2; 1]
           ∧ (∀ i t f, i < 1 → t < 2 → f < 1 →
                is_Some (item st' full [i; s + t; f])
                ∧ tdata x_s !! dot [i; t; f] (c_dims [1; 2; 1]) = item st' full [i; s + t; f])
           ∧ predict (Keras := constant_keras [1; 1]) md x_s = Ok out_s
           ∧ ∀ i f, i < 1 → f < 1 →
               item st' full [i; 2 + s; f] = tdata out_s !! dot [i; f] (c_dims [1; 1]))
    ∧ (∀ i s f, i < 1 → s < 2 → f < 1 →
         item st' y_pred [i; s; f] = item st' full [i; 2 + s; f]).
Proof.
  intros x y.
  apply (iterative_forecasting_slides_a_window (H := R_scalar (λ x, x))
           (H0 := constant_keras [1; 1]) small x y x y small_state 1 2 1).
  - reflexivity.
  - simpl. lia.
  - eexists. split; reflexivity.
  - eexists. split; reflexivity.
  - reflexivity.
  - lia.
  - eexists. split; reflexivity.
  - reflexivity.
  - eexists. split; reflexivity.
  - reflexivity.
  - intros t tx ty tv. eexists. reflexivity.
  - intros md t Ht. eexists. split; [reflexivity |]. split; reflexivity.
Defined.

(** Iterative forecasting on row 0 of the small series with a model that
    always answers 0: the model is called on the windows (1, 2) and (2, 0),
    and the accumulated sequence ends as (1, 2, 0, 0). *)
Example iterative_small :
  let x := NdArray 0 (View 0 [(1, 4); (2, 1); (1, 1)]) Float32 in
  let y := NdArray 0 (View 2 [(1, 4); (2, 1); (1, 1)]) Float32 in
  match rnn_iterative_forecasting (H := R_scalar (λ x, x)) (H0 := constant_keras [1; 1])
          small x y x y small_state with
  | Ok ((loss, y_pred), st') =>
      predicted st' = [Tensor [1; 2; 1] [1; 2]%R; Tensor [1; 2; 1] [2; 0]%R]
      ∧ heap st' !! base y_pred = Some [1; 2; 0; 0]%R
      ∧ geom y_pred = View 2 [(1, 4); (2, 1); (1, 1)]
  | Raise _ => False
  end.
Proof. vm_compute. repeat split; reflexivity. Qed.

(** [last_time_step_mse] on one row of two steps: only the last step,
    (5 - 2)², counts. *)
Example last_time_step_small :
  match last_time_step_mse (H := R_scalar (λ x, x))
          (Tensor [1; 2; 1] [1; 2]%R) (Tensor [1; 2; 1] [3; 5]%R) with
  | Ok t => tshape t = [1] ∧ ∃ v, tdata t = [v] ∧ v = 9%R
  | Raise _ => False
  end.
Proof. vm_compute. split; [reflexivity |]. eexists. split; [reflexivity |]. lra. Qed.

(** The generator on one row of two steps: the buffer of the series holds
    each value twice, once per feature. *)
Example generator_small :
  match generate_time_series (H := R_scalar (λ x, x)) script 1 2 small_state with
  | Ok (series, st') =>
      shape series = [1; 2; 2] ∧ dt series = Float32
      ∧ ∃ x y, heap st' !! base series = Some [x; x; y; y]
  | Raise _ => False
  end.
Proof. vm_compute. split; [reflexivity |]. split; [reflexivity |]. by eexists _, _. Qed.

(** * What a call leaves as it was

    The functions of the script write through views of arrays that they
    allocated themselves; whatever the arguments, a call that returns has
    left every buffer that existed before it as it was. *)

Section Ensures.
Context {A : Type}.
Implicit Types (st : state A).

Lemma ensures_ret {X} (x : X) st (Q : X → state A → Prop) :
  Q x st → ensures (mret x) st Q.
Proof. intros HQ y st' Heq. unfold mret, M_ret in Heq. by simplify_eq. Qed.

Lemma ensures_raise {X} e st (Q : X → state A → Prop) : ensures (raise e) st Q.
Proof. by intros x st' Heq. Qed.

Lemma ensures_bind {X Y} (m : M A X) (f : X → M A Y) st (Q : Y → state A → Prop) :
  ensures m st (λ x st', ensures (f x) st' Q) → ensures (m ≫= f) st Q.
Proof.
  intros Hm y st'' Heq. unfold mbind, M_bind in Heq.
  destruct (m st) as [[x st']|] eqn:E; [|done]. by eapply Hm.
Qed.

Lemma ensures_mono {X} (m : M A X) st (P Q : X → state A → Prop) :
  ensures m st P → (∀ x st', P x st' → Q x st') → ensures m st Q.
Proof. intros HP HPQ x st' Heq. eauto. Qed.

Lemma ensures_lift {X} (r : result X) st (Q : X → state A → Prop) :
  (∀ x, r = Ok x → Q x st) → ensures (lift r) st Q.
Proof. intros HQ x st' Heq. unfold lift in Heq. destruct r; simplify_eq. eauto. Qed.

Lemma ensures_for_each {X} (I : state A → Prop) (xs : list X) (body : X → M A ()) st :
  I st →
  (∀ x st', I st' → ensures (body x) st' (λ _ st'', I st'')) →
  ensures (for_each xs body) st (λ _ st', I st').
Proof.
  intros H0 Hstep. revert st H0. induction xs as [|x xs IH]; intros st H0; simpl.
  - by apply ensures_ret.
  - apply ensures_bind. eapply ensures_mono; [by apply Hstep |].
    intros [] st' HI. by apply IH.
Qed.

Lemma ensures_list_comp {X Y} (I : state A → Prop) (P : Y → Prop)
    (xs : list X) (body : X → M A Y) st :
  I st →
  (∀ x st', I st' → ensures (body x) st' (λ y st'', I st'' ∧ P y)) →
  ensures (list_comp xs body) st (λ ys st', I st' ∧ Forall P ys).
Proof.
  intros H0 Hstep. revert st H0. induction xs as [|x xs IH]; intros st H0; simpl.
  - apply ensures_ret. by split.
  - apply ensures_bind. eapply ensures_mono; [by apply Hstep |].
    intros y st' [HI HP]. cbn beta.
    apply ensures_bind. eapply ensures_mono; [by apply IH |].
    intros ys st'' [HI' HPs]. cbn beta.
    apply ensures_ret. split; [done | by constructor].
Qed.

End Ensures.

Section Kept.
Context {A : Type} `{Scalar A} `{Keras A}.
Variable σ : list (list A).
Implicit Types (st : state A) (a dst src : ndarray).

Lemma kept_getitem a subs st :
  ensures (getitem a subs) st (λ r st', st' = st ∧ base r = base a).
Proof.
  apply ensures_lift. intros r Hr.
  destruct (subscript_view subs (geom a)); simpl in Hr; by simplify_eq.
Qed.

Lemma kept_alloc sh d (data : list A) st :
  σ `prefix_of` heap st →
  ensures (alloc sh d data) st (λ r st', σ `prefix_of` heap st' ∧ outside σ r).
Proof.
  intros [ext Hσ] r st' Heq. unfold alloc in Heq. simplify_eq. cbn. split.
  - exists (ext ++ [data]). by rewrite Hσ, <- app_assoc.
  - unfold outside. cbn. rewrite Hσ, length_app. lia.
Qed.

Lemma kept_read_view b v st : ensures (read_view (A := A) b v) st (λ _ st', st' = st).
Proof.
  intros xs st' Heq. unfold read_view in Heq.
  destruct (heap st !! b ≫= _); by simplify_eq.
Qed.

Lemma prefix_of_insert (l : nat) (buf : list A) (σ' : list (list A)) :
  σ `prefix_of` σ' → length σ ≤ l → σ `prefix_of` <[l := buf]> σ'.
Proof.
  intros [ext ->] Hl. exists (<[l - length σ := buf]> ext).
  by rewrite insert_app_r_alt.
Qed.

Lemma kept_setitem dst src st :
  σ `prefix_of` heap st → outside σ dst →
  ensures (setitem dst src) st (λ _ st', σ `prefix_of` heap st').
Proof.
  intros Hσ Hout [] st' Heq. unfold setitem in Heq.
  destruct (broadcast_to _ _); [|done].
  destruct (read_view _ _ _) as [[xs ?]|]; [|done].
  destruct (heap st !! base dst) as [dbuf|]; [|done].
  destruct (fits _ _); [|done]. simplify_eq. cbn. by apply prefix_of_insert.
Qed.

Lemma kept_reshape a sh st :
  σ `prefix_of` heap st →
  ensures (reshape a sh) st (λ r st', σ `prefix_of` heap st' ∧ (outside σ a → outside σ r)).
Proof.
  intros Hσ. unfold reshape. case_decide; [| apply ensures_raise].
  destruct (is_c_contiguous (geom a)).
  - by apply ensures_ret.
  - apply ensures_bind. eapply ensures_mono; [apply kept_read_view |].
    intros xs ? ->. cbn beta.
    eapply ensures_mono; [by apply kept_alloc |]. by intros r st' [? ?].
Qed.

Lemma kept_to_tensor a st : ensures (to_tensor a) st (λ _ st', st' = st).
Proof.
  unfold to_tensor. apply ensures_bind. eapply ensures_mono; [apply kept_read_view |].
  intros xs ? ->. cbn beta. by apply ensures_ret.
Qed.

Lemma kept_model_fit (t : training) x y (v : option (ndarray * ndarray)) st :
  ensures (model_fit t x y v) st (λ _ st', st' = st).
Proof.
  unfold model_fit.
  apply ensures_bind. eapply ensures_mono; [apply kept_to_tensor |]. intros tx ? ->. cbn beta.
  apply ensures_bind. eapply ensures_mono; [apply kept_to_tensor |]. intros ty ? ->. cbn beta.
  apply ensures_bind. eapply (ensures_mono _ _ (λ _ st', st' = st)).
  - destruct v as [[vx vy]|]; [| by apply ensures_ret].
    apply ensures_bind. eapply ensures_mono; [apply kept_to_tensor |]. intros ta ? ->. cbn beta.
    apply ensures_bind. eapply ensures_mono; [apply kept_to_tensor |]. intros tb ? ->. cbn beta.
    by apply ensures_ret.
  - intros tv ? ->. by apply ensures_lift.
Qed.

Lemma kept_model_predict (md : model) x st :
  σ `prefix_of` heap st →
  ensures (model_predict md x) st (λ r st', σ `prefix_of` heap st' ∧ outside σ r).
Proof.
  intros Hσ. unfold model_predict.
  apply ensures_bind. eapply ensures_mono; [apply kept_to_tensor |]. intros tx ? ->. cbn beta.
  apply ensures_bind. intros [] st1 Heq. simplify_eq.
  apply ensures_bind. apply ensures_lift. intros out _.
  unfold of_tensor. case_decide; [| apply ensures_raise]. by apply kept_alloc.
Qed.

Lemma kept_mse_loss y_true y_pred st :
  ensures (mse_loss y_true y_pred) st (λ _ st', st' = st).
Proof.
  unfold mse_loss.
  apply ensures_bind. eapply ensures_mono; [apply kept_to_tensor |]. intros t ? ->. cbn beta.
  apply ensures_bind. eapply ensures_mono; [apply kept_to_tensor |]. intros p ? ->. cbn beta.
  apply ensures_bind. apply ensures_lift. intros l _. by apply ensures_ret.
Qed.

End Kept.

Section KeptByTheScript.
Context {A : Type} `{Scalar A} `{Keras A}.
Variable c : constants.
Variable σ : list (list A).
Implicit Types (st : state A).

Lemma kept_np_empty sh st :
  σ `prefix_of` heap st →
  ensures (np_empty sh) st (λ r st', σ `prefix_of` heap st' ∧ outside σ r).
Proof. intros Hσ r st' Heq. unfold np_empty in Heq. by eapply kept_alloc. Qed.

Lemma kept_sequence_targets series st :
  σ `prefix_of` heap st →
  ensures (sequence_targets c series) st (λ Y st', σ `prefix_of` heap st' ∧ outside σ Y).
Proof.
  intros Hσ. unfold sequence_targets.
  apply ensures_bind. eapply ensures_mono; [by apply kept_np_empty |].
  intros Y st1 [Hσ1 HY]. cbn beta.
  apply ensures_bind. eapply ensures_mono.
  { apply (ensures_for_each (λ st', σ `prefix_of` heap st')); [exact Hσ1 |].
    intros k st2 Hσ2.
    apply ensures_bind. eapply ensures_mono; [apply kept_getitem |].
    intros src ? [-> _]. cbn beta.
    apply ensures_bind. eapply ensures_mono; [apply kept_getitem |].
    intros dst ? [-> Hdst]. cbn beta.
    apply kept_setitem; [done |]. unfold outside in *. by rewrite Hdst. }
  intros [] st2 Hσ2. cbn beta. by apply ensures_ret.
Qed.

Lemma kept_get_sequence_to_sequence_data series st :
  σ `prefix_of` heap st →
  ensures (get_sequence_to_sequence_data c series) st
    (λ Y st', σ `prefix_of` heap st' ∧ outside σ Y).
Proof.
  intros Hσ. unfold get_sequence_to_sequence_data.
  apply ensures_bind. eapply ensures_mono; [by apply kept_sequence_targets |].
  intros Y st1 [Hσ1 HY]. cbn beta.
  eapply ensures_mono; [by apply kept_reshape |]. intros r st2 [? Hr]. auto.
Qed.

Lemma kept_sequence_forecasting (ls : list layer) x_train x_valid series ix st :
  σ `prefix_of` heap st →
  ensures (sequence_forecasting c ls x_train x_valid series ix) st
    (λ r st', σ `prefix_of` heap st' ∧ outside σ r.2).
Proof.
  intros Hσ. unfold sequence_forecasting.
  apply ensures_bind. eapply ensures_mono; [by apply kept_get_sequence_to_sequence_data |].
  intros Y st1 [Hσ1 _]. cbn beta.
  apply ensures_bind. eapply ensures_mono; [apply kept_getitem |].
  intros y_train ? [-> _]. cbn beta.
  apply ensures_bind. eapply ensures_mono; [apply kept_getitem |].
  intros y_valid ? [-> _]. cbn beta.
  apply ensures_bind. eapply ensures_mono; [apply kept_model_fit |].
  intros [md hist] ? ->. cbn beta iota.
  apply ensures_bind. eapply ensures_mono; [by apply kept_model_predict |].
  intros p st2 [Hσ2 Hp]. cbn beta.
  apply ensures_bind. eapply ensures_mono; [by apply kept_reshape |].
  intros p' st3 [Hσ3 Hp']. cbn beta.
  apply ensures_bind. eapply ensures_mono; [apply kept_getitem |].
  intros p'' ? [-> Hp'']. cbn beta. apply ensures_ret.
  split; [done |]. unfold outside in *. cbn. rewrite Hp''. auto.
Qed.

Lemma kept_rnn_vector_forecasting x_train y_train x_valid y_valid st :
  σ `prefix_of` heap st →
  ensures (rnn_vector_forecasting c x_train y_train x_valid y_valid) st
    (λ r st', σ `prefix_of` heap st' ∧ outside σ r.2).
Proof.
  intros Hσ. unfold rnn_vector_forecasting.
  apply ensures_bind. eapply ensures_mono; [by apply kept_reshape |].
  intros yt st1 [Hσ1 _]. cbn beta.
  apply ensures_bind. eapply ensures_mono; [by apply kept_reshape |].
  intros yv st2 [Hσ2 _]. cbn beta.
  apply ensures_bind. eapply ensures_mono; [apply kept_model_fit |].
  intros [md hist] ? ->. cbn beta iota.
  apply ensures_bind. eapply ensures_mono; [by apply kept_model_predict |].
  intros p st3 [Hσ3 Hp]. cbn beta.
  apply ensures_bind. eapply ensures_mono; [by apply kept_reshape |].
  intros p' st4 [Hσ4 Hp']. cbn beta. apply ensures_ret. split; [done |]. cbn. auto.
Qed.

Lemma kept_rnn_iterative_forecasting x_train y_train x_valid y_valid st :
  σ `prefix_of` heap st →
  ensures (rnn_iterative_forecasting c x_train y_train x_valid y_valid) st
    (λ r st', σ `prefix_of` heap st' ∧ outside σ r.2).
Proof.
  intros Hσ. unfold rnn_iterative_forecasting.
  apply ensures_bind. eapply ensures_mono; [apply kept_getitem |].
  intros y0 ? [-> _]. cbn beta.
  apply ensures_bind. eapply ensures_mono; [apply kept_model_fit |].
  intros [md hist] ? ->. cbn beta iota.
  apply ensures_bind. eapply ensures_mono; [by apply kept_alloc |].
  intros full st1 [Hσ1 Hfull]. cbn beta.
  apply ensures_bind. eapply ensures_mono; [apply kept_getitem |].
  intros src ? [-> _]. cbn beta.
  apply ensures_bind. eapply ensures_mono; [apply kept_getitem |].
  intros dst ? [-> Hdst]. cbn beta.
  apply ensures_bind. eapply ensures_mono.
  { apply kept_setitem; [done |]. unfold outside in *. by rewrite Hdst. }
  intros [] st2 Hσ2. cbn beta.
  apply ensures_bind. eapply ensures_mono.
  { apply (ensures_for_each (λ st', σ `prefix_of` heap st')); [exact Hσ2 |].
    intros k st3 Hσ3. cbn zeta.
    apply ensures_bind. eapply ensures_mono; [apply kept_getitem |].
    intros x ? [-> _]. cbn beta.
    apply ensures_bind. eapply ensures_mono; [by apply kept_model_predict |].
    intros out st4 [Hσ4 _]. cbn beta.
    apply ensures_bind. eapply ensures_mono; [by apply kept_reshape |].
    intros out' st5 [Hσ5 _]. cbn beta.
    apply ensures_bind. eapply ensures_mono; [apply kept_getitem |].
    intros d ? [-> Hd]. cbn beta.
    apply kept_setitem; [done |]. unfold outside in *. by rewrite Hd. }
  intros [] st3 Hσ3. cbn beta.
  apply ensures_bind. eapply ensures_mono; [apply kept_getitem |].
  intros y_pred ? [-> Hy]. cbn beta.
  apply ensures_bind. eapply ensures_mono; [apply kept_mse_loss |].
  intros loss ? ->. cbn beta. apply ensures_ret.
  split; [done |]. unfold outside in *. cbn. by rewrite Hy.
Qed.

Lemma kept_plot (p : plotter A) y_data name batch_size batch_id st :
  σ `prefix_of` heap st →
  ensures (plot p y_data name batch_size batch_id) st (λ _ st', σ `prefix_of` heap st').
Proof.
  intros Hσ. unfold plot.
  apply ensures_bind. eapply ensures_mono; [apply kept_getitem |].
  intros y ? [-> _]. cbn beta.
  apply ensures_bind. eapply ensures_mono; [by apply kept_reshape |].
  intros r st1 [Hσ1 _]. cbn beta.
  apply ensures_bind. eapply ensures_mono; [apply kept_getitem |].
  intros d ? [-> _]. cbn beta.
  apply ensures_bind. eapply ensures_mono; [apply kept_read_view |].
  intros line ? ->. cbn beta. by apply ensures_ret.
Qed.

End KeptByTheScript.

Lemma prefix_of_items {A} (st st' : state A) :
  heap st `prefix_of` heap st' →
  ∀ a idx, is_Some (item st a idx) → item st' a idx = item st a idx.
Proof.
  intros [ext Hext] a idx. unfold item. rewrite Hext. intros [x Hx].
  destruct (heap st !! base a) as [buf|] eqn:Hb; [|done].
  rewrite lookup_app_l; [by rewrite Hb | by eapply lookup_lt_Some].
Qed.

Section StoreKept.
Context {A : Type} `{Scalar A} `{Keras A}.
Variable c : constants.

(** X1: iterative forecasting fills its accumulated sequence in place, yet
    whatever its arguments and whatever the framework answers, a call that
    returns has only added buffers to the store: every buffer that existed
    is unchanged, and so is every element of every array of the store; the
    prediction it returns lies in a buffer of its own, not in one of the
    inputs. *)
Theorem iterative_forecasting_keeps_the_store
    (x_train y_train x_valid y_valid : ndarray) (st : state A) loss y_pred st' :
  rnn_iterative_forecasting c x_train y_train x_valid y_valid st = Ok ((loss, y_pred), st') →
  heap st `prefix_of` heap st'
  ∧ length (heap st) ≤ base y_pred
  ∧ ∀ a idx, is_Some (item st a idx) → item st' a idx = item st a idx.
Proof.
  intros Hrun.
  destruct (kept_rnn_iterative_forecasting c (heap st) x_train y_train x_valid y_valid st
              (reflexivity _) _ _ Hrun) as [Hpre Hout].
  split; [done |]. split; [exact Hout |]. by apply prefix_of_items.
Qed.

(** X2: each of the four sequence-to-sequence strategies, and the strategy
    that predicts all the steps at once, leaves every buffer that existed
    before the call unchanged, whatever its arguments and the framework;
    the prediction it returns lies in a new buffer. *)
Theorem trained_strategies_keep_the_store
    (x_train y_train x_valid y_valid series : ndarray) (ix : nat * nat) (st : state A) :
  Forall (λ strategy : M A (history * ndarray),
      ∀ hist y_pred st', strategy st = Ok ((hist, y_pred), st') →
        heap st `prefix_of` heap st'
        ∧ length (heap st) ≤ base y_pred
        ∧ ∀ a idx, is_Some (item st a idx) → item st' a idx = item st a idx)
    [rnn_sequence_forecasting c x_train x_valid series ix;
     rnn_lstm_sequence_forecasting c x_train x_valid series ix;
     rnn_gru_sequence_forecasting c x_train x_valid series ix;
     cnn_vector_forecasting c x_train x_valid series ix;
     rnn_vector_forecasting c x_train y_train x_valid y_valid].
Proof.
  repeat apply Forall_cons_2; [..| apply Forall_nil_2]; intros hist y_pred st' Hrun.
  1-4: destruct (kept_sequence_forecasting c (heap st) _ x_train x_valid series ix st
                  (reflexivity _) _ _ Hrun) as [Hpre Hout].
  5: destruct (kept_rnn_vector_forecasting c (heap st) x_train y_train x_valid y_valid st
                 (reflexivity _) _ _ Hrun) as [Hpre Hout].
  all: split; [done |]; split; [exact Hout |]; by apply prefix_of_items.
Qed.

End StoreKept.

Lemma iterative_forecasting_keeps_the_store_witness :
  let x := NdArray 0 (View 0 [(1, 4); (2, 1); (1, 1)]) Float32 in
  let y := NdArray 0 (View 2 [(1, 4); (2, 1); (1, 1)]) Float32 in
  ∃ loss y_pred st',
    rnn_iterative_forecasting (H := R_scalar (λ x, x)) (H0 := constant_keras [1; 1])
      small x y x y small_state = Ok ((loss, y_pred), st')
    ∧ heap small_state `prefix_of` heap st'
    ∧ length (heap small_state) ≤ base y_pred
    ∧ ∀ a idx, is_Some (item small_state a idx) → item st' a idx = item small_state a idx.
Proof.
  intros x y. eexists _, _, _. split; [vm_compute; reflexivity |].
  eapply (iterative_forecasting_keeps_the_store (H := R_scalar (λ x, x))
            (H0 := constant_keras [1; 1]) small x y x y small_state).
  vm_compute. reflexivity.
Defined.

Lemma trained_strategies_keep_the_store_witness :
  let x := NdArray 0 (View 0 [(1, 4); (2, 1); (1, 1)]) Float32 in
  let y := NdArray 0 (View 2 [(1, 4); (2, 1); (1, 1)]) Float32 in
  ∃ hist y_pred st',
    rnn_vector_forecasting (H0 := constant_keras [1; 2])
      small x y x y small_state = Ok ((hist, y_pred), st')
    ∧ heap small_state `prefix_of` heap st'
    ∧ length (heap small_state) ≤ base y_pred
    ∧ ∀ a idx, is_Some (item small_state a idx) → item st' a idx = item small_state a idx.
Proof.
  intros x y. eexists _, _, _. split; [vm_compute; reflexivity |].
  pose proof (trained_strategies_keep_the_store (H := R_scalar (λ x, x))
                (H0 := constant_keras [1; 2]) small x y x y small_series (indices small)
                small_state) as Hall.
  do 4 apply Forall_cons_1 in Hall as [_ Hall]. apply Forall_cons_1 in Hall as [Hv _].
  eapply Hv. vm_compute. reflexivity.
Defined.

(** * The windowing utility on other series *)

Lemma broadcast_outer_fails v b l f s0 s1 s2 b' k f' :
  v_dims v = [(b, s0); (l, s1); (f, s2)] →
  (b ≠ b' ∧ b ≠ 1) ∨ (f ≠ f' ∧ f ≠ 1) →
  ∃ e, broadcast_to v [b'; k; f'] = Raise e.
Proof.
  intros Hd Hne. unfold broadcast_to, broadcast_dims. rewrite Hd. cbn.
  destruct (decide (f = f')), (decide (f = 1)), (decide (l = k)), (decide (l = 1)),
    (decide (b = b')), (decide (b = 1)); cbn; eauto; lia.
Qed.

Lemma broadcast_outer_run v b l f s0 s1 s2 b' f' :
  v_dims v = [(b, s0); (l, s1); (f, s2)] →
  b = b' ∨ b = 1 → f = f' ∨ f = 1 →
  ∃ bv, broadcast_to v [b'; l; f'] = Ok bv
    ∧ ∀ i t j, i < b' → j < f' →
        pos bv [i; t; j]
        = pos v [if decide (b = 1) then 0 else i; t; if decide (f = 1) then 0 else j].
Proof.
  intros Hd Hb Hf. unfold broadcast_to, broadcast_dims, pos. rewrite Hd. cbn.
  destruct (decide (f = f')), (decide (f = 1)); cbn; try lia;
    (destruct (decide (l = l)); [| done]); cbn;
    destruct (decide (b = b')), (decide (b = 1)); cbn; try lia;
    (eexists; split; [done |]); cbn; intros i t j Hi Hj; nia.
Qed.

Section OtherSeries.
Context {A : Type} `{Scalar A}.
Variable c : constants.

Local Abbreviation B := (INITIAL_BATCH_SIZE c).
Local Abbreviation n := (N_INPUT_STEPS c).
Local Abbreviation m := (N_PREDICTIONS c).
Local Abbreviation F := (N_FEATURES c).

(** The loop of [get_sequence_to_sequence_data] on a series of which the
    batch size or the feature count is 1: the assignment broadcasts. *)
Lemma sequence_targets_broadcast_run (series : ndarray) (st : state A) B' S F' sbuf :
  heap st !! base series = Some sbuf →
  fits (geom series) (length sbuf) = true →
  shape series = [B'; S; F'] →
  B' = B ∨ B' = 1 → F' = F ∨ F' = 1 →
  n + m ≤ S →
  ∃ ybuf,
    sequence_targets c series st
      = Ok (targets_array c (length (heap st)), set_heap (heap st ++ [ybuf]) st)
    ∧ length ybuf = numel [B; n; m; F]
    ∧ ∀ row t k f, row < B → t < n → 1 ≤ k ≤ m → f < F →
        ybuf !! pos (contiguous [B; n; m; F]) [row; t; k - 1; f]
        = sbuf !! pos (geom series)
            [if decide (B' = 1) then 0 else row; t + k; if decide (F' = 1) then 0 else f].
Proof.
  intros Hs Hfs Hsh HB HF HS.
  destruct (dims_of_shape3 _ _ _ _ Hsh) as (s0 & s1 & s2 & Hdims).
  set (Y := targets_array c (length (heap st))).
  set (I := λ (done : list nat) (st' : state A),
    ∃ ybuf, st' = set_heap (heap st ++ [ybuf]) st
      ∧ length ybuf = numel [B; n; m; F]
      ∧ ∀ row t k f, k ∈ done → row < B → t < n → 1 ≤ k ≤ m → f < F →
          ybuf !! pos (contiguous [B; n; m; F]) [row; t; k - 1; f]
          = sbuf !! pos (geom series)
              [if decide (B' = 1) then 0 else row; t + k;
               if decide (F' = 1) then 0 else f]).
  assert (returns (for_each (range 1 (m + 1)) (λ step_ahead,
      src ← getitem series
        [All; Range (Some (Z.of_nat step_ahead)) (Some (Z.of_nat (step_ahead + n))); All];
      dst ← getitem Y [All; All; At (Z.of_nat step_ahead - 1); All];
      setitem dst src))
    (set_heap (heap st ++ [uninit st <$> seq 0 (numel [B; n; m; F])]) st)
    (λ _ st', I (range 1 (m + 1)) st')) as Hloop.
  { apply returns_for_each.
    - eexists. split; [done |]. split; [by rewrite length_fmap, length_seq |].
      intros ? ? ? ? Hin. by apply elem_of_nil in Hin.
    - intros done k rest st' Hxs (ybuf & -> & Hlen & Hinv).
      assert (1 ≤ k ≤ m) as Hk.
      { assert (k ∈ range 1 (m + 1)) as Hin.
        { rewrite Hxs. apply elem_of_app. right. by left. }
        apply elem_of_seq in Hin. lia. }
      assert (∃ vs, subscript_view
          [All; Range (Some (Z.of_nat k)) (Some (Z.of_nat (k + n))); All] (geom series) = Ok vs
        ∧ (∃ o, v_dims vs = [(B', s0); (n, s1); (F', s2)] ∧ v_offset vs = o)
        ∧ ∀ row t f, pos vs [row; t; f] = pos (geom series) [row; t + k; f])
        as (vs & Hvs & (o & Hdvs & _) & Hps).
      { unfold subscript_view, v_shape, pos. rewrite Hdims. cbn.
        rewrite slice_range_nat, !Nat.min_l by lia. cbn.
        eexists. split; [done |]. cbn.
        split; [eexists; split; [do 3 f_equal; lia | done] | intros; lia]. }
      assert (∃ vd, subscript_view [All; All; At (Z.of_nat k - 1); All] (geom Y) = Ok vd
        ∧ v_shape vd = [B; n; F]
        ∧ ∀ row t f, pos vd [row; t; f] = pos (contiguous [B; n; m; F]) [row; t; k - 1; f])
        as (vd & Hvd & Hshd & Hpd).
      { unfold subscript_view, v_shape, pos. cbn. rewrite norm_index_pred by done. cbn.
        eexists. split; [done |]. cbn. split; [done | intros; lia]. }
      destruct (broadcast_outer_run vs _ _ _ _ _ _ B F Hdvs HB HF) as (bsrc & Hbsrc & Hpb).
      apply returns_bind. eapply returns_run; [by apply getitem_run |].
      apply returns_bind. eapply returns_run; [by apply getitem_run |].
      edestruct (setitem_run (NdArray (base Y) vd (dt Y)) (NdArray (base series) vs (dt series))
                   bsrc sbuf ybuf (set_heap (heap st ++ [ybuf]) st))
        as (ybuf' & Hrun & Hlen' & Hin & Hout).
      { unfold shape. simpl. by rewrite Hshd. }
      { simpl. rewrite lookup_app_l; [done | by eapply lookup_lt_Some]. }
      { simpl. by eapply subscript_view_fits. }
      { simpl. apply lookup_snoc. }
      { simpl. eapply subscript_view_fits; [done |]. apply fits_contiguous. lia. }
      { simpl. eapply subscript_view_no_overlap; [done |]. apply no_overlap_contiguous. }
      eapply returns_run; [exact Hrun |].
      exists ybuf'. split; [| split; [by rewrite Hlen' |]].
      { unfold set_heap. simpl. by rewrite insert_snoc. }
      unfold shape in Hin, Hout. simpl in Hin, Hout. rewrite Hshd in Hin, Hout.
      intros row t k' f Hk' Hrow Ht Hk'r Hf.
      destruct (decide (k' = k)) as [-> | Hne].
      + rewrite <- Hpd, Hin by (repeat constructor; done).
        rewrite Hpb by done. rewrite Hps.
        simpl. rewrite convert_to_double. by destruct (sbuf !! _).
      + rewrite Hout.
        * apply Hinv; [|done..].
          apply elem_of_app in Hk' as [Hd | Hl]; [done |].
          by apply list_elem_of_singleton in Hl.
        * intros idx Hr Heq.
          apply Forall2_cons_inv_r in Hr as (r' & idx1 & Hr1 & Hr & ->).
          apply Forall2_cons_inv_r in Hr as (t' & idx2 & Hr2 & Hr & ->).
          apply Forall2_cons_inv_r in Hr as (f' & idx3 & Hr3 & Hr & ->).
          apply Forall2_nil_inv_r in Hr as ->.
          rewrite Hpd in Heq.
          apply (no_overlap_contiguous [B; n; m; F] 0) in Heq.
          -- simplify_eq. lia.
          -- unfold v_shape. simpl. repeat constructor; lia.
          -- unfold v_shape. simpl. repeat constructor; lia. }
  destruct Hloop as ([] & st' & Hrun & ybuf & -> & Hlen & Hinv).
  exists ybuf. split; [| split; [done |]].
  - apply returns_eq. unfold sequence_targets.
    apply returns_bind. eapply returns_run; [reflexivity |].
    apply returns_bind. eapply returns_run; [exact Hrun |].
    by apply returns_ret.
  - intros row t k f Hrow Ht Hk Hf. apply Hinv; [|done..].
    apply elem_of_seq. lia.
Qed.

End OtherSeries.

Section OtherSeriesTheorems.
Context {A : Type} `{Scalar A}.
Variable c : constants.

Local Abbreviation B := (INITIAL_BATCH_SIZE c).
Local Abbreviation n := (N_INPUT_STEPS c).
Local Abbreviation m := (N_PREDICTIONS c).
Local Abbreviation F := (N_FEATURES c).

(** X3: with N_PREDICTIONS ≤ N_STEPS, the windowing utility does not check
    the batch size or the feature count of the series against the
    constants: a series with a single row
    (or a single feature) is accepted, and its row (its feature) is
    repeated over all INITIAL_BATCH_SIZE rows (all N_FEATURES features) of
    the targets, element (row, t, k * features + f) being the step t+k+1 of
    the series; the targets are float64 whatever the dtype of the series. *)
Theorem windowing_broadcasts_a_single_row (series : ndarray) (st : state A) B' S F' :
  m ≤ N_STEPS c →
  valid st series →
  shape series = [B'; S; F'] →
  B' = B ∨ B' = 1 → F' = F ∨ F' = 1 →
  n + m ≤ S →
  ∃ Y st',
    get_sequence_to_sequence_data c series st = Ok (Y, st')
    ∧ shape Y = [B; n; m * F]
    ∧ dt Y = Float64
    ∧ ∀ row t k f, row < B → t < n → k < m → f < F →
        is_Some (item st' Y [row; t; k * F + f])
        ∧ item st' Y [row; t; k * F + f]
          = item st series
              [if decide (B' = 1) then 0 else row; t + k + 1;
               if decide (F' = 1) then 0 else f].
Proof.
  intros _ (sbuf & Hs & Hfs) Hsh HB HF HS.
  destruct (sequence_targets_broadcast_run c series st B' S F' sbuf Hs Hfs Hsh HB HF HS)
    as (ybuf & Hrun & Hlen & Hy).
  exists (NdArray (length (heap st)) (contiguous [B; n; m * F]) Float64),
         (set_heap (heap st ++ [ybuf]) st).
  split.
  { apply returns_eq. unfold get_sequence_to_sequence_data.
    apply returns_bind. eapply returns_run; [exact Hrun |].
    eapply returns_run; [| done]. apply reshape_contiguous_run. simpl. lia. }
  split; [done |]. split; [done |].
  intros row t k f Hrow Ht Hk Hf.
  assert (item (set_heap (heap st ++ [ybuf]) st)
            (NdArray (length (heap st)) (contiguous [B; n; m * F]) Float64)
            [row; t; k * F + f]
          = item st series
              [if decide (B' = 1) then 0 else row; t + k + 1;
               if decide (F' = 1) then 0 else f]) as Heq.
  { unfold item at 2. rewrite Hs. cbn [mbind option_bind].
    replace (t + k + 1) with (t + (k + 1)) by lia.
    rewrite <- (Hy row t (k + 1) f) by lia.
    unfold item. cbn [heap set_heap base geom]. rewrite lookup_snoc. cbn [mbind option_bind].
    f_equal. unfold pos. simpl. lia. }
  rewrite Heq. split; [| done].
  unfold item. rewrite Hs. cbn [mbind option_bind].
  apply lookup_lt_is_Some_2, (fits_pos (geom series)); [done |].
  fold (shape series). rewrite Hsh.
  repeat constructor; repeat case_decide; lia.
Qed.

(** X4: a series whose batch size is neither INITIAL_BATCH_SIZE nor 1, or
    whose feature count is neither N_FEATURES nor 1, is rejected by the
    windowing utility with the [ValueError] of the first assignment, which
    does not broadcast. *)
Theorem windowing_rejects_other_batch_sizes (series : ndarray) (st : state A) B' S F' :
  shape series = [B'; S; F'] →
  0 < m →
  (B' ≠ B ∧ B' ≠ 1) ∨ (F' ≠ F ∧ F' ≠ 1) →
  raises (get_sequence_to_sequence_data c series) st ValueError.
Proof.
  intros Hsh Hm Hne.
  destruct (dims_of_shape3 _ _ _ _ Hsh) as (s0 & s1 & s2 & Hdims).
  unfold get_sequence_to_sequence_data. apply raises_now.
  unfold sequence_targets.
  apply raises_later. eapply returns_run; [reflexivity |].
  apply raises_now.
  replace (range 1 (m + 1)) with (1 :: range 2 (m + 1))
    by (rewrite (range_split 1 (m + 1) 1) by lia; done).
  cbn [for_each]. apply raises_now.
  set (Y := targets_array c (length (heap st))).
  assert (∃ vs, subscript_view
      [All; Range (Some (Z.of_nat 1)) (Some (Z.of_nat (1 + n))); All] (geom series) = Ok vs
    ∧ v_dims vs = [(B', s0); ((1 + n) `min` S - 1 `min` S, s1); (F', s2)])
    as (vs & Hvs & Hdvs).
  { unfold subscript_view, v_shape. rewrite Hdims. cbn.
    rewrite slice_range_nat. cbn. eauto. }
  assert (∃ vd, subscript_view [All; All; At (Z.of_nat 1 - 1); All] (geom Y) = Ok vd
    ∧ v_shape vd = [B; n; F]) as (vd & Hvd & Hshd).
  { unfold subscript_view, v_shape. cbn. rewrite norm_index_pred by lia. cbn. eauto. }
  destruct (broadcast_outer_fails vs _ _ _ _ _ _ B n F Hdvs Hne) as [e He].
  apply raises_later. eapply returns_run; [by apply getitem_run |].
  apply raises_later. eapply returns_run; [by apply getitem_run |].
  eapply setitem_raises. unfold shape. simpl. rewrite Hshd. exact He.
Qed.

(** X5: with 0 < N_PREDICTIONS ≤ N_STEPS, a series with fewer than three
    axes is rejected by the windowing utility with an [IndexError]: its
    first slice has three subscripts. *)
Theorem windowing_rejects_series_without_three_axes (series : ndarray) (st : state A) :
  m ≤ N_STEPS c →
  length (shape series) < 3 →
  0 < m →
  raises (get_sequence_to_sequence_data c series) st IndexError.
Proof.
  intros _ Hlen Hm.
  unfold get_sequence_to_sequence_data. apply raises_now.
  unfold sequence_targets.
  apply raises_later. eapply returns_run; [reflexivity |].
  apply raises_now.
  replace (range 1 (m + 1)) with (1 :: range 2 (m + 1))
    by (rewrite (range_split 1 (m + 1) 1) by lia; done).
  cbn [for_each]. apply raises_now. apply raises_now.
  apply getitem_raises. unfold subscript_view. fold (shape series).
  destruct (shape series) as [|k0 [|k1 [|k2 sh]]]; cbn; try done.
  simpl in Hlen. lia.
Qed.

End OtherSeriesTheorems.

Lemma windowing_broadcasts_a_single_row_witness :
  let row0 := NdArray 0 (contiguous [1; 4; 1]) Float32 in
  ∃ Y st',
    get_sequence_to_sequence_data (H := R_scalar (λ x, x)) small row0 small_state = Ok (Y, st')
    ∧ shape Y = [2; 2; 2 * 1]
    ∧ dt Y = Float64
    ∧ ∀ row t k f, row < 2 → t < 2 → k < 2 → f < 1 →
        is_Some (item st' Y [row; t; k * 1 + f])
        ∧ item st' Y [row; t; k * 1 + f]
          = item small_state row0
              [if decide (1 = 1) then 0 else row; t + k + 1;
               if decide (1 = 1) then 0 else f].
Proof.
  intros row0.
  apply (windowing_broadcasts_a_single_row (H := R_scalar (λ x, x)) small row0 small_state
           1 4 1).
  - simpl. lia.
  - eexists. split; reflexivity.
  - reflexivity.
  - right. reflexivity.
  - left. reflexivity.
  - simpl. lia.
Defined.

Lemma windowing_rejects_other_batch_sizes_witness :
  raises (get_sequence_to_sequence_data (H := R_scalar (λ x, x)) small
            (NdArray 0 (contiguous [4; 2; 1]) Float32)) small_state ValueError.
Proof.
  apply (windowing_rejects_other_batch_sizes (H := R_scalar (λ x, x)) small
           (NdArray 0 (contiguous [4; 2; 1]) Float32) small_state 4 2 1).
  - reflexivity.
  - simpl. lia.
  - left. simpl. lia.
Defined.

Lemma windowing_rejects_series_without_three_axes_witness :
  raises (get_sequence_to_sequence_data (H := R_scalar (λ x, x)) small
            (NdArray 0 (contiguous [2; 4]) Float32)) small_state IndexError.
Proof.
  apply (windowing_rejects_series_without_three_axes (H := R_scalar (λ x, x)) small
           (NdArray 0 (contiguous [2; 4]) Float32) small_state).
  - simpl. lia.
  - simpl. lia.
  - simpl. lia.
Defined.

(** * The partition, for any constants *)

Section Partition.
Context {A : Type}.
Variable c : constants.

Local Abbreviation TB := (TRAINING_BATCH_SIZE c).
Local Abbreviation VB := (VALIDATION_BATCH_SIZE c).
Local Abbreviation n := (N_INPUT_STEPS c).
Local Abbreviation m := (N_PREDICTIONS c).

(** Lines 305 to 307 on a series of [R] rows of [T] steps. *)
Lemma partition_run (series : ndarray) (st : state A) R T F' :
  shape series = [R; T; F'] →
  TB + VB ≤ R → n ≤ T → 0 < m ≤ T →
  ∃ x_train y_train x_valid y_valid x_test y_test,
    partition c series st
      = Ok ([(x_train, y_train); (x_valid, y_valid); (x_test, y_test)], st)
    ∧ Forall (λ w, base w = base series ∧ dt w = dt series)
        [x_train; y_train; x_valid; y_valid; x_test; y_test]
    ∧ shape x_train = [TB; n; F'] ∧ shape y_train = [TB; m; F']
    ∧ shape x_valid = [VB; n; F'] ∧ shape y_valid = [VB; m; F']
    ∧ shape x_test = [R - (TB + VB); n; F'] ∧ shape y_test = [R - (TB + VB); m; F']
    ∧ ∀ r t f,
        pos (geom x_train) [r; t; f] = pos (geom series) [r; t; f]
        ∧ pos (geom y_train) [r; t; f] = pos (geom series) [r; T - m + t; f]
        ∧ pos (geom x_valid) [r; t; f] = pos (geom series) [TB + r; t; f]
        ∧ pos (geom y_valid) [r; t; f] = pos (geom series) [TB + r; T - m + t; f]
        ∧ pos (geom x_test) [r; t; f] = pos (geom series) [TB + VB + r; t; f]
        ∧ pos (geom y_test) [r; t; f] = pos (geom series) [TB + VB + r; T - m + t; f].
Proof.
  intros Hsh HR Hn Hm.
  destruct (dims_of_shape3 _ _ _ _ Hsh) as (s0 & s1 & s2 & Hdims).
  assert (∀ subs v, subscript_view subs (geom series) = Ok v →
            getitem series subs st = Ok (NdArray (base series) v (dt series), st)) as Hget.
  { intros subs v Hv. by apply getitem_run. }
  unfold partition.
  eexists _, _, _, _, _, _. split.
  { apply returns_eq.
    do 6 (apply returns_bind; eapply returns_run;
      [ apply Hget; unfold subscript_view, v_shape; rewrite Hdims; cbn;
        rewrite ?slice_range_to, ?slice_range_nat, ?slice_range_from,
                ?(slice_range_tail T m) by lia;
        reflexivity | ]).
    by apply returns_ret. }
  split; [repeat constructor |].
  unfold shape, v_shape, pos. rewrite Hdims. cbn.
  rewrite !Nat.min_l by lia.
  do 6 (split; [repeat f_equal; lia |]).
  intros r t f. repeat split; lia.
Qed.

(** X6: for constants with N_PREDICTIONS ≤ N_STEPS, on a series of R rows
    and T steps with
    TRAINING_BATCH_SIZE + VALIDATION_BATCH_SIZE ≤ R, n ≤ T and 0 < m ≤ T the
    script's six windows are views of the buffer of the series (nothing is
    copied and the store is unchanged); the input windows hold the first n
    steps and the target windows the last m steps, from step T - m on; the
    test windows take all the R - (TRAINING + VALIDATION) rows that remain:
    TESTING_BATCH_SIZE is not used. *)
Theorem partition_gives_the_remaining_rows_to_the_test (series : ndarray) (st : state A)
    R T F' :
  m ≤ N_STEPS c →
  shape series = [R; T; F'] →
  TB + VB ≤ R → n ≤ T → 0 < m ≤ T →
  ∃ x_train y_train x_valid y_valid x_test y_test,
    partition c series st
      = Ok ([(x_train, y_train); (x_valid, y_valid); (x_test, y_test)], st)
    ∧ Forall (λ w, base w = base series ∧ dt w = dt series)
        [x_train; y_train; x_valid; y_valid; x_test; y_test]
    ∧ shape x_train = [TB; n; F'] ∧ shape y_train = [TB; m; F']
    ∧ shape x_valid = [VB; n; F'] ∧ shape y_valid = [VB; m; F']
    ∧ shape x_test = [R - (TB + VB); n; F'] ∧ shape y_test = [R - (TB + VB); m; F']
    ∧ ∀ r t f,
        item st x_train [r; t; f] = item st series [r; t; f]
        ∧ item st y_train [r; t; f] = item st series [r; T - m + t; f]
        ∧ item st x_valid [r; t; f] = item st series [TB + r; t; f]
        ∧ item st y_valid [r; t; f] = item st series [TB + r; T - m + t; f]
        ∧ item st x_test [r; t; f] = item st series [TB + VB + r; t; f]
        ∧ item st y_test [r; t; f] = item st series [TB + VB + r; T - m + t; f].
Proof.
  intros _ Hsh HR Hn Hm.
  destruct (partition_run series st R T F' Hsh HR Hn Hm)
    as (x_train & y_train & x_valid & y_valid & x_test & y_test & Hrun & Hbase & Hshapes).
  exists x_train, y_train, x_valid, y_valid, x_test, y_test.
  split; [done |]. split; [done |].
  destruct Hshapes as (? & ? & ? & ? & ? & ? & Hpos). repeat (split; [done |]).
  intros i t f. destruct (Hpos i t f) as (E1 & E2 & E3 & E4 & E5 & E6).
  apply Forall_cons_1 in Hbase as [[B1 _] Hbase].
  apply Forall_cons_1 in Hbase as [[B2 _] Hbase].
  apply Forall_cons_1 in Hbase as [[B3 _] Hbase].
  apply Forall_cons_1 in Hbase as [[B4 _] Hbase].
  apply Forall_cons_1 in Hbase as [[B5 _] Hbase].
  apply Forall_cons_1 in Hbase as [[B6 _] _].
  unfold item. rewrite B1, B2, B3, B4, B5, B6, E1, E2, E3, E4, E5, E6. done.
Qed.

End Partition.

Lemma partition_gives_the_remaining_rows_to_the_test_witness :
  let c := Constants 4 3 2 1 1 1 0 1 in
  let series := NdArray 0 (contiguous [3; 4; 1]) Float32 in
  let st := State [[1; 2; 3; 4; 5; 6; 7; 8; 9; 10; 11; 12]%R] (λ _, 0%R) (λ _, 0%R) [] in
  ∃ x_train y_train x_valid y_valid x_test y_test,
    partition c series st
      = Ok ([(x_train, y_train); (x_valid, y_valid); (x_test, y_test)], st)
    ∧ Forall (λ w, base w = base series ∧ dt w = dt series)
        [x_train; y_train; x_valid; y_valid; x_test; y_test]
    ∧ shape x_train = [1; 2; 1] ∧ shape y_train = [1; 2; 1]
    ∧ shape x_valid = [1; 2; 1] ∧ shape y_valid = [1; 2; 1]
    ∧ shape x_test = [3 - (1 + 1); 2; 1] ∧ shape y_test = [3 - (1 + 1); 2; 1]
    ∧ ∀ r t f,
        item st x_train [r; t; f] = item st series [r; t; f]
        ∧ item st y_train [r; t; f] = item st series [r; 4 - 2 + t; f]
        ∧ item st x_valid [r; t; f] = item st series [1 + r; t; f]
        ∧ item st y_valid [r; t; f] = item st series [1 + r; 4 - 2 + t; f]
        ∧ item st x_test [r; t; f] = item st series [1 + 1 + r; t; f]
        ∧ item st y_test [r; t; f] = item st series [1 + 1 + r; 4 - 2 + t; f].
Proof.
  intros c series st.
  apply (partition_gives_the_remaining_rows_to_the_test c series st 3 4 1).
  - simpl. lia.
  - reflexivity.
  - simpl. lia.
  - unfold N_INPUT_STEPS. simpl. lia.
  - simpl. lia.
Defined.

(** * The targets of the last input step *)

Section TargetsAndWindows.
Context {A : Type} `{Scalar A}.
Variable c : constants.

Local Abbreviation B := (INITIAL_BATCH_SIZE c).
Local Abbreviation TB := (TRAINING_BATCH_SIZE c).
Local Abbreviation VB := (VALIDATION_BATCH_SIZE c).
Local Abbreviation N := (N_STEPS c).
Local Abbreviation n := (N_INPUT_STEPS c).
Local Abbreviation m := (N_PREDICTIONS c).
Local Abbreviation F := (N_FEATURES c).

(** X7: on a series of the sizes of the script, the targets that the
    windowing utility builds for the last input step are the target
    windows of the partition: for the rows of each partition, the element
    (row, n-1, k * features + f) of the windowed targets is the element
    (row, k, f) of the target window.  The sequence-to-sequence strategies,
    whose prediction is the output at the last input step, are thus
    compared with the same targets as the other strategies. *)
Theorem last_step_targets_are_the_target_windows (series : ndarray) (st : state A) :
  valid st series →
  shape series = [B; N; F] →
  0 < m → m < N →
  TB + VB ≤ B →
  ∃ x_train y_train x_valid y_valid x_test y_test Y st',
    partition c series st
      = Ok ([(x_train, y_train); (x_valid, y_valid); (x_test, y_test)], st)
    ∧ get_sequence_to_sequence_data c series st = Ok (Y, st')
    ∧ (∀ r k f, r < TB → k < m → f < F →
         is_Some (item st y_train [r; k; f])
         ∧ item st' Y [r; n - 1; k * F + f] = item st y_train [r; k; f])
    ∧ (∀ r k f, r < VB → k < m → f < F →
         is_Some (item st y_valid [r; k; f])
         ∧ item st' Y [TB + r; n - 1; k * F + f] = item st y_valid [r; k; f])
    ∧ (∀ r k f, r < B - (TB + VB) → k < m → f < F →
         is_Some (item st y_test [r; k; f])
         ∧ item st' Y [TB + VB + r; n - 1; k * F + f] = item st y_test [r; k; f]).
Proof.
  intros Hv Hsh Hm HN HB.
  pose proof Hv as (sbuf & Hs & Hfs).
  assert (n + m = N) as Hnm by (unfold N_INPUT_STEPS; lia).
  destruct (partition_run c series st B N F Hsh HB) as
    (x_train & y_train & x_valid & y_valid & x_test & y_test & Hpart & Hbase & Hshapes);
    [lia | lia |].
  destruct Hshapes as (_ & _ & _ & _ & _ & _ & Hpos).
  destruct (sequence_targets_run c series st N sbuf Hs Hfs Hsh) as (ybuf & Hrun & Hlen & Hy);
    [lia |].
  set (Y := NdArray (length (heap st)) (contiguous [B; n; m * F]) Float64).
  set (st' := set_heap (heap st ++ [ybuf]) st).
  assert (∀ row k f, row < B → k < m → f < F →
            is_Some (item st series [row; N - m + k; f])
            ∧ item st' Y [row; n - 1; k * F + f] = item st series [row; N - m + k; f]) as HY.
  { intros row k f Hrow Hk Hf. split.
    - apply valid_lookup; [done |]. rewrite Hsh. repeat constructor; lia.
    - unfold item at 2. rewrite Hs. cbn [mbind option_bind].
      replace (N - m + k) with (n - 1 + (k + 1)) by lia.
      rewrite <- (Hy row (n - 1) (k + 1) f) by lia.
      unfold item. cbn [heap set_heap base geom st' Y]. rewrite lookup_snoc.
      cbn [mbind option_bind]. f_equal. unfold pos. simpl. lia. }
  apply Forall_cons_1 in Hbase as [_ Hbase].
  apply Forall_cons_1 in Hbase as [[B2 _] Hbase].
  apply Forall_cons_1 in Hbase as [_ Hbase].
  apply Forall_cons_1 in Hbase as [[B4 _] Hbase].
  apply Forall_cons_1 in Hbase as [_ Hbase].
  apply Forall_cons_1 in Hbase as [[B6 _] _].
  exists x_train, y_train, x_valid, y_valid, x_test, y_test, Y, st'.
  split; [done |]. split.
  { apply returns_eq. unfold get_sequence_to_sequence_data.
    apply returns_bind. eapply returns_run; [exact Hrun |].
    eapply returns_run; [| done]. apply reshape_contiguous_run. simpl. lia. }
  split; [| split]; intros r k f Hr Hk Hf; destruct (Hpos r k f) as (_ & E2 & _ & E4 & _ & E6).
  - assert (item st y_train [r; k; f] = item st series [r; N - m + k; f]) as ->.
    { unfold item. by rewrite B2, E2. }
    apply HY; lia.
  - assert (item st y_valid [r; k; f] = item st series [TB + r; N - m + k; f]) as ->.
    { unfold item. by rewrite B4, E4. }
    apply HY; lia.
  - assert (item st y_test [r; k; f] = item st series [TB + VB + r; N - m + k; f]) as ->.
    { unfold item. by rewrite B6, E6. }
    apply HY; lia.
Qed.

End TargetsAndWindows.

Lemma last_step_targets_are_the_target_windows_witness :
  ∃ x_train y_train x_valid y_valid x_test y_test Y st',
    partition small small_series small_state
      = Ok ([(x_train, y_train); (x_valid, y_valid); (x_test, y_test)], small_state)
    ∧ get_sequence_to_sequence_data (H := R_scalar (λ x, x)) small small_series small_state
      = Ok (Y, st')
    ∧ (∀ r k f, r < 1 → k < 2 → f < 1 →
         is_Some (item small_state y_train [r; k; f])
         ∧ item st' Y [r; N_INPUT_STEPS small - 1; k * 1 + f]
           = item small_state y_train [r; k; f])
    ∧ (∀ r k f, r < 1 → k < 2 → f < 1 →
         is_Some (item small_state y_valid [r; k; f])
         ∧ item st' Y [1 + r; N_INPUT_STEPS small - 1; k * 1 + f]
           = item small_state y_valid [r; k; f])
    ∧ (∀ r k f, r < 2 - (1 + 1) → k < 2 → f < 1 →
         is_Some (item small_state y_test [r; k; f])
         ∧ item st' Y [1 + 1 + r; N_INPUT_STEPS small - 1; k * 1 + f]
           = item small_state y_test [r; k; f]).
Proof.
  apply (last_step_targets_are_the_target_windows (H := R_scalar (λ x, x)) small
           small_series small_state).
  - eexists. split; reflexivity.
  - reflexivity.
  - simpl. lia.
  - simpl. lia.
  - simpl. lia.
Defined.

(** * More on naive forecasting *)


Section Elements.
Context {A : Type}.
Implicit Types (st : state A) (a b : ndarray).



End Elements.

Section NaiveErrors.
Context {A : Type} `{Scalar A}.
Variable c : constants.

Local Abbreviation VB := (VALIDATION_BATCH_SIZE c).
Local Abbreviation m := (N_PREDICTIONS c).
Local Abbreviation F := (N_FEATURES c).

Lemma range_first k : 0 < k → range 0 k = 0 :: range 1 k.
Proof. intros Hk. by rewrite (range_split 0 k 0) by lia. Qed.

(** X8: naive forecasting on an input window without time steps raises
    [IndexError]: there is no last step to repeat. *)
Theorem naive_forecasting_rejects_an_input_without_steps
    (x_valid y_valid : ndarray) (st : state A) b sh :
  shape x_valid = b :: 0 :: sh →
  0 < m →
  raises (naive_forecasting c x_valid y_valid) st IndexError.
Proof.
  intros Hsh Hm. unfold naive_forecasting, naive_prediction.
  apply raises_now, raises_now. rewrite range_first by done. cbn [list_comp].
  apply raises_now, raises_now, getitem_raises.
  unfold subscript_view. fold (shape x_valid). rewrite Hsh. cbn.
  by rewrite norm_index_empty.
Qed.

(** X9: naive forecasting checks the input window against the constants
    only through the number of elements of its last step: when the batch
    size times the feature count of the input is not
    VALIDATION_BATCH_SIZE * N_FEATURES, the reshape of the last step raises
    [ValueError]. *)
Theorem naive_forecasting_rejects_other_batch_sizes
    (x_valid y_valid : ndarray) (st : state A) b S f :
  shape x_valid = [b; S; f] →
  0 < S → 0 < m →
  b * f ≠ VB * F →
  raises (naive_forecasting c x_valid y_valid) st ValueError.
Proof.
  intros Hsh HS Hm Hne. unfold naive_forecasting, naive_prediction.
  destruct (dims_of_shape3 _ _ _ _ Hsh) as (s0 & s1 & s2 & Hdims).
  apply raises_now, raises_now. rewrite range_first by done. cbn [list_comp].
  apply raises_now.
  assert (∃ vl, subscript_view [All; At (-1)] (geom x_valid) = Ok vl
    ∧ v_dims vl = [(b, s0); (f, s2)]) as (vl & Hvl & Hdl).
  { unfold subscript_view, v_shape. rewrite Hdims. cbn.
    rewrite norm_index_last by done. cbn. eauto. }
  apply raises_later. eapply returns_run; [by apply getitem_run |].
  unfold raises, reshape, shape, v_shape. cbn [geom]. rewrite Hdl.
  rewrite decide_False; [done |]. simpl. lia.
Qed.

End NaiveErrors.

Lemma naive_forecasting_rejects_an_input_without_steps_witness :
  raises (naive_forecasting (H := R_scalar (λ x, x)) small
            (NdArray 0 (contiguous [1; 0; 1]) Float32)
            (NdArray 0 (View 2 [(1, 4); (2, 1); (1, 1)]) Float32)) small_state IndexError.
Proof.
  apply (naive_forecasting_rejects_an_input_without_steps (H := R_scalar (λ x, x)) small
           _ _ small_state 1 [1]).
  - reflexivity.
  - simpl. lia.
Defined.

Lemma naive_forecasting_rejects_other_batch_sizes_witness :
  raises (naive_forecasting (H := R_scalar (λ x, x)) small small_series
            (NdArray 0 (View 2 [(1, 4); (2, 1); (1, 1)]) Float32)) small_state ValueError.
Proof.
  apply (naive_forecasting_rejects_other_batch_sizes (H := R_scalar (λ x, x)) small
           small_series _ small_state 2 4 1).
  - reflexivity.
  - lia.
  - simpl. lia.
  - simpl. lia.
Defined.



(** * More on the metric of the last time step *)

Lemma list_eq_c_order {X} sh (xs ys : list X) :
  length xs = numel sh → length ys = numel sh →
  (∀ idx, in_range idx sh → xs !! dot idx (c_dims sh) = ys !! dot idx (c_dims sh)) →
  xs = ys.
Proof.
  intros Hx Hy Hall. apply list_eq. intros p.
  destruct (decide (p < numel sh)) as [Hp | Hp].
  - destruct (lookup_lt_is_Some_2 (ndindex sh) p) as [idx Hidx];
      [by rewrite length_ndindex |].
    apply ndindex_lookup_inv in Hidx as [Hr ->]. by apply Hall.
  - rewrite !lookup_ge_None_2 by lia. done.
Qed.

Lemma length_chunks {X} k d (xs : list X) : length (chunks k d xs) = k.
Proof. revert xs. induction k as [|k IH]; intros xs; simpl; [done | by rewrite IH]. Qed.


Section LastStepOnly.
Context {A : Type} `{Scalar A}.

(** X11: [last_time_step_mse] depends on the last time step of its two
    arguments only: tensors of sizes (batch, steps, d) that agree at the
    last step give the same metric, one value per row, whatever they hold
    at the earlier steps. *)
Theorem last_time_step_mse_ignores_earlier_steps b s d (ts ts' ps ps' : list A) :
  length ts = numel [b; s; d] → length ts' = numel [b; s; d] →
  length ps = numel [b; s; d] → length ps' = numel [b; s; d] →
  0 < s →
  (∀ i j, i < b → j < d →
     ts !! dot [i; s - 1; j] (c_dims [b; s; d]) = ts' !! dot [i; s - 1; j] (c_dims [b; s; d])) →
  (∀ i j, i < b → j < d →
     ps !! dot [i; s - 1; j] (c_dims [b; s; d]) = ps' !! dot [i; s - 1; j] (c_dims [b; s; d])) →
  ∃ l,
    last_time_step_mse (Tensor [b; s; d] ts) (Tensor [b; s; d] ps) = Ok l
    ∧ last_time_step_mse (Tensor [b; s; d] ts') (Tensor [b; s; d] ps') = Ok l
    ∧ tshape l = [b]
    ∧ length (tdata l) = b.
Proof.
  intros Ht Ht' Hp Hp' Hs Hts Hps.
  destruct (tensor_last_step b s d ts Ht Hs) as (tl & Htl & Hltl & Hetl).
  destruct (tensor_last_step b s d ts' Ht' Hs) as (tl' & Htl' & Hltl' & Hetl').
  destruct (tensor_last_step b s d ps Hp Hs) as (pl & Hpl & Hlpl & Hepl).
  destruct (tensor_last_step b s d ps' Hp' Hs) as (pl' & Hpl' & Hlpl' & Hepl').
  assert (∀ (xl xl' xs xs' : list A),
    length xl = numel [b; d] → length xl' = numel [b; d] →
    (∀ i j, i < b → j < d →
       xl !! dot [i; j] (c_dims [b; d]) = xs !! dot [i; s - 1; j] (c_dims [b; s; d])) →
    (∀ i j, i < b → j < d →
       xl' !! dot [i; j] (c_dims [b; d]) = xs' !! dot [i; s - 1; j] (c_dims [b; s; d])) →
    (∀ i j, i < b → j < d →
       xs !! dot [i; s - 1; j] (c_dims [b; s; d])
       = xs' !! dot [i; s - 1; j] (c_dims [b; s; d])) →
    xl = xl') as Hsame.
  { intros xl xl' xs xs' Hl Hl' He He' Hxs. apply (list_eq_c_order [b; d]); [done | done |].
    intros idx Hr.
    apply Forall2_cons_inv_r in Hr as (i & idx1 & Hi & Hr & ->).
    apply Forall2_cons_inv_r in Hr as (j & idx2 & Hj & Hr & ->).
    apply Forall2_nil_inv_r in Hr as ->.
    by rewrite He, He', Hxs. }
  assert (tl' = tl) as -> by (symmetry; by eapply (Hsame tl tl' ts ts')).
  assert (pl' = pl) as -> by (symmetry; by eapply (Hsame pl pl' ps ps')).
  eexists. split; [| split; [| split]].
  - unfold last_time_step_mse. rewrite Htl, Hpl. cbn [mbind result_bind].
    by apply (mean_squared_error_same [b] d).
  - unfold last_time_step_mse. rewrite Htl', Hpl'. cbn [mbind result_bind].
    by apply (mean_squared_error_same [b] d).
  - done.
  - cbn [tdata]. rewrite length_fmap, length_chunks. simpl. lia.
Qed.

End LastStepOnly.

Lemma last_time_step_mse_ignores_earlier_steps_witness :
  ∃ l,
    last_time_step_mse (H := R_scalar (λ x, x))
      (Tensor [1; 2; 1] [1; 2]%R) (Tensor [1; 2; 1] [3; 5]%R) = Ok l
    ∧ last_time_step_mse (H := R_scalar (λ x, x))
        (Tensor [1; 2; 1] [7; 2]%R) (Tensor [1; 2; 1] [9; 5]%R) = Ok l
    ∧ tshape l = [1]
    ∧ length (tdata l) = 1.
Proof.
  apply (last_time_step_mse_ignores_earlier_steps (H := R_scalar (λ x, x)) 1 2 1
           [1; 2]%R [7; 2]%R [3; 5]%R [9; 5]%R); try reflexivity; try lia.
  - intros i j Hi Hj. assert (i = 0) as -> by lia. assert (j = 0) as -> by lia. reflexivity.
  - intros i j Hi Hj. assert (i = 0) as -> by lia. assert (j = 0) as -> by lia. reflexivity.
Defined.

Section RealMetric.
Variable rnd : R → R.
Local Open Scope R_scope.





End RealMetric.


(** * The samples that the generator draws *)

Section Draws.
Context {A : Type} `{Scalar A}.
Implicit Types (st : state A) (a b : ndarray).

Lemma ensures_bind_draws {X Y} (m : M A X) (f : X → M A Y) st j k' k :
  k = j + k' →
  ensures m st (λ _ st', draws j st st') →
  (∀ x st', ensures (f x) st' (λ _ st'', draws k' st' st'')) →
  ensures (m ≫= f) st (λ _ st'', draws k st st'').
Proof.
  intros -> Hm Hf. apply ensures_bind. eapply ensures_mono; [exact Hm |].
  intros x st' [Hr Hp]. cbn beta. eapply ensures_mono; [apply Hf |].
  intros y st'' [Hr' Hp']. cbn beta. split; [| congruence].
  intros i. rewrite Hr', Hr. f_equal. lia.
Qed.

Lemma draws_ret {X} (x : X) st : ensures (mret x) st (λ _ st', draws 0 st st').
Proof. by apply ensures_ret. Qed.

Lemma draws_lift {X} (r : result X) st : ensures (lift r) st (λ _ st', draws 0 st st').
Proof. by apply ensures_lift. Qed.

Lemma draws_getitem a subs st : ensures (getitem a subs) st (λ _ st', draws 0 st st').
Proof. apply draws_lift. Qed.

Lemma draws_alloc sh d (data : list A) st :
  ensures (alloc sh d data) st (λ _ st', draws 0 st st').
Proof. intros r st' Heq. unfold alloc in Heq. by simplify_eq. Qed.

Lemma draws_read_view l v st :
  ensures (read_view (A := A) l v) st (λ _ st', draws 0 st st').
Proof. eapply ensures_mono; [apply kept_read_view |]. by intros xs ? ->. Qed.

Lemma draws_random_rand sh st :
  ensures (random_rand sh) st (λ _ st', draws (numel sh) st st').
Proof. intros r st' Heq. unfold random_rand, alloc in Heq. by simplify_eq. Qed.

Lemma draws_ufunc1 (f : A → A) a st : ensures (ufunc1 f a) st (λ _ st', draws 0 st st').
Proof.
  unfold ufunc1. eapply (ensures_bind_draws _ _ _ 0 0); [done | apply draws_read_view |].
  intros xs st'. apply draws_alloc.
Qed.

Lemma draws_ufunc2 (f : A → A → A) a b st :
  ensures (ufunc2 f a b) st (λ _ st', draws 0 st st').
Proof.
  unfold ufunc2.
  eapply (ensures_bind_draws _ _ _ 0 0); [done | apply draws_lift |]. intros sh st1.
  eapply (ensures_bind_draws _ _ _ 0 0); [done | apply draws_lift |]. intros va st2.
  eapply (ensures_bind_draws _ _ _ 0 0); [done | apply draws_lift |]. intros vb st3.
  eapply (ensures_bind_draws _ _ _ 0 0); [done | apply draws_read_view |]. intros xs st4.
  eapply (ensures_bind_draws _ _ _ 0 0); [done | apply draws_read_view |]. intros ys st5.
  apply draws_alloc.
Qed.

Lemma draws_iadd a b st : ensures (iadd a b) st (λ _ st', draws 0 st st').
Proof.
  intros [] st' Heq. unfold iadd in Heq.
  destruct (broadcast_to _ _); [|done].
  destruct (read_view (base a) _ st) as [[? ?]|]; [|done].
  destruct (read_view (base b) _ st) as [[? ?]|]; [|done].
  destruct (heap st !! base a); by simplify_eq.
Qed.

Lemma draws_reshape a sh st : ensures (reshape a sh) st (λ _ st', draws 0 st st').
Proof.
  unfold reshape. case_decide; [| apply ensures_raise].
  destruct (is_c_contiguous (geom a)); [apply draws_ret |].
  eapply (ensures_bind_draws _ _ _ 0 0); [done | apply draws_read_view |].
  intros xs st'. apply draws_alloc.
Qed.

Lemma draws_np_repeat a reps axis st :
  ensures (np_repeat a reps axis) st (λ _ st', draws 0 st st').
Proof.
  unfold np_repeat. case_decide; [| apply ensures_raise].
  intros r st' Heq. destruct (heap st !! base a ≫= _); [| done].
  by apply draws_alloc in Heq.
Qed.

Lemma draws_astype a d st : ensures (astype a d) st (λ _ st', draws 0 st st').
Proof.
  unfold astype. eapply (ensures_bind_draws _ _ _ 0 0); [done | apply draws_read_view |].
  intros xs st'. apply draws_alloc.
Qed.

Lemma draws_generate_time_series (c : constants) (b s : nat) st :
  ensures (generate_time_series c b s) st
    (λ _ st', draws (numel [4; b; 1] + numel [b; s]) st st').
Proof.
  unfold generate_time_series.
  eapply ensures_bind_draws; [reflexivity | apply draws_random_rand |]. intros r st1.
  do 4 (eapply (ensures_bind_draws _ _ _ 0); [reflexivity | apply draws_getitem |]; intros ? ?).
  eapply (ensures_bind_draws _ _ _ 0); [reflexivity | apply draws_alloc |]. intros time ?.
  eapply (ensures_bind_draws _ _ _ 0); [reflexivity | apply draws_ufunc2 |]. intros ? ?.
  do 2 (eapply (ensures_bind_draws _ _ _ 0); [reflexivity | apply draws_ufunc1 |]; intros ? ?).
  eapply (ensures_bind_draws _ _ _ 0); [reflexivity | apply draws_ufunc2 |]. intros ? ?.
  do 2 (eapply (ensures_bind_draws _ _ _ 0); [reflexivity | apply draws_ufunc1 |]; intros ? ?).
  eapply (ensures_bind_draws _ _ _ 0); [reflexivity | apply draws_ufunc2 |]. intros ? ?.
  do 2 (eapply (ensures_bind_draws _ _ _ 0); [reflexivity | apply draws_ufunc1 |]; intros ? ?).
  eapply (ensures_bind_draws _ _ _ 0); [reflexivity | apply draws_ufunc2 |]. intros ? ?.
  do 2 (eapply (ensures_bind_draws _ _ _ 0); [reflexivity | apply draws_ufunc1 |]; intros ? ?).
  eapply (ensures_bind_draws _ _ _ 0); [reflexivity | apply draws_iadd |]. intros ? ?.
  eapply (ensures_bind_draws _ _ _ (numel [b; s]) 0);
    [rewrite Nat.add_0_r; reflexivity | apply draws_random_rand |].
  intros ? ?.
  do 2 (eapply (ensures_bind_draws _ _ _ 0); [reflexivity | apply draws_ufunc1 |]; intros ? ?).
  eapply (ensures_bind_draws _ _ _ 0); [reflexivity | apply draws_iadd |]. intros ? ?.
  eapply (ensures_bind_draws _ _ _ 0); [reflexivity | apply draws_reshape |]. intros ? ?.
  eapply (ensures_bind_draws _ _ _ 0); [reflexivity | apply draws_np_repeat |]. intros ? ?.
  apply draws_astype.
Qed.

End Draws.

Lemma waveform_ext {A} `{Scalar A} (u u' : nat → A) b s i j :
  (∀ k, u k = u' k) → waveform u b s i j = waveform u' b s i j.
Proof.
  intros Hu. unfold waveform, wave1, wave2, noise_at, frequency1, frequency2.
  by rewrite !Hu.
Qed.

(** X13: whatever the batch size b and the step count s, the generator
    returns; it draws exactly 4*b + b*s samples, in this order: the b
    values of freq1, of freq2, of offsets1 and of offsets2, then the b*s
    noise values row by row; element (i, j, f) of the series is the
    waveform of row i at step j computed from these samples, rounded to 32
    bits; the buffers that existed are unchanged and the model is not
    called; and a second call computes its series from the samples that
    follow those of the first. *)
Theorem generator_calls_draw_successive_samples {A : Type} `{Scalar A}
    (c : constants) (b s b' s' : nat) (st : state A) :
  ∃ series st' series' st'',
    generate_time_series c b s st = Ok (series, st')
    ∧ generate_time_series c b' s' st' = Ok (series', st'')
    ∧ (∀ k, rng st' k = rng st (4 * b + b * s + k))
    ∧ predicted st' = predicted st
    ∧ (∀ l buf, heap st !! l = Some buf → heap st'' !! l = Some buf)
    ∧ (∀ i j f, i < b → j < s → f < N_FEATURES c →
         item st' series [i; j; f] = Some (round32 (waveform (rng st) b s i j))
         ∧ item st'' series [i; j; f] = Some (round32 (waveform (rng st) b s i j)))
    ∧ ∀ i j f, i < b' → j < s' → f < N_FEATURES c →
        item st'' series' [i; j; f]
        = Some (round32 (waveform (λ k, rng st (4 * b + b * s + k)) b' s' i j)).
Proof.
  destruct (generate_time_series_run c b s st)
    as (series & st' & Hrun & Hext & _ & _ & Hholds).
  destruct (generate_time_series_run c b' s' st')
    as (series' & st'' & Hrun' & Hext' & _ & _ & Hholds').
  destruct (draws_generate_time_series c b s st _ _ Hrun) as [Hrng Hlog].
  assert (∀ k, rng st' k = rng st (4 * b + b * s + k)) as Hrng'.
  { intros k. rewrite Hrng. f_equal. simpl. lia. }
  exists series, st', series', st''.
  split; [done |]. split; [done |]. split; [done |]. split; [done |].
  split; [intros l buf Hl; by apply Hext', Hext |]. split.
  - intros i j f Hi Hj Hf.
    assert (in_range [i; j; f] [b; s; N_FEATURES c]) as Hr by (repeat constructor; done).
    split.
    + by rewrite (holds_item _ _ _ _ _ Hholds Hr).
    + by rewrite (holds_item _ _ _ _ _ (holds_extends _ _ _ _ _ Hholds Hext') Hr).
  - intros i j f Hi Hj Hf.
    rewrite (holds_item _ _ _ _ _ Hholds') by (repeat constructor; done).
    cbn [lookup_total list_lookup_total]. do 2 f_equal. by apply waveform_ext.
Qed.

(** * The strategy that predicts all the steps at once *)

Lemma fits_c_order off sh len :
  fits (View off (c_dims sh)) len = true ↔ numel sh = 0 ∨ off + numel sh ≤ len.
Proof.
  rewrite fits_spec. unfold pos, v_shape. cbn [v_offset v_dims]. rewrite shape_c_dims. split.
  - intros Hall. destruct (decide (numel sh = 0)) as [| Hne]; [by left | right].
    destruct (lookup_lt_is_Some_2 (ndindex sh) (numel sh - 1)) as [idx Hidx];
      [rewrite length_ndindex; lia |].
    apply ndindex_lookup_inv in Hidx as [Hr Hp]. specialize (Hall idx Hr). lia.
  - intros Hle idx Hr. apply dot_c_dims_lt in Hr. lia.
Qed.

Section Reshape.
Context {A : Type}.
Implicit Types (st : state A) (a : ndarray).

Lemma valid_old st a ext : valid st a → valid (set_heap (heap st ++ ext) st) a.
Proof.
  intros (buf & Hb & Hf). exists buf. split; [| done].
  cbn. rewrite lookup_app_l; [done | by eapply lookup_lt_Some].
Qed.

(** [a.reshape(sh)] on an array of the store: a view or a copy, an array
    of the store in both cases. *)
Lemma reshape_returns a sh st :
  valid st a → numel sh = numel (shape a) →
  returns (reshape a sh) st (λ r st',
    (∃ ext, st' = set_heap (heap st ++ ext) st) ∧ valid st' r ∧ shape r = sh).
Proof.
  intros (buf & Hb & Hf) Hn. unfold reshape. rewrite decide_True by done.
  destruct (is_c_contiguous (geom a)) eqn:Hc.
  - apply returns_ret. split; [| split].
    + exists []. rewrite app_nil_r. by destruct st.
    + exists buf. cbn [base geom]. split; [done |].
      apply bool_decide_eq_true in Hc.
      assert (geom a = View (v_offset (geom a)) (c_dims (shape a))) as Hg.
      { unfold shape. rewrite <- Hc. by destruct (geom a). }
      rewrite Hg in Hf. apply fits_c_order in Hf. apply fits_c_order. lia.
    + unfold shape, v_shape. cbn. apply shape_c_dims.
  - destruct (read_view_run st _ _ _ Hb Hf) as (xs & Hread & Hg).
    apply returns_bind. eapply returns_run; [exact Hread |].
    eapply returns_run; [reflexivity |].
    split; [by exists [xs] |]. split.
    + exists xs. cbn [heap set_heap base geom]. split; [apply lookup_snoc |].
      apply fits_contiguous. rewrite (gather_length _ _ _ Hg). fold (shape a). lia.
    + unfold shape, v_shape. cbn. apply shape_c_dims.
Qed.

End Reshape.

Section VectorForecasting.
Context {A : Type} `{Scalar A} `{Keras A}.
Variable c : constants.

Local Abbreviation TB := (TRAINING_BATCH_SIZE c).
Local Abbreviation VB := (VALIDATION_BATCH_SIZE c).
Local Abbreviation m := (N_PREDICTIONS c).
Local Abbreviation F := (N_FEATURES c).

(** X14: when the training and validation targets have TRAINING_BATCH_SIZE
    * m * features and VALIDATION_BATCH_SIZE * m * features elements, the
    framework fits, and the model answers with a tensor of sizes
    (VALIDATION_BATCH_SIZE, m * features), the strategy that predicts all
    the steps at once returns; the model is called once, on the validation
    input as it is, and the prediction returned has the sizes
    (VALIDATION_BATCH_SIZE, m, features), its element (i, k, f) being the
    element (i, k * features + f) of the output of the model. *)
Theorem vector_forecasting_unflattens_the_output
    (x_train y_train x_valid y_valid : ndarray) (st : state A) :
  valid st x_train → valid st x_valid →
  valid st y_train → numel (shape y_train) = TB * (m * F) →
  valid st y_valid → numel (shape y_valid) = VB * (m * F) →
  (∀ t tx ty tv, ∃ r, fit t tx ty tv = Ok r) →
  (∀ md x, tshape x = shape x_valid →
     ∃ out, predict md x = Ok out ∧ tshape out = [VB; m * F]
            ∧ length (tdata out) = numel [VB; m * F]) →
  ∃ hist y_pred st' md xs out,
    rnn_vector_forecasting c x_train y_train x_valid y_valid st = Ok ((hist, y_pred), st')
    ∧ values st x_valid = Some xs
    ∧ predict md (Tensor (shape x_valid) xs) = Ok out
    ∧ predicted st' = predicted st ++ [Tensor (shape x_valid) xs]
    ∧ shape y_pred = [VB; m; F]
    ∧ ∀ i k f, i < VB → k < m → f < F →
        is_Some (item st' y_pred [i; k; f])
        ∧ item st' y_pred [i; k; f] = tdata out !! dot [i; k * F + f] (c_dims [VB; m * F]).
Proof.
  intros Hvt Hvx Hvyt Hnt Hvyv Hnv Hfit Hpredict.
  destruct (reshape_returns y_train [TB; m * F] st Hvyt) as (yt & ? & Hr1 & [ext1 ->] & Hvyt' & _).
  { simpl. lia. }
  set (st1 := set_heap (heap st ++ ext1) st) in *.
  destruct (reshape_returns y_valid [VB; m * F] st1) as (yv & ? & Hr2 & [ext2 ->] & Hvyv' & _).
  { by apply valid_old. }
  { simpl. lia. }
  set (st2 := set_heap (heap st1 ++ ext2) st1) in *.
  assert (∀ a, valid st a → valid st2 a) as Hold.
  { intros a Ha. by apply valid_old, valid_old. }
  assert (returns (model_fit (Training (get_sequence_to_vector_rnn_model (m * F)) adam false
                                (N_EPOCHS c)) x_train yt (Some (x_valid, yv)))
            st2 (λ _ st', st' = st2)) as ([md hist] & ? & Htrain & ->).
  { apply model_fit_returns; auto. by apply valid_old. }
  destruct (valid_values _ _ Hvx) as [xs Hxs].
  assert (values st2 x_valid = Some xs) as Hxs2.
  { unfold st2. rewrite values_old by (by apply valid_old). unfold st1. by rewrite values_old. }
  destruct (Hpredict md (Tensor (shape x_valid) xs) eq_refl) as (out & Hout & Hsho & Hleno).
  rewrite <- Hsho in Hleno.
  destruct (model_predict_returns md x_valid st2 xs out Hxs2 Hout Hleno)
    as (p0 & st3 & Hpred & -> & Hheap3 & Hlog3).
  rewrite Hsho in *.
  exists hist, (NdArray (length (heap st2)) (contiguous [VB; m; F]) Float32), st3, md, xs, out.
  split; [| split; [done | split; [done | split; [done | split; [done |]]]]].
  - apply returns_eq. unfold rnn_vector_forecasting.
    apply returns_bind. eapply returns_run; [exact Hr1 |].
    apply returns_bind. eapply returns_run; [exact Hr2 |].
    apply returns_bind. eapply returns_run; [exact Htrain |]. cbn beta iota.
    apply returns_bind. eapply returns_run; [exact Hpred |].
    apply returns_bind. eapply returns_run; [apply reshape_contiguous_run; simpl; lia |].
    by apply returns_ret.
  - intros i k f Hi Hk Hf. unfold item. cbn [base geom].
    rewrite Hheap3, lookup_snoc. cbn [mbind option_bind].
    assert (pos (contiguous [VB; m; F]) [i; k; f] = dot [i; k * F + f] (c_dims [VB; m * F]))
      as -> by (unfold pos; simpl; lia).
    split; [| done]. apply lookup_lt_is_Some_2. rewrite Hleno.
    apply dot_c_dims_lt. repeat constructor; [done | nia].
Qed.

(** X15: when the training targets do not have TRAINING_BATCH_SIZE * m *
    features elements, or the validation targets do not have
    VALIDATION_BATCH_SIZE * m * features elements, that strategy ends with
    the [ValueError] of the reshape, before the model is trained. *)
Theorem vector_forecasting_rejects_other_targets
    (x_train y_train x_valid y_valid : ndarray) (st : state A) :
  numel (shape y_train) ≠ TB * (m * F)
  ∨ (valid st y_train ∧ numel (shape y_valid) ≠ VB * (m * F)) →
  raises (rnn_vector_forecasting c x_train y_train x_valid y_valid) st ValueError.
Proof.
  intros [Hne | [Hvyt Hne]]; unfold rnn_vector_forecasting.
  - apply raises_now. unfold raises, reshape. rewrite decide_False; [done |]. simpl. lia.
  - destruct (decide (numel (shape y_train) = TB * (m * F))) as [Heq | Hne'].
    + apply raises_later. eapply returns_mono.
      { apply reshape_returns; [done |]. simpl. lia. }
      intros yt st1 _. cbn beta. apply raises_now.
      unfold raises, reshape. rewrite decide_False; [done |]. simpl. lia.
    + apply raises_now. unfold raises, reshape. rewrite decide_False; [done |]. simpl. lia.
Qed.

End VectorForecasting.

Lemma vector_forecasting_unflattens_the_output_witness :
  let x := NdArray 0 (View 0 [(1, 4); (2, 1); (1, 1)]) Float32 in
  let y := NdArray 0 (View 2 [(1, 4); (2, 1); (1, 1)]) Float32 in
  ∃ hist y_pred st' md xs out,
    rnn_vector_forecasting (H0 := constant_keras [1; 2]) small x y x y small_state
      = Ok ((hist, y_pred), st')
    ∧ values small_state x = Some xs
    ∧ predict (Keras := constant_keras [1; 2]) md (Tensor (shape x) xs) = Ok out
    ∧ predicted st' = predicted small_state ++ [Tensor (shape x) xs]
    ∧ shape y_pred = [1; 2; 1]
    ∧ ∀ i k f, i < 1 → k < 2 → f < 1 →
        is_Some (item st' y_pred [i; k; f])
        ∧ item st' y_pred [i; k; f] = tdata out !! dot [i; k * 1 + f] (c_dims [1; 2 * 1]).
Proof.
  intros x y.
  apply (vector_forecasting_unflattens_the_output (H0 := constant_keras [1; 2]) small
           x y x y small_state).
  - eexists. split; reflexivity.
  - eexists. split; reflexivity.
  - eexists. split; reflexivity.
  - reflexivity.
  - eexists. split; reflexivity.
  - reflexivity.
  - intros t tx ty tv. eexists. reflexivity.
  - intros md t Ht. eexists. split; [reflexivity |]. split; reflexivity.
Defined.

Lemma vector_forecasting_rejects_other_targets_witness :
  let x := NdArray 0 (View 0 [(1, 4); (2, 1); (1, 1)]) Float32 in
  raises (rnn_vector_forecasting (H0 := constant_keras [1; 2]) small x small_series x x)
         small_state ValueError.
Proof.
  intros x.
  apply (vector_forecasting_rejects_other_targets (H0 := constant_keras [1; 2]) small
           x small_series x x small_state).
  left. simpl. lia.
Defined.

(** * The plotter *)

Lemma dims_of_shape2 v k0 k1 :
  v_shape v = [k0; k1] → ∃ s0 s1, v_dims v = [(k0, s0); (k1, s1)].
Proof.
  unfold v_shape. destruct (v_dims v) as [|[? s0] [|[? s1] [|]]]; try done.
  simpl. intros ?; simplify_eq. by exists s0, s1.
Qed.

Section ReshapeElements.
Context {A : Type}.
Implicit Types (st : state A) (a : ndarray).

(** The elements of [a.reshape(sh)] are those of [a], in C order. *)
Lemma reshape_elements a sh st :
  valid st a → numel sh = numel (shape a) →
  returns (reshape a sh) st (λ r st',
    heap st `prefix_of` heap st' ∧ valid st' r ∧ shape r = sh
    ∧ ∀ idx idx', in_range idx sh → in_range idx' (shape a) →
        dot idx (c_dims sh) = dot idx' (c_dims (shape a)) →
        item st' r idx = item st a idx').
Proof.
  intros (buf & Hb & Hf) Hn. unfold reshape. rewrite decide_True by done.
  destruct (is_c_contiguous (geom a)) eqn:Hc.
  - apply returns_ret.
    apply bool_decide_eq_true in Hc.
    assert (geom a = View (v_offset (geom a)) (c_dims (shape a))) as Hg.
    { unfold shape. rewrite <- Hc. by destruct (geom a). }
    split; [done |]. split; [| split].
    + exists buf. cbn [base geom]. split; [done |].
      rewrite Hg in Hf. apply fits_c_order in Hf. apply fits_c_order. lia.
    + unfold shape, v_shape. cbn. apply shape_c_dims.
    + intros idx idx' _ _ Hdot. unfold item. cbn [base geom]. rewrite Hb. cbn.
      f_equal. rewrite Hg. unfold pos. cbn. by rewrite Hdot.
  - destruct (read_view_run st _ _ _ Hb Hf) as (xs & Hread & Hg).
    apply returns_bind. eapply returns_run; [exact Hread |].
    eapply returns_run; [reflexivity |].
    split; [by exists [xs] |]. split; [| split].
    + exists xs. cbn [heap set_heap base geom]. split; [apply lookup_snoc |].
      apply fits_contiguous. rewrite (gather_length _ _ _ Hg). fold (shape a). lia.
    + unfold shape, v_shape. cbn. apply shape_c_dims.
    + intros idx idx' _ Hr' Hdot. unfold item. cbn [heap set_heap base geom].
      rewrite lookup_snoc, Hb. cbn.
      destruct (gather_lookup _ _ _ idx' Hg Hr') as [Hlk _]. fold (shape a) in Hlk.
      rewrite <- Hlk. f_equal. unfold pos. cbn. by rewrite Hdot.
Qed.

End ReshapeElements.

Section PlotterProperties.
Context {A : Type}.
Implicit Types (p : plotter A) (st : state A).

(** X16: [plot] on an array of sizes (b, s, f) selects feature 0, reads the
    b * s values as [batch_size] rows of [n_predictions] values (only the
    number of elements is checked against [batch_size]), and adds one curve
    and one label: the curve holds the [n_predictions] values of row
    [batch_id] (counted from the end when negative), which are the values
    of feature 0 of row [batch_id] of the array when [batch_size] is b;
    the labels stay in step with the curves, so that [show] gives the new
    label to the new curve; no existing buffer is changed. *)
Theorem plot_adds_one_curve_and_its_label p (y_data : ndarray) name batch_size batch_id st
    b s f row :
  valid st y_data → shape y_data = [b; s; f] → 0 < f →
  TARGET_FEATURE p = 0%Z →
  batch_size * n_predictions p = b * s →
  norm_index batch_size batch_id = Ok row →
  length (legend p) = length (fig p) →
  ∃ line st',
    let p' := Plotter (fig p ++ [line]) (xticks p) (legend p ++ [name]) (n_predictions p)
                      (TARGET_FEATURE p) in
    plot p y_data name batch_size batch_id st = Ok (p', st')
    ∧ length line = n_predictions p
    ∧ (∀ j, j < n_predictions p →
         is_Some (line !! j)
         ∧ line !! j = item st y_data [(row * n_predictions p + j) / s;
                                       (row * n_predictions p + j) mod s; 0])
    ∧ (b = batch_size → ∀ j, j < n_predictions p → line !! j = item st y_data [row; j; 0])
    ∧ length (legend p') = length (fig p')
    ∧ show p' = show p ++ [(name, line)]
    ∧ heap st `prefix_of` heap st'.
Proof.
  intros Hv Hsh Hf Htf Hsize Hrow Hlen.
  set (np := n_predictions p) in *.
  pose proof (norm_index_lt _ _ _ Hrow) as Hrow_lt.
  destruct (dims_of_shape3 _ _ _ _ Hsh) as (s0 & s1 & s2 & Hdims).
  (* the target feature *)
  assert (∃ v1, subscript_view [All; All; At (TARGET_FEATURE p)] (geom y_data) = Ok v1
    ∧ v_shape v1 = [b; s]
    ∧ ∀ i j, pos v1 [i; j] = pos (geom y_data) [i; j; 0]) as (v1 & Hv1 & Hsh1 & Hp1).
  { unfold subscript_view, v_shape, pos. rewrite Hdims, Htf. cbn.
    rewrite norm_index_first by done. cbn. eexists. split; [done |]. cbn.
    split; [done | intros; lia]. }
  destruct (getitem_valid st y_data _ _ Hv Hv1) as [Hg1 Hvalid1].
  set (a1 := NdArray (base y_data) v1 (dt y_data)) in *.
  (* the rows *)
  destruct (reshape_elements a1 [batch_size; np] st Hvalid1)
    as (r & st' & Hreshape & Hpre & Hvr & Hshr & Hel).
  { unfold shape. cbn [geom a1]. rewrite Hsh1. simpl. lia. }
  destruct (dims_of_shape2 _ _ _ Hshr) as (t0 & t1 & Hdr).
  assert (∃ v3, subscript_view [At batch_id] (geom r) = Ok v3
    ∧ v_shape v3 = [np]
    ∧ ∀ j, pos v3 [j] = pos (geom r) [row; j]) as (v3 & Hv3 & Hsh3 & Hp3).
  { unfold subscript_view, v_shape, pos. rewrite Hdr. cbn. rewrite Hrow. cbn.
    eexists. split; [done |]. cbn. split; [done | intros; lia]. }
  destruct (getitem_valid st' r _ _ Hvr Hv3) as [Hg3 (rbuf & Hrb & Hf3)].
  cbn [base geom] in Hrb, Hf3.
  destruct (read_view_run st' _ _ _ Hrb Hf3) as (line & Hread & Hgather).
  exists line, st'. cbn zeta.
  assert (∀ j, j < np →
    is_Some (line !! j)
    ∧ line !! j = item st y_data [(row * np + j) / s; (row * np + j) mod s; 0]) as Hline.
  { intros j Hj.
    destruct (gather_lookup _ _ _ [j] Hgather) as [Hlk Hsome].
    { rewrite Hsh3. repeat constructor; done. }
    rewrite Hsh3 in Hlk. cbn in Hlk. replace (j * 1 + 0) with j in Hlk by lia.
    rewrite Hlk. split; [done |].
    assert (0 < s) as Hs by nia.
    assert ((row * np + j) / s < b) as Hq.
    { apply Nat.Div0.div_lt_upper_bound. nia. }
    pose proof (Nat.mod_upper_bound (row * np + j) s ltac:(lia)) as Hmod.
    pose proof (Nat.div_mod (row * np + j) s ltac:(lia)) as Hdm.
    rewrite Hp3.
    transitivity (item st' r [row; j]); [unfold item; by rewrite Hrb |].
    rewrite (Hel [row; j] [(row * np + j) / s; (row * np + j) mod s]).
    - unfold item. cbn [base geom a1]. by rewrite Hp1.
    - repeat constructor; done.
    - unfold shape. cbn [geom a1]. rewrite Hsh1. repeat constructor; done.
    - unfold shape. cbn [geom a1]. rewrite Hsh1. simpl. lia. }
  split; [| split; [| split; [done | split; [| split; [| split; [| done]]]]]].
  - apply returns_eq. unfold plot.
    apply returns_bind. eapply returns_run; [exact Hg1 |].
    apply returns_bind. eapply returns_run; [exact Hreshape |].
    apply returns_bind. eapply returns_run; [exact Hg3 |].
    apply returns_bind. eapply returns_run; [exact Hread |].
    by apply returns_ret.
  - rewrite (gather_length _ _ _ Hgather), Hsh3. simpl. lia.
  - intros -> j Hj. destruct (Hline j Hj) as [_ ->].
    assert (np = s) as Hnp by nia.
    assert ((row * np + j) / s = row) as ->.
    { symmetry. apply (Nat.div_unique _ s row j); lia. }
    assert ((row * np + j) mod s = j) as ->.
    { symmetry. apply (Nat.mod_unique _ s row j); lia. }
    done.
  - cbn. rewrite !length_app. simpl. lia.
  - unfold show. cbn [legend fig]. by rewrite zip_with_app.
Qed.

End PlotterProperties.

Lemma plot_adds_one_curve_and_its_label_witness :
  let p := Plotter_init (A := R) 4 in
  ∃ line st',
    let p' := Plotter (fig p ++ [line]) (xticks p) (legend p ++ ["target data"%string])
                      (n_predictions p) (TARGET_FEATURE p) in
    plot p small_series "target data"%string 2 (-1) small_state = Ok (p', st')
    ∧ length line = n_predictions p
    ∧ (∀ j, j < n_predictions p →
         is_Some (line !! j)
         ∧ line !! j = item small_state small_series
                         [(1 * n_predictions p + j) / 4; (1 * n_predictions p + j) mod 4; 0])
    ∧ (2 = 2 → ∀ j, j < n_predictions p → line !! j = item small_state small_series [1; j; 0])
    ∧ length (legend p') = length (fig p')
    ∧ show p' = show p ++ [("target data"%string, line)]
    ∧ heap small_state `prefix_of` heap st'.
Proof.
  intros p.
  apply (plot_adds_one_curve_and_its_label p small_series "target data"%string 2 (-1)
           small_state 2 4 1 1).
  - eexists. split; reflexivity.
  - reflexivity.
  - lia.
  - reflexivity.
  - reflexivity.
  - reflexivity.
  - reflexivity.
Defined.

Section PlotterErrors.
Context {A : Type}.
Implicit Types (p : plotter A) (st : state A).

(** X17: [plot] needs an array of three axes: on an array of sizes
    (BATCH_SIZE, N_PREDICTIONS), the sizes that its documentation gives,
    and on any array with fewer than three axes, it raises [IndexError]. *)
Theorem plot_rejects_arrays_without_a_feature_axis p (y_data : ndarray) name batch_size
    batch_id st :
  length (shape y_data) < 3 →
  raises (plot p y_data name batch_size batch_id) st IndexError.
Proof.
  intros Hlen. unfold plot. apply raises_now. apply getitem_raises.
  unfold subscript_view. fold (shape y_data).
  destruct (shape y_data) as [|k0 [|k1 [|k2 sh]]]; cbn; try done.
  simpl in Hlen. lia.
Qed.

(** X18: [plot] raises [ValueError] when the array does not hold
    [batch_size] * [n_predictions] values per feature. *)
Theorem plot_rejects_other_sizes p (y_data : ndarray) name batch_size batch_id st b s f :
  shape y_data = [b; s; f] → 0 < f →
  TARGET_FEATURE p = 0%Z →
  batch_size * n_predictions p ≠ b * s →
  raises (plot p y_data name batch_size batch_id) st ValueError.
Proof.
  intros Hsh Hf Htf Hne. unfold plot.
  destruct (dims_of_shape3 _ _ _ _ Hsh) as (s0 & s1 & s2 & Hdims).
  assert (∃ v1, subscript_view [All; All; At (TARGET_FEATURE p)] (geom y_data) = Ok v1
    ∧ v_shape v1 = [b; s]) as (v1 & Hv1 & Hsh1).
  { unfold subscript_view, v_shape. rewrite Hdims, Htf. cbn.
    rewrite norm_index_first by done. cbn. eauto. }
  apply raises_later. eapply returns_run; [by apply getitem_run |].
  apply raises_now. unfold raises, reshape, shape. cbn [geom]. rewrite Hsh1.
  rewrite decide_False; [done |]. simpl. lia.
Qed.

(** X19: [plot] raises [IndexError] when [batch_id] is not a row of the
    [batch_size] rows: neither in [0, batch_size) nor, counted from the
    end, in [-batch_size, 0). *)
Theorem plot_rejects_rows_out_of_range p (y_data : ndarray) name batch_size batch_id st
    b s f :
  valid st y_data → shape y_data = [b; s; f] → 0 < f →
  TARGET_FEATURE p = 0%Z →
  batch_size * n_predictions p = b * s →
  ¬ (- Z.of_nat batch_size ≤ batch_id < Z.of_nat batch_size)%Z →
  raises (plot p y_data name batch_size batch_id) st IndexError.
Proof.
  intros Hv Hsh Hf Htf Hsize Hout. unfold plot.
  destruct (dims_of_shape3 _ _ _ _ Hsh) as (s0 & s1 & s2 & Hdims).
  assert (∃ v1, subscript_view [All; All; At (TARGET_FEATURE p)] (geom y_data) = Ok v1
    ∧ v_shape v1 = [b; s]) as (v1 & Hv1 & Hsh1).
  { unfold subscript_view, v_shape. rewrite Hdims, Htf. cbn.
    rewrite norm_index_first by done. cbn. eauto. }
  destruct (getitem_valid st y_data _ _ Hv Hv1) as [Hg1 Hvalid1].
  apply raises_later. eapply returns_run; [exact Hg1 |].
  apply raises_later. eapply returns_mono.
  { apply (reshape_elements _ [batch_size; n_predictions p] st Hvalid1).
    unfold shape. cbn [geom]. rewrite Hsh1. simpl. lia. }
  intros r st' (_ & _ & Hshr & _). cbn beta.
  apply raises_now. apply getitem_raises.
  unfold subscript_view. fold (shape r). rewrite Hshr. cbn.
  unfold norm_index. rewrite !decide_False by lia. done.
Qed.

End PlotterErrors.

Lemma plot_rejects_arrays_without_a_feature_axis_witness :
  raises (plot (Plotter_init (A := R) 4) (NdArray 0 (contiguous [2; 4]) Float32)
               "target data"%string 2 0) small_state IndexError.
Proof.
  apply (plot_rejects_arrays_without_a_feature_axis (Plotter_init (A := R) 4)
           (NdArray 0 (contiguous [2; 4]) Float32) "target data"%string 2 0 small_state).
  simpl. lia.
Defined.

Lemma plot_rejects_other_sizes_witness :
  raises (plot (Plotter_init (A := R) 2) small_series "target data"%string 2 0)
         small_state ValueError.
Proof.
  apply (plot_rejects_other_sizes (Plotter_init (A := R) 2) small_series
           "target data"%string 2 0 small_state 2 4 1).
  - reflexivity.
  - lia.
  - reflexivity.
  - simpl. lia.
Defined.

Lemma plot_rejects_rows_out_of_range_witness :
  raises (plot (Plotter_init (A := R) 4) small_series "target data"%string 2 2)
         small_state IndexError.
Proof.
  apply (plot_rejects_rows_out_of_range (Plotter_init (A := R) 4) small_series
           "target data"%string 2 2 small_state 2 4 1).
  - eexists. split; reflexivity.
  - reflexivity.
  - lia.
  - reflexivity.
  - reflexivity.
  - lia.
Defined.

(** * More on the windowed targets *)

Section SlidingTargets.
Context {A : Type} `{Scalar A}.
Variable c : constants.

Local Abbreviation B := (INITIAL_BATCH_SIZE c).
Local Abbreviation n := (N_INPUT_STEPS c).
Local Abbreviation m := (N_PREDICTIONS c).
Local Abbreviation F := (N_FEATURES c).

(** X20: with N_PREDICTIONS ≤ N_STEPS, the windowed targets of consecutive
    input steps overlap: the
    targets of step t+1 are those of step t moved by one place, the target
    k+1 of step t being the target k of step t+1 (both are step t+k+2 of
    the series). *)
Theorem windowed_targets_slide (series : ndarray) (st : state A) S :
  m ≤ N_STEPS c →
  valid st series →
  shape series = [B; S; F] →
  n + m ≤ S →
  ∃ Y st',
    get_sequence_to_sequence_data c series st = Ok (Y, st')
    ∧ ∀ row t k f, row < B → t + 1 < n → k + 1 < m → f < F →
        is_Some (item st' Y [row; t; (k + 1) * F + f])
        ∧ item st' Y [row; t; (k + 1) * F + f] = item st' Y [row; t + 1; k * F + f]
        ∧ item st' Y [row; t; (k + 1) * F + f] = item st series [row; t + k + 2; f].
Proof.
  intros _ (sbuf & Hs & Hfs) Hsh HS.
  destruct (sequence_targets_run c series st S sbuf Hs Hfs Hsh HS) as (ybuf & Hrun & Hlen & Hy).
  set (Y := NdArray (length (heap st)) (contiguous [B; n; m * F]) Float64).
  set (st' := set_heap (heap st ++ [ybuf]) st).
  assert (∀ row t k f, row < B → t < n → k < m → f < F →
            item st' Y [row; t; k * F + f] = sbuf !! pos (geom series) [row; t + (k + 1); f])
    as HY.
  { intros row t k f Hrow Ht Hk Hf.
    rewrite <- (Hy row t (k + 1) f) by lia.
    unfold item. cbn [heap set_heap base geom st' Y]. rewrite lookup_snoc.
    cbn [mbind option_bind]. f_equal. unfold pos. simpl. lia. }
  exists Y, st'. split.
  { apply returns_eq. unfold get_sequence_to_sequence_data.
    apply returns_bind. eapply returns_run; [exact Hrun |].
    eapply returns_run; [| done]. apply reshape_contiguous_run. simpl. lia. }
  intros row t k f Hrow Ht Hk Hf.
  rewrite (HY row t (k + 1) f), (HY row (t + 1) k f) by lia.
  replace (t + 1 + (k + 1)) with (t + (k + 1 + 1)) by lia.
  split; [| split; [done |]].
  - apply lookup_lt_is_Some_2, (fits_pos (geom series)); [done |].
    fold (shape series). rewrite Hsh. repeat constructor; lia.
  - unfold item. rewrite Hs. cbn [mbind option_bind].
    by replace (t + (k + 1 + 1)) with (t + k + 2) by lia.
Qed.

End SlidingTargets.

Lemma windowed_targets_slide_witness :
  let c := Constants 5 1 2 1 1 0 0 1 in
  let series := NdArray 0 (contiguous [1; 5; 1]) Float32 in
  ∃ Y st',
    get_sequence_to_sequence_data (H := R_scalar (λ x, x)) c series small_state = Ok (Y, st')
    ∧ ∀ row t k f, row < 1 → t + 1 < N_INPUT_STEPS c → k + 1 < 2 → f < 1 →
        is_Some (item st' Y [row; t; (k + 1) * 1 + f])
        ∧ item st' Y [row; t; (k + 1) * 1 + f] = item st' Y [row; t + 1; k * 1 + f]
        ∧ item st' Y [row; t; (k + 1) * 1 + f] = item small_state series [row; t + k + 2; f].
Proof.
  intros c series.
  apply (windowed_targets_slide (H := R_scalar (λ x, x)) c series small_state 5).
  - simpl. lia.
  - eexists. split; reflexivity.
  - reflexivity.
  - unfold N_INPUT_STEPS. simpl. lia.
Defined.

Section ShortSeriesStrategies.
Context {A : Type} `{Scalar A} `{Keras A}.
Variable c : constants.

(** X21: with at least three input steps and two predicted steps, each of
    the four sequence-to-sequence strategies ends with the [ValueError] of
    the windowing utility when the series has fewer than n+m time steps:
    the model is neither trained nor called. *)
Theorem sequence_strategies_reject_short_series
    (x_train x_valid series : ndarray) (ix : nat * nat) (st : state A) B' S F' :
  3 ≤ N_INPUT_STEPS c → 2 ≤ N_PREDICTIONS c →
  valid st series →
  shape series = [B'; S; F'] →
  S < N_INPUT_STEPS c + N_PREDICTIONS c →
  Forall (λ strategy : M A (history * ndarray), raises strategy st ValueError)
    [rnn_sequence_forecasting c x_train x_valid series ix;
     rnn_lstm_sequence_forecasting c x_train x_valid series ix;
     rnn_gru_sequence_forecasting c x_train x_valid series ix;
     cnn_vector_forecasting c x_train x_valid series ix].
Proof.
  intros Hn Hm Hv Hsh HS.
  repeat apply Forall_cons_2; [..| apply Forall_nil_2];
    (apply raises_now; unfold get_sequence_to_sequence_data; apply raises_now;
     by apply (sequence_targets_short c series st B' S F')).
Qed.

End ShortSeriesStrategies.

Lemma sequence_strategies_reject_short_series_witness :
  let x := NdArray 0 (View 0 [(1, 4); (2, 1); (1, 1)]) Float32 in
  Forall (λ strategy : M R (@history R (constant_keras [1; 2; 2]) * ndarray),
            raises strategy small_state ValueError)
    [rnn_sequence_forecasting (H := R_scalar (λ x, x)) (H0 := constant_keras [1; 2; 2])
       script x x small_series (indices script);
     rnn_lstm_sequence_forecasting (H := R_scalar (λ x, x)) (H0 := constant_keras [1; 2; 2])
       script x x small_series (indices script);
     rnn_gru_sequence_forecasting (H := R_scalar (λ x, x)) (H0 := constant_keras [1; 2; 2])
       script x x small_series (indices script);
     cnn_vector_forecasting (H := R_scalar (λ x, x)) (H0 := constant_keras [1; 2; 2])
       script x x small_series (indices script)].
Proof.
  intros x.
  apply (sequence_strategies_reject_short_series (H := R_scalar (λ x, x))
           (H0 := constant_keras [1; 2; 2]) script x x small_series (indices script)
           small_state 2 4 1).
  - unfold N_INPUT_STEPS. simpl. lia.
  - simpl. lia.
  - eexists. split; reflexivity.
  - reflexivity.
  - unfold N_INPUT_STEPS. simpl. lia.
Defined.

(** * The partition of a series that is too small *)

Section PartitionClamped.
Context {A : Type}.
Variable c : constants.

Local Abbreviation TB := (TRAINING_BATCH_SIZE c).
Local Abbreviation VB := (VALIDATION_BATCH_SIZE c).
Local Abbreviation n := (N_INPUT_STEPS c).
Local Abbreviation m := (N_PREDICTIONS c).

(** X22: the partition checks no size: on any series of three axes (and
    with 0 < N_PREDICTIONS ≤ N_STEPS) the six slices are taken without an exception, their
    bounds clamped to the R rows and T steps that the series has; a
    partition whose rows the series does not have is shorter or empty, and
    the row counts of the three partitions always add up to R. *)
Theorem partition_clamps_its_slices (series : ndarray) (st : state A) R T F' :
  m ≤ N_STEPS c →
  shape series = [R; T; F'] →
  0 < m →
  ∃ x_train y_train x_valid y_valid x_test y_test,
    partition c series st
      = Ok ([(x_train, y_train); (x_valid, y_valid); (x_test, y_test)], st)
    ∧ shape x_train = [TB `min` R; n `min` T; F']
    ∧ shape y_train = [TB `min` R; m `min` T; F']
    ∧ shape x_valid = [(TB + VB) `min` R - TB `min` R; n `min` T; F']
    ∧ shape y_valid = [(TB + VB) `min` R - TB `min` R; m `min` T; F']
    ∧ shape x_test = [R - (TB + VB) `min` R; n `min` T; F']
    ∧ shape y_test = [R - (TB + VB) `min` R; m `min` T; F']
    ∧ shape x_train !!! 0 + shape x_valid !!! 0 + shape x_test !!! 0 = R.
Proof.
  intros _ Hsh Hm.
  destruct (dims_of_shape3 _ _ _ _ Hsh) as (s0 & s1 & s2 & Hdims).
  assert (∀ subs v, subscript_view subs (geom series) = Ok v →
            getitem series subs st = Ok (NdArray (base series) v (dt series), st)) as Hget.
  { intros subs v Hv. by apply getitem_run. }
  unfold partition.
  eexists _, _, _, _, _, _. split.
  { apply returns_eq.
    do 6 (apply returns_bind; eapply returns_run;
      [ apply Hget; unfold subscript_view, v_shape; rewrite Hdims; cbn;
        rewrite ?slice_range_to, ?slice_range_nat, ?slice_range_from,
                ?(slice_range_tail T m) by lia;
        reflexivity | ]).
    by apply returns_ret. }
  unfold shape, v_shape. cbn.
  do 6 (split; [try done; do 2 f_equal; lia |]).
  cbn [lookup_total list_lookup_total]. lia.
Qed.

End PartitionClamped.

Lemma partition_clamps_its_slices_witness :
  let row0 := NdArray 0 (contiguous [1; 4; 1]) Float32 in
  ∃ x_train y_train x_valid y_valid x_test y_test,
    partition small row0 small_state
      = Ok ([(x_train, y_train); (x_valid, y_valid); (x_test, y_test)], small_state)
    ∧ shape x_train = [1 `min` 1; N_INPUT_STEPS small `min` 4; 1]
    ∧ shape y_train = [1 `min` 1; 2 `min` 4; 1]
    ∧ shape x_valid = [(1 + 1) `min` 1 - 1 `min` 1; N_INPUT_STEPS small `min` 4; 1]
    ∧ shape y_valid = [(1 + 1) `min` 1 - 1 `min` 1; 2 `min` 4; 1]
    ∧ shape x_test = [1 - (1 + 1) `min` 1; N_INPUT_STEPS small `min` 4; 1]
    ∧ shape y_test = [1 - (1 + 1) `min` 1; 2 `min` 4; 1]
    ∧ shape x_train !!! 0 + shape x_valid !!! 0 + shape x_test !!! 0 = 1.
Proof.
  intros row0.
  apply (partition_clamps_its_slices small row0 small_state 1 4 1).
  - simpl. lia.
  - reflexivity.
  - simpl. lia.
Defined.

(** * Iterative forecasting on other inputs *)

Lemma broadcast_any_fails v b l f s0 s1 s2 b' k f' :
  v_dims v = [(b, s0); (l, s1); (f, s2)] →
  (b ≠ b' ∧ b ≠ 1) ∨ (l ≠ k ∧ l ≠ 1) ∨ (f ≠ f' ∧ f ≠ 1) →
  ∃ e, broadcast_to v [b'; k; f'] = Raise e.
Proof.
  intros Hd [Hb | [[Hl Hl1] | Hf]].
  - eapply broadcast_outer_fails; [exact Hd | by left].
  - by eapply broadcast_middle_fails.
  - eapply broadcast_outer_fails; [exact Hd | by right].
Qed.

Section IterativeErrors.
Context {A : Type} `{Scalar A} `{Keras A}.
Variable c : constants.

Local Abbreviation VB := (VALIDATION_BATCH_SIZE c).
Local Abbreviation N := (N_STEPS c).
Local Abbreviation n := (N_INPUT_STEPS c).
Local Abbreviation F := (N_FEATURES c).

(** X23: with N_PREDICTIONS ≤ N_STEPS, iterative forecasting copies the
    validation input into the first n steps of its accumulated sequence;
    an input one of whose sizes
    differs from (VALIDATION_BATCH_SIZE, n, features) without being 1 makes
    that assignment fail, and the call ends with [ValueError], after the
    model has been fitted. *)
Theorem iterative_forecasting_rejects_other_inputs
    (x_train y_train x_valid y_valid : ndarray) (st : state A) T K D b S f :
  N_PREDICTIONS c ≤ N →
  valid st x_train →
  valid st y_train → shape y_train = [T; K; D] → 0 < K →
  shape x_valid = [b; S; f] →
  (b ≠ VB ∧ b ≠ 1) ∨ (S ≠ n ∧ S ≠ 1) ∨ (f ≠ F ∧ f ≠ 1) →
  (∀ t tx ty tv, ∃ r, fit t tx ty tv = Ok r) →
  raises (rnn_iterative_forecasting c x_train y_train x_valid y_valid) st ValueError.
Proof.
  intros _ Hvt Hvyt Hshyt HK Hshx Hne Hfit.
  destruct (dims_of_shape3 _ _ _ _ Hshyt) as (q0 & q1 & q2 & Hdyt).
  assert (∃ v, subscript_view [All; At 0] (geom y_train) = Ok v) as [vy0 Hvy0].
  { unfold subscript_view, v_shape. rewrite Hdyt. cbn.
    rewrite norm_index_first by done. cbn. eauto. }
  destruct (getitem_valid st y_train _ _ Hvyt Hvy0) as [Hgy0 Hvalid0].
  destruct (dims_of_shape3 _ _ _ _ Hshx) as (s0 & s1 & s2 & Hdx).
  assert (∃ vs, subscript_view [All; All; All] (geom x_valid) = Ok vs
    ∧ v_dims vs = [(b, s0); (S, s1); (f, s2)]) as (vs & Hvs & Hdvs).
  { unfold subscript_view, v_shape. rewrite Hdx. cbn. eauto. }
  unfold rnn_iterative_forecasting.
  apply raises_later. eapply returns_run; [exact Hgy0 |].
  apply raises_later. eapply returns_mono; [apply model_fit_returns; auto |].
  intros [md hist] ? ->. cbn beta iota.
  apply raises_later. eapply returns_run; [reflexivity |].
  set (full := NdArray (length (heap st)) (contiguous [VB; N; F]) Float64).
  assert (∃ vd, subscript_view [All; Range None (Some (Z.of_nat n)); All] (geom full) = Ok vd
    ∧ v_shape vd = [VB; n; F]) as (vd & Hvd & Hshd).
  { unfold subscript_view, v_shape. cbn.
    rewrite slice_range_to, Nat.min_l by (unfold N_INPUT_STEPS; lia). cbn. eauto. }
  apply raises_later. eapply returns_run; [by apply getitem_run |].
  apply raises_later. eapply returns_run; [by apply getitem_run |].
  apply raises_now.
  destruct (broadcast_any_fails vs _ _ _ _ _ _ VB n F Hdvs Hne) as [e He].
  eapply setitem_raises. unfold shape. cbn [geom]. rewrite Hshd. exact He.
Qed.

End IterativeErrors.

Lemma iterative_forecasting_rejects_other_inputs_witness :
  let x := NdArray 0 (View 0 [(1, 4); (2, 1); (1, 1)]) Float32 in
  raises (rnn_iterative_forecasting (H := R_scalar (λ x, x)) (H0 := constant_keras [1; 1])
            small x x small_series x) small_state ValueError.
Proof.
  intros x.
  apply (iterative_forecasting_rejects_other_inputs (H := R_scalar (λ x, x))
           (H0 := constant_keras [1; 1]) small x x small_series x small_state 1 2 1 2 4 1).
  - simpl. lia.
  - eexists. split; reflexivity.
  - eexists. split; reflexivity.
  - reflexivity.
  - lia.
  - reflexivity.
  - left. simpl. lia.
  - intros t tx ty tv. eexists. reflexivity.
Defined.

(** Plotting the last row of the small series on a new plotter of four
    predictions: the curve is (5, 6, 7, 8), and [show] gives it its label. *)
Example plot_small :
  match plot (Plotter_init 4) small_series "target data"%string 2 (-1) small_state with
  | Ok (p, st') =>
      fig p = [[5; 6; 7; 8]%R]
      ∧ show p = [("target data"%string, [5; 6; 7; 8]%R)]
      ∧ xticks p = [1; 2; 3]
      ∧ heap st' = heap small_state
  | Raise _ => False
  end.
Proof. vm_compute. repeat split; reflexivity. Qed.

(** The windowing utility on a single row of the small series, with the
    constants of the small instance (a batch of two rows): the row is
    repeated. *)
Example windowing_repeats_a_single_row :
  match get_sequence_to_sequence_data (H := R_scalar (λ x, x)) small
          (NdArray 0 (contiguous [1; 4; 1]) Float32) small_state with
  | Ok (Y, st') => shape Y = [2; 2; 2] ∧ heap st' !! base Y = Some [2; 3; 3; 4; 2; 3; 3; 4]%R
  | Raise _ => False
  end.
Proof. vm_compute. split; reflexivity. Qed.
